(** * QOnCommand: the OSC transport, the protocol client, its wrapper and the
      workspace pool of [server.js], embedded in Rocq.

    The JavaScript source is a single Node.js module.  Its module-level
    variables ([globalOSCCallbacks], [workspacePool], [clientConnections])
    become fields of explicit state records, its classes become records with
    one function per method, and every [await] of a device round-trip is
    answered by a scripted environment. *)

From Stdlib Require Import List String Ascii ZArith Bool Arith Lia.
Import ListNotations.
Local Open Scope string_scope.
Local Open Scope list_scope.

(* ===================================================================== *)
(** * JavaScript values and containers                                    *)
(* ===================================================================== *)

Module JS.

(** The values [JSON.parse] can produce, plus [undefined] (the value of a
    missing property).  Numbers are kept as integers: the code only tests
    them for truthiness and strict equality. *)
#[warnings="-register-all"] Inductive JSValue : Type :=
| JUndefined
| JNull
| JBool (b : bool)
| JNum (n : Z)
| JStr (s : string)
| JArr (items : list JSValue)
| JObj (fields : list (string * JSValue)).

(** [if (v)] *)
Definition truthy (v : JSValue) : bool :=
  match v with
  | JUndefined | JNull => false
  | JBool b => b
  | JNum n => negb (n =? 0)%Z
  | JStr s => negb (s =? "")
  | JArr _ | JObj _ => true
  end.

(** [a || b] *)
Definition js_or (a b : JSValue) : JSValue := if truthy a then a else b.

Fixpoint assoc (name : string) (fields : list (string * JSValue)) : JSValue :=
  match fields with
  | [] => JUndefined
  | (k, v) :: rest => if k =? name then v else assoc name rest
  end.

(** [v.name].  Reading a property of [null] or [undefined] raises a
    [TypeError] ([None]); primitives and arrays have none of the property
    names the program reads, so they answer [undefined]. *)
Definition prop (v : JSValue) (name : string) : option JSValue :=
  match v with
  | JUndefined | JNull => None
  | JObj fields => Some (assoc name fields)
  | _ => Some JUndefined
  end.

(** [Array.isArray(v)] *)
Definition isArray (v : JSValue) : bool :=
  match v with JArr _ => true | _ => false end.

(** [a === b].  Two objects or arrays are equal only when they are the same
    reference; the values compared by the program come from different
    [JSON.parse] calls, so such a comparison is always false. *)
Definition strict_eq (a b : JSValue) : bool :=
  match a, b with
  | JUndefined, JUndefined => true
  | JNull, JNull => true
  | JBool x, JBool y => Bool.eqb x y
  | JNum x, JNum y => (x =? y)%Z
  | JStr x, JStr y => (x =? y)
  | _, _ => false
  end.

(** [v > 0] after [ToNumber]: [undefined] becomes [NaN], and every
    comparison with [NaN] is false. *)
Definition gt_zero (v : JSValue) : bool :=
  match v with
  | JNum n => (0 <? n)%Z
  | JBool b => b
  | _ => false
  end.

(** [s.startsWith(p)], [s.includes(p)], [s.endsWith(p)] *)
Definition startsWith (s p : string) : bool := String.prefix p s.

Fixpoint includes (s p : string) : bool :=
  String.prefix p s ||
  match s with
  | EmptyString => false
  | String _ rest => includes rest p
  end.

Fixpoint endsWith (s p : string) : bool :=
  (s =? p) ||
  match s with
  | EmptyString => false
  | String _ rest => endsWith rest p
  end.

(** Keys of a [Map] or members of a [Set]: a type with a decidable
    equality. *)
Class Key (K : Type) : Type :=
  { key_eqb : K -> K -> bool;
    key_eqb_spec : forall a b, reflect (a = b) (key_eqb a b) }.

#[export] Instance Key_nat : Key nat :=
  {| key_eqb := Nat.eqb; key_eqb_spec := Nat.eqb_spec |}.

#[export] Instance Key_string : Key string :=
  {| key_eqb := String.eqb; key_eqb_spec := String.eqb_spec |}.

#[export] Instance Key_option {K : Type} `{Key K} : Key (option K).
Proof.
  refine {| key_eqb := fun a b =>
              match a, b with
              | Some x, Some y => key_eqb x y
              | None, None => true
              | _, _ => false
              end |}.
  intros [x|] [y|]; try (constructor; congruence).
  destruct (key_eqb_spec x y); constructor; congruence.
Defined.

Section Containers.
Context {K : Type} `{Key K}.

(** A JavaScript [Map]: entries in insertion order, one per key. *)
Definition JSMap (V : Type) : Type := list (K * V).

Section Map.
Context {V : Type}.

(** [m.get(k)] *)
Fixpoint map_get (k : K) (m : JSMap V) : option V :=
  match m with
  | [] => None
  | (k', v) :: rest => if key_eqb k' k then Some v else map_get k rest
  end.

(** [m.has(k)] *)
Definition map_has (k : K) (m : JSMap V) : bool :=
  match map_get k m with Some _ => true | None => false end.

(** [m.set(k, v)]: a key already present keeps its position and only
    its value is replaced; a new key goes to the end. *)
Fixpoint map_set (k : K) (v : V) (m : JSMap V) : JSMap V :=
  match m with
  | [] => [(k, v)]
  | (k', v') :: rest =>
      if key_eqb k' k then (k', v) :: rest
      else (k', v') :: map_set k v rest
  end.

(** [m.delete(k)] *)
Definition map_delete (k : K) (m : JSMap V) : JSMap V :=
  filter (fun entry => negb (key_eqb (fst entry) k)) m.

(** [Array.from(m.keys())] *)
Definition map_keys (m : JSMap V) : list K := List.map fst m.
End Map.

(** A JavaScript [Set]: members in insertion order, no duplicates. *)
Definition JSSet : Type := list K.

Fixpoint set_has (k : K) (s : JSSet) : bool :=
  match s with
  | [] => false
  | k' :: rest => key_eqb k' k || set_has k rest
  end.

(** [s.add(k)] *)
Definition set_add (k : K) (s : JSSet) : JSSet :=
  if set_has k s then s else s ++ [k].

(** [s.delete(k)] *)
Definition set_delete (k : K) (s : JSSet) : JSSet :=
  filter (fun k' => negb (key_eqb k' k)) s.
End Containers.

Arguments JSMap K V : clear implicits.
Arguments JSSet K : clear implicits.

End JS.

Import JS.

(* ===================================================================== *)
(** * The shared OSC transport                                           *)
(* ===================================================================== *)

Module Transport.

(** An OSC argument as the [osc] library delivers it with
    [metadata: true]. *)
Record OSCArg : Type := mkArg { arg_type : string; arg_value : JSValue }.

Record OSCMessage : Type := mkMsg { address : string; args : list OSCArg }.

(** The promise returned by one [sendOSCMessage] call. *)
Inductive Promise : Type :=
| Pending
| Resolved (result : JSValue)
| Rejected (reason : string).

(** One record per [sendOSCMessage] invocation: its promise, the
    [callbackId] its closures captured, and whether the [setTimeout] it
    made is still armed ([clearTimeout] or firing disarms it).
    A fire-and-forget send has no timer. *)
Record Call : Type := mkCall
  { promise : Promise;
    callbackId : nat;
    timerArmed : bool }.

(** The part of a [QLabOSCClient] instance that [sendOSCMessage] touches. *)
Record Client : Type := mkClient { callbackIdCounter : nat }.

(** [constructor]: [this.callbackIdCounter = 0]. *)
Definition newClient : Client := {| callbackIdCounter := 0 |}.

(** Module-level state.  A stored [callbackFn] closure is represented by
    the index of the call that created it. *)
Record Global : Type := mkGlobal
  { globalOSCCallbacks : JSMap nat nat;
    calls : list Call;
    wire : list OSCMessage;          (* what [oscPort.send] accepted, oldest first *)
    errorCount : nat;
    updateRequests : nat }.          (* calls of [updateAllClientsCueInfo] *)

Definition initial : Global :=
  {| globalOSCCallbacks := []; calls := []; wire := [];
     errorCount := 0; updateRequests := 0 |}.

Definition update_call (i : nat) (f : Call -> Call) (cs : list Call) : list Call :=
  match nth_error cs i with
  | Some c => firstn i cs ++ f c :: skipn (S i) cs
  | None => cs
  end.

(** [resolve(v)] / [reject(e)]: settling a settled promise does nothing. *)
Definition settle (p : Promise) (c : Call) : Call :=
  match promise c with
  | Pending => {| promise := p; callbackId := callbackId c; timerArmed := timerArmed c |}
  | _ => c
  end.

Definition disarm (c : Call) : Call :=
  {| promise := promise c; callbackId := callbackId c; timerArmed := false |}.

Definition promiseOf (g : Global) (i : nat) : option Promise :=
  option_map promise (nth_error (calls g) i).

(** Outgoing argument typing of [sendOSCMessage]. *)
Definition encodeArg (v : JSValue) : OSCArg :=
  {| arg_type := match v with JNum _ => "i" | _ => "s" end; arg_value := v |}.

(** [sendOSCMessage(address, args, expectReply)] run by client [this].
    [raised] is the error [this.oscPort.send] raises, if it does (no port
    yet, or a closed socket).  Returns the index of the promise it
    created. *)
Definition sendOSCMessage (addr : string) (arguments : list JSValue)
    (expectReply : bool) (raised : option string) (this : Client) (g : Global)
  : nat * Client * Global :=
  let oscMessage := {| address := addr; args := List.map encodeArg arguments |} in
  let me := List.length (calls g) in
  let '(this1, g1) :=
    if expectReply then
      let callbackId := S (callbackIdCounter this) in
      ({| callbackIdCounter := callbackId |},
       {| globalOSCCallbacks := map_set callbackId me (globalOSCCallbacks g);
          calls := calls g ++ [{| promise := Pending; callbackId := callbackId;
                                  timerArmed := true |}];
          wire := wire g; errorCount := errorCount g;
          updateRequests := updateRequests g |})
    else
      (this,
       {| globalOSCCallbacks := globalOSCCallbacks g;
          calls := calls g ++ [{| promise := Pending; callbackId := 0;
                                  timerArmed := false |}];
          wire := wire g; errorCount := errorCount g;
          updateRequests := updateRequests g |}) in
  let g2 :=
    match raised with
    | None =>
      {| globalOSCCallbacks := globalOSCCallbacks g1;
         calls := if expectReply then calls g1
                  else update_call me (settle (Resolved (JBool true))) (calls g1);
         wire := wire g1 ++ [oscMessage]; errorCount := errorCount g1;
         updateRequests := updateRequests g1 |}
    | Some error =>
      {| globalOSCCallbacks := globalOSCCallbacks g1;
         calls := update_call me (settle (Rejected error)) (calls g1);
         wire := wire g1; errorCount := errorCount g1;
         updateRequests := updateRequests g1 |}
    end in
  (me, this1, g2).

(** The [setTimeout] callback of call [i], 10 s after it was sent. *)
Definition timeoutFires (i : nat) (g : Global) : Global :=
  match nth_error (calls g) i with
  | Some c =>
      if timerArmed c then
        let cs := update_call i disarm (calls g) in
        if map_has (callbackId c) (globalOSCCallbacks g) then
          {| globalOSCCallbacks := map_delete (callbackId c) (globalOSCCallbacks g);
             calls := update_call i (settle (Rejected "OSC message timeout")) cs;
             wire := wire g; errorCount := S (errorCount g);
             updateRequests := updateRequests g |}
        else
          {| globalOSCCallbacks := globalOSCCallbacks g; calls := cs;
             wire := wire g; errorCount := errorCount g;
             updateRequests := updateRequests g |}
      else g
  | None => g
  end.

(** [callbackFn(error, result)] of call [i]: [clearTimeout], then settle. *)
Definition callbackFn (i : nat) (outcome : Promise) (cs : list Call) : list Call :=
  update_call i (settle outcome) (update_call i disarm cs).

Section WithParser.
(** [JSON.parse]; [None] is a [SyntaxError]. *)
Variable JSON_parse : JSValue -> option JSValue.

(** The [parsedData] computed for a [/reply] message; [JNull] is the
    code's marker for "QLab returned error". *)
Definition parseReply (arguments : list OSCArg) : JSValue :=
  let raw := JArr (List.map arg_value arguments) in
  match arguments with
  | first :: _ =>
      if truthy (arg_value first) then
        match JSON_parse (arg_value first) with
        | Some jsonData =>
            match prop jsonData "status", prop jsonData "data" with
            | Some status, Some data =>
                if strict_eq status (JStr "ok") then data else JNull
            | _, _ => raw          (* TypeError, caught like a parse error *)
            end
        | None => raw
        end
      else raw
  | [] => raw
  end.

(** What the dequeued callback is called with:
    [callback(null, parsedData)] unless [parsedData === null]. *)
Definition replyOutcome (arguments : list OSCArg) : Promise :=
  match parseReply arguments with
  | JNull => Rejected "QLab returned error"
  | parsedData => Resolved parsedData
  end.

(** [handleGlobalOSCMessage(oscMessage)] *)
Definition handleGlobalOSCMessage (m : OSCMessage) (g : Global) : Global :=
  let a := address m in
  if startsWith a "/reply" then
    match globalOSCCallbacks g with
    | (cbId, callback) :: _ =>
        {| globalOSCCallbacks := map_delete cbId (globalOSCCallbacks g);
           calls := callbackFn callback (replyOutcome (args m)) (calls g);
           wire := wire g; errorCount := errorCount g;
           updateRequests := updateRequests g |}
    | [] => g
    end
  else if includes a "update" then
    if includes a "playbackPosition" || includes a "cueList"
       || includes a "cue_id" || endsWith a "update"
    then {| globalOSCCallbacks := globalOSCCallbacks g; calls := calls g;
            wire := wire g; errorCount := errorCount g;
            updateRequests := S (updateRequests g) |}
    else g
  else g.

(** The system: several client instances over the one transport. *)
Record System : Type := mkSystem { clients : list Client; global : Global }.

Inductive Event : Type :=
| ENewClient
| ESend (client : nat) (addr : string) (arguments : list JSValue)
        (expectReply : bool) (raised : option string)
| EMessage (m : OSCMessage)
| ETimeout (call : nat).

Definition step (s : System) (e : Event) : System :=
  match e with
  | ENewClient => {| clients := clients s ++ [newClient]; global := global s |}
  | ESend c addr arguments expectReply raised =>
      match nth_error (clients s) c with
      | Some this =>
          let '(_, this', g') :=
            sendOSCMessage addr arguments expectReply raised this (global s) in
          {| clients := firstn c (clients s) ++ this' :: skipn (S c) (clients s);
             global := g' |}
      | None => s
      end
  | EMessage m => {| clients := clients s; global := handleGlobalOSCMessage m (global s) |}
  | ETimeout i => {| clients := clients s; global := timeoutFires i (global s) |}
  end.

Definition run (s : System) (es : list Event) : System := fold_left step es s.

Definition boot : System := {| clients := []; global := initial |}.
End WithParser.

(** One client sending a burst of queries, and a burst of inbound
    messages. *)
Definition sendAll (requests : list (string * list JSValue))
    (this : Client) (g : Global) : Client * Global :=
  fold_left
    (fun s r =>
       let '(_, this', g') := sendOSCMessage (fst r) (snd r) true None (fst s) (snd s) in
       (this', g'))
    requests (this, g).

Definition deliver (JSON_parse : JSValue -> option JSValue)
    (messages : list OSCMessage) (g : Global) : Global :=
  fold_left (fun g m => handleGlobalOSCMessage JSON_parse m g) messages g.

Definition isReply (m : OSCMessage) : Prop := startsWith (address m) "/reply" = true.

(** The callbacks and calls left by [k] queries of one client whose counter
    stood at [n], the first of them being call number [first]. *)
Definition queued (n first a k : nat) : JSMap nat nat :=
  List.map (fun j => (n + 1 + j, first + j)%nat) (seq a k).

Definition waiting (n k : nat) : list Call :=
  List.map (fun j => {| promise := Pending; callbackId := (n + 1 + j)%nat;
                        timerArmed := true |}) (seq 0 k).


(** A promise that no reply has settled: still pending, or rejected by
    its own timer. *)
Definition pendingOrTimedOut (p : option Promise) : Prop :=
  p = Some Pending \/ p = Some (Rejected "OSC message timeout").

(** Call [i] exists, no entry of the callback map holds its [callbackFn],
    and no reply has settled it. *)
Definition orphaned (i : nat) (g : Global) : Prop :=
  (forall k v, In (k, v) (globalOSCCallbacks g) -> v <> i)
  /\ (i < List.length (calls g))%nat
  /\ pendingOrTimedOut (promiseOf g i).

End Transport.

(* ===================================================================== *)
(** * Asynchronous methods: state, exceptions and a scripted device       *)
(* ===================================================================== *)

Module Async.

(** How one [sendOSCMessage] call ends, as seen by the method awaiting it.
    The transport above shows where each case comes from. *)
Inductive Settlement : Type :=
| SendThrows (e : string)             (* [oscPort.send] raised *)
| Replied (dt : Z) (data : JSValue)   (* a [/reply] arrived after [dt] ms *)
| ReplyError (dt : Z)                 (* a [/reply] with a non-ok status *)
| TimedOut.                           (* the 10 s timer fired first *)

(** What was handed to [oscPort.send]. *)
Record Sent : Type := mkSent
  { sent_address : string; sent_args : list JSValue; sent_expectReply : bool }.

(** The world around a method call: the clock behind [Date.now()], the
    messages put on the wire so far (oldest first) and how the coming
    sends will end.  With the script used up the device stays silent. *)
Record Env : Type := mkEnv
  { clock : Z; outbox : list Sent; script : list Settlement }.

Inductive Outcome (A : Type) : Type :=
| Return (a : A)
| Throw (e : string).
Arguments Return {A} a.
Arguments Throw {A} e.

(** A method of an object of type [T]. *)
Definition M (T A : Type) : Type := Env * T -> Outcome A * (Env * T).

Definition ret {T A} (a : A) : M T A := fun s => (Return a, s).

Definition bind {T A B} (m : M T A) (k : A -> M T B) : M T B :=
  fun s =>
    match m s with
    | (Return a, s') => k a s'
    | (Throw e, s') => (Throw e, s')
    end.

Definition throw {T A} (e : string) : M T A := fun s => (Throw e, s).

(** [try { body } catch (error) { handler }]: what [body] did to the
    object before raising stays done. *)
Definition try_catch {T A} (body : M T A) (handler : string -> M T A) : M T A :=
  fun s =>
    match body s with
    | (Return a, s') => (Return a, s')
    | (Throw e, s') => handler e s'
    end.

Definition this {T} : M T T := fun s => (Return (snd s), s).

Definition assign {T} (f : T -> T) : M T unit :=
  fun s => (Return tt, (fst s, f (snd s))).

(** [Date.now()] *)
Definition Date_now {T} : M T Z := fun s => (Return (clock (fst s)), s).

(** Time passing between two calls. *)
Definition sleep {T} (dt : Z) : M T unit :=
  fun s => (Return tt,
            ({| clock := clock (fst s) + dt; outbox := outbox (fst s);
                script := script (fst s) |}, snd s)).

(** Run a method of a member object. *)
Definition within {T U A} (get : T -> U) (set : U -> T -> T) (m : M U A) : M T A :=
  fun s =>
    match m (fst s, get (snd s)) with
    | (r, (env', u')) => (r, (env', set u' (snd s)))
    end.

(** [JSON.stringify(v).substring(..)] inside a log line: [stringify]
    answers [undefined] for [undefined], and reading [.substring] of that
    raises. *)
Definition logStringified {T} (v : JSValue) : M T unit :=
  match v with
  | JUndefined => throw "TypeError"
  | _ => ret tt
  end.

(** [v.name] with its [TypeError]. *)
Definition read {T} (v : JSValue) (name : string) : M T JSValue :=
  match prop v name with
  | Some x => ret x
  | None => throw "TypeError"
  end.

(** [await this.sendOSCMessage(address, args, expectReply)] *)
Definition sendOSCMessage {T} (addr : string) (arguments : list JSValue)
    (expectReply : bool) : M T JSValue :=
  fun s =>
    let env := fst s in
    let how := match script env with h :: _ => h | [] => TimedOut end in
    let rest := tl (script env) in
    let msg := {| sent_address := addr; sent_args := arguments;
                  sent_expectReply := expectReply |} in
    let after dt := {| clock := clock env + dt; outbox := outbox env ++ [msg];
                       script := rest |} in
    match how with
    | SendThrows e =>
        (Throw e, ({| clock := clock env; outbox := outbox env; script := rest |}, snd s))
    | _ =>
        if expectReply then
          match how with
          | Replied dt JNull => (Throw "QLab returned error", (after dt, snd s))
          | Replied dt data => (Return data, (after dt, snd s))
          | ReplyError dt => (Throw "QLab returned error", (after dt, snd s))
          | _ => (Throw "OSC message timeout", (after 10000%Z, snd s))
          end
        else (Return (JBool true), (after 0%Z, snd s))
    end.

(** The settlement the [n]-th coming send will meet. *)
Definition upcoming (n : nat) (env : Env) : Settlement :=
  nth n (script env) TimedOut.

(** Whether a send that meets [how] makes its [await] return. *)
Definition accepted (expectReply : bool) (how : Settlement) : bool :=
  match how with
  | SendThrows _ => false
  | Replied _ JNull => negb expectReply
  | Replied _ _ => true
  | ReplyError _ | TimedOut => negb expectReply
  end.

Declare Scope async_scope.
Delimit Scope async_scope with async.
Notation "x <- m ;; k" := (bind m (fun x => k))
  (at level 61, m at next level, right associativity) : async_scope.
Notation "m ;; k" := (bind m (fun _ => k))
  (at level 61, right associativity) : async_scope.

End Async.

(* ===================================================================== *)
(** * class QLabOSCClient                                                 *)
(* ===================================================================== *)

Module QLabOSCClient.
Import Async.
Local Open Scope async_scope.
Local Open Scope Z_scope.

(** The [{id, number, name, type}] object the cue queries answer with; a
    placeholder has no [id] property ([JUndefined]). *)
Record CueData : Type := mkCue
  { id : JSValue; number : JSValue; name : JSValue; type : JSValue }.

Definition placeholder (label : string) : CueData :=
  {| id := JUndefined; number := JStr "--"; name := JStr label;
     type := JStr "unknown" |}.

(** The fields the workspace, query and command methods use.  The callback
    counter of the class is with the transport above, where
    [sendOSCMessage] is followed down to the callback map; here an awaited
    send is answered by the script of [Async.Env]. *)
Record t : Type := mkClient
  { currentWorkspaceId : option string;        (* [null] or a string *)
    connected : bool;
    selectedCueCache : option CueData;
    activeCueCache : option CueData;
    nextCueCache : option CueData;
    cacheTimeout : Z;
    lastSelectedUpdate : Z;
    lastActiveUpdate : Z;
    lastNextUpdate : Z }.

(** [constructor] *)
Definition new : t :=
  {| currentWorkspaceId := None; connected := false;
     selectedCueCache := None; activeCueCache := None; nextCueCache := None;
     cacheTimeout := 1000;
     lastSelectedUpdate := 0; lastActiveUpdate := 0; lastNextUpdate := 0 |}.

Definition set_currentWorkspaceId (w : option string) (c : t) : t :=
  {| currentWorkspaceId := w; connected := connected c;
     selectedCueCache := selectedCueCache c; activeCueCache := activeCueCache c;
     nextCueCache := nextCueCache c; cacheTimeout := cacheTimeout c;
     lastSelectedUpdate := lastSelectedUpdate c;
     lastActiveUpdate := lastActiveUpdate c; lastNextUpdate := lastNextUpdate c |}.

Definition set_selected (v : option CueData) (at_ : Z) (c : t) : t :=
  {| currentWorkspaceId := currentWorkspaceId c; connected := connected c;
     selectedCueCache := v; activeCueCache := activeCueCache c;
     nextCueCache := nextCueCache c; cacheTimeout := cacheTimeout c;
     lastSelectedUpdate := at_;
     lastActiveUpdate := lastActiveUpdate c; lastNextUpdate := lastNextUpdate c |}.

Definition set_active (v : option CueData) (at_ : Z) (c : t) : t :=
  {| currentWorkspaceId := currentWorkspaceId c; connected := connected c;
     selectedCueCache := selectedCueCache c; activeCueCache := v;
     nextCueCache := nextCueCache c; cacheTimeout := cacheTimeout c;
     lastSelectedUpdate := lastSelectedUpdate c;
     lastActiveUpdate := at_; lastNextUpdate := lastNextUpdate c |}.

Definition set_next (v : option CueData) (at_ : Z) (c : t) : t :=
  {| currentWorkspaceId := currentWorkspaceId c; connected := connected c;
     selectedCueCache := selectedCueCache c; activeCueCache := activeCueCache c;
     nextCueCache := v; cacheTimeout := cacheTimeout c;
     lastSelectedUpdate := lastSelectedUpdate c;
     lastActiveUpdate := lastActiveUpdate c; lastNextUpdate := at_ |}.

(** The ternary every method starts with:
    [this.currentWorkspaceId ? `/workspace/${id}` + path : path]. *)
Definition scoped (c : t) (path : string) : string :=
  match currentWorkspaceId c with
  | Some w => if (w =? "")%string then path
              else ("/workspace/" ++ w ++ path)%string
  | None => path
  end.

(** [cache && (now - lastUpdate) < limit] *)
Definition usable (cache : option CueData) (now lastUpdate limit : Z) : option CueData :=
  match cache with
  | Some v => if now - lastUpdate <? limit then Some v else None
  | None => None
  end.

(** The JSON array literal of key names sent with the selected-cue query. *)
Definition quoted (key : string) : string :=
  (String "034"%char key ++ String "034"%char "")%string.

Definition valuesForKeys : string :=
  ("[" ++ String.concat ","
     (List.map quoted
        ["number"; "uniqueID"; "flagged"; "listName"; "type"; "colorName";
         "name"; "armed"; "displayName"; "isBroken"; "isLoaded"; "isPaused";
         "isRunning"; "preWait"; "duration"; "postWait"; "translationX";
         "translationY"; "opacity"; "scaleX"; "scaleY"; "notes"; "levels"])
   ++ "]")%string.

(** Property of a value already known to be truthy. *)
Definition field (v : JSValue) (key : string) : JSValue :=
  match prop v key with Some x => x | None => JUndefined end.


(** [setActiveWorkspace(workspaceId)] *)
Definition setActiveWorkspace (workspaceId : option string) : M t bool :=
  try_catch
    (assign (set_currentWorkspaceId workspaceId) ;;
     match workspaceId with
     | Some w =>
         if (w =? "")%string then ret true
         else
           sendOSCMessage ("/workspace/" ++ w ++ "/connect")%string [] true ;;
           sendOSCMessage "/updates" [JNum 1] false ;;
           sendOSCMessage ("/workspace/" ++ w ++ "/cueLists")%string [] true ;;
           ret true
     | None => ret true
     end)
    (fun _ => ret false).

(** The cue object inside a selected-cue reply: the first item of an
    array, or the reply itself when it carries one of the identifying
    keys; [null] otherwise. *)
Definition pickSelected (result : JSValue) : JSValue :=
  if truthy result then
    match result with
    | JArr (first :: _) => first
    | _ =>
        if truthy (js_or (js_or (js_or (field result "uniqueID")
                                       (field result "number"))
                                (field result "name"))
                         (field result "listName"))
        then result else JNull
    end
  else JNull.

(** [{ id: cue.uniqueID || '', number: cue.number || '--',
       name: cue.listName || cue.displayName || cue.name || 'No selection',
       type: cue.type || 'unknown' }] *)
Definition describeSelected (selectedCue : JSValue) : CueData :=
  {| id := js_or (field selectedCue "uniqueID") (JStr "");
     number := js_or (field selectedCue "number") (JStr "--");
     name := js_or (js_or (js_or (field selectedCue "listName")
                                 (field selectedCue "displayName"))
                          (field selectedCue "name"))
                   (JStr "No selection");
     type := js_or (field selectedCue "type") (JStr "unknown") |}.

(** [getSelectedCue()] *)
Definition getSelectedCue : M t CueData :=
  try_catch
    (now <- Date_now ;;
     c <- this ;;
     match usable (selectedCueCache c) now (lastSelectedUpdate c) (cacheTimeout c) with
     | Some cached => ret cached
     | None =>
         result <- sendOSCMessage (scoped c "/cue/selected/valuesForKeys")
                     [JStr valuesForKeys] true ;;
         let selectedCue := pickSelected result in
         cueData <-
           (if truthy selectedCue then ret (describeSelected selectedCue)
            else
              logStringified result ;;
              ret (placeholder "No selection")) ;;
         assign (set_selected (Some cueData) now) ;;
         ret cueData
     end)
    (fun _ =>
       now <- Date_now ;;
       c <- this ;;
       match usable (selectedCueCache c) now (lastSelectedUpdate c) 10000 with
       | Some cached => ret cached
       | None => ret (placeholder "No selection")
       end).

(** The object literal built from a running or a next cue:
    [{ id: cue.uniqueID || '', number: cue.number || '--',
       name: cue.listName || cue.name || fallback, type: cue.type || 'unknown' }]. *)
Definition describe (uniqueID cue : JSValue) (fallback : string) : CueData :=
  {| id := js_or uniqueID (JStr "");
     number := js_or (field cue "number") (JStr "--");
     name := js_or (js_or (field cue "listName") (field cue "name")) (JStr fallback);
     type := js_or (field cue "type") (JStr "unknown") |}.

(** [cues.findIndex(cue => cue.uniqueID === id)], counting from [i];
    [Throw] when a [null] entry is reached before a match. *)
Fixpoint findIndex (wanted : JSValue) (cues : list JSValue) (i : nat)
  : Outcome (option nat) :=
  match cues with
  | [] => Return None
  | cue :: rest =>
      match prop cue "uniqueID" with
      | None => Throw "TypeError"
      | Some u => if strict_eq u wanted then Return (Some i)
                  else findIndex wanted rest (S i)
      end
  end.

Definition lift {A} (o : Outcome A) : M t A := fun s => (o, s).

(** [getNextCue()] *)
Definition getNextCue : M t CueData :=
  now <- Date_now ;;
  try_catch
    (c <- this ;;
     match usable (nextCueCache c) now (lastNextUpdate c) (cacheTimeout c) with
     | Some cached => ret cached
     | None =>
         selectedCue <- getSelectedCue ;;
         if negb (truthy (id selectedCue)) then
           let noCue := placeholder "No selection" in
           assign (set_next (Some noCue) now) ;;
           ret noCue
         else
           c <- this ;;
           cueLists <- sendOSCMessage (scoped c "/cueLists") [] true ;;
           found <-
             match cueLists with
             | JArr (mainCueList :: _) =>
                 cues <- read mainCueList "cues" ;;
                 match cues with
                 | JArr items =>
                     currentIndex <- lift (findIndex (id selectedCue) items 0) ;;
                     match currentIndex with
                     | Some i =>
                         if (i <? List.length items - 1)%nat then
                           let nextCue := nth (S i) items JUndefined in
                           uniqueID <- read nextCue "uniqueID" ;;
                           ret (Some (describe uniqueID nextCue "Next Cue"))
                         else ret None
                     | None => ret None
                     end
                 | _ => ret None
                 end
             | _ => ret None
             end ;;
           match found with
           | Some result =>
               assign (set_next (Some result) now) ;;
               ret result
           | None =>
               let endCue := placeholder "End of list" in
               assign (set_next (Some endCue) now) ;;
               ret endCue
           end
     end)
    (fun _ =>
       c <- this ;;
       match usable (nextCueCache c) now (lastNextUpdate c) 10000 with
       | Some cached => ret cached
       | None => ret (placeholder "No next cue")
       end).

(** [getActiveCue()] *)
Definition getActiveCue : M t CueData :=
  try_catch
    (now <- Date_now ;;
     c <- this ;;
     match usable (activeCueCache c) now (lastActiveUpdate c) (cacheTimeout c) with
     | Some cached => ret cached
     | None =>
         result <- sendOSCMessage (scoped c "/runningCues") [] true ;;
         cueData <-
           match result with
           | JArr (activeCue :: _) =>
               uniqueID <- read activeCue "uniqueID" ;;
               ret (describe uniqueID activeCue "Running Cue")
           | _ => ret (placeholder "No active cue")
           end ;;
         assign (set_active (Some cueData) now) ;;
         ret cueData
     end)
    (fun _ => ret (placeholder "Not available")).

(** [go()], [stop()], [panic()], [reset()], [next()], [previous()] share
    one body up to the path and the log text. *)
Definition command (path : string) : M t bool :=
  try_catch
    (c <- this ;;
     sendOSCMessage (scoped c path) [] false ;;
     ret true)
    (fun _ => ret false).

Definition go : M t bool := command "/go".
Definition stop : M t bool := command "/stop".
Definition panic : M t bool := command "/panic".
Definition reset : M t bool := command "/reset".
Definition next : M t bool := command "/select/next".
Definition previous : M t bool := command "/select/previous".

(** [invalidateCache()] *)
Definition invalidateCache : M t unit :=
  assign (fun c =>
    {| currentWorkspaceId := currentWorkspaceId c; connected := connected c;
       selectedCueCache := None; activeCueCache := None; nextCueCache := None;
       cacheTimeout := cacheTimeout c;
       lastSelectedUpdate := 0; lastActiveUpdate := 0; lastNextUpdate := 0 |}).

End QLabOSCClient.

(* ===================================================================== *)
(** * class QLabClientWrapper                                             *)
(* ===================================================================== *)

Module QLabClientWrapper.
Import Async.
Local Open Scope async_scope.
Local Open Scope Z_scope.

(** The fields the command methods use.  [immediates] counts the
    [setImmediate(() => this.updateCueInfo())] callbacks queued and not yet
    run. *)
Record t : Type := mkWrapper
  { client : QLabOSCClient.t;
    lastSelectedCueId : option string;       (* [null] until a selection is sent *)
    lastSelectionTime : Z;
    immediates : nat }.

(** [constructor] *)
Definition new : t :=
  {| client := QLabOSCClient.new; lastSelectedCueId := None;
     lastSelectionTime := 0; immediates := 0 |}.

Definition set_client (c : QLabOSCClient.t) (w : t) : t :=
  {| client := c; lastSelectedCueId := lastSelectedCueId w;
     lastSelectionTime := lastSelectionTime w; immediates := immediates w |}.

Definition set_lastSelection (cueId : string) (now : Z) (w : t) : t :=
  {| client := client w; lastSelectedCueId := Some cueId;
     lastSelectionTime := now; immediates := immediates w |}.

Definition setImmediate_updateCueInfo (w : t) : t :=
  {| client := client w; lastSelectedCueId := lastSelectedCueId w;
     lastSelectionTime := lastSelectionTime w; immediates := S (immediates w) |}.

(** [this.client.method()] *)
Definition on_client {A} (m : M QLabOSCClient.t A) : M t A :=
  within client set_client m.

(** The body shared by [play], [stop], [next] and [previous]: invalidate,
    forward, queue a refresh on success. *)
Definition invalidating (cmd : M QLabOSCClient.t bool) : M t bool :=
  try_catch
    (on_client QLabOSCClient.invalidateCache ;;
     success <- on_client cmd ;;
     if (success : bool) then
       assign setImmediate_updateCueInfo ;;
       ret true
     else ret false)
    (fun _ => ret false).

Definition play : M t bool := invalidating QLabOSCClient.go.
Definition stop : M t bool := invalidating QLabOSCClient.stop.
Definition next : M t bool := invalidating QLabOSCClient.next.
Definition previous : M t bool := invalidating QLabOSCClient.previous.

(** [panic()] *)
Definition panic : M t bool :=
  try_catch (on_client QLabOSCClient.panic) (fun _ => ret false).

(** [reset()] *)
Definition reset : M t bool :=
  try_catch
    (success <- on_client QLabOSCClient.reset ;;
     if (success : bool) then
       assign setImmediate_updateCueInfo ;;
       ret true
     else ret false)
    (fun _ => ret false).

(** [lastSelectedCueId === cueId] *)
Definition sameCue (last : option string) (cueId : string) : bool :=
  match last with
  | Some l => (l =? cueId)%string
  | None => false
  end.

(** The message [skipToCue] sends. *)
Definition selectMsg (c : QLabOSCClient.t) (cueId : string) : Sent :=
  {| sent_address := QLabOSCClient.scoped c ("/select_id/" ++ cueId)%string;
     sent_args := []; sent_expectReply := false |}.

(** [skipToCue(cueId)] *)
Definition skipToCue (cueId : string) : M t bool :=
  try_catch
    (now <- Date_now ;;
     w <- this ;;
     if sameCue (lastSelectedCueId w) cueId && (now - lastSelectionTime w <? 500)
     then ret true
     else
       sendOSCMessage
         (QLabOSCClient.scoped (client w) ("/select_id/" ++ cueId)%string) [] false ;;
       assign (set_lastSelection cueId now) ;;
       ret true)
    (fun _ => ret false).

(** The state-changing commands by name, as the routes dispatch them. *)
Inductive Command : Type :=
| Play | Stop | Next | Previous | Panic | Reset | SkipToCue (cueId : string).

Definition perform (cmd : Command) : M t bool :=
  match cmd with
  | Play => play
  | Stop => stop
  | Next => next
  | Previous => previous
  | Panic => panic
  | Reset => reset
  | SkipToCue cueId => skipToCue cueId
  end.

End QLabClientWrapper.

(* ===================================================================== *)
(** * Workspace pool, client registry and the routes that use them        *)
(* ===================================================================== *)

Module Server.
Local Open Scope Z_scope.

(** A workspace id as the routes pass it around: a string, or [null]
    ([None]) when discovery found no usable id. *)
Definition WorkspaceId : Type := option string.

(** [if (workspaceId)] *)
Definition present (w : WorkspaceId) : bool :=
  match w with
  | Some s => negb (s =? "")%string
  | None => false
  end.

(** A pool entry [{ client, refCount, clients, instanceInfo }].  The
    wrapper object is named by its construction number. *)
Record PoolEntry : Type := mkEntry
  { client : nat;
    refCount : Z;
    clients : JSSet string;
    instanceInfo : string }.

(** [connection.name] on a pool entry: the four properties the object
    literal defines, [undefined] for any other name. *)
Definition entryProp (e : PoolEntry) (name : string) : JSValue :=
  if (name =? "client")%string then JObj []
  else if (name =? "refCount")%string then JNum (refCount e)
  else if (name =? "clients")%string then JObj []
  else if (name =? "instanceInfo")%string then JObj []
  else JUndefined.

(** A registry object; only its [workspaceId] matters to the pool (the cue
    snapshots it also carries are left out). *)
Record ClientData : Type := mkData { workspaceId : WorkspaceId }.

(** The closures handed to [setTimeout] by the disconnect handler.  The
    first keeps a reference to the registry object it read. *)
Inductive Timer : Type :=
| DetachIfGone (socketId : string) (clientData : nat)
| ForgetIfPresent (socketId : string).

Record State : Type := mkState
  { workspacePool : JSMap WorkspaceId PoolEntry;
    clientConnections : JSMap string nat;     (* id -> object in [heap] *)
    heap : list ClientData;
    wrappers : nat;                           (* [new QLabClientWrapper] count *)
    cleanedUp : list nat;                     (* wrappers whose [cleanup()] ran *)
    now : Z;
    timers : list (Z * Timer) }.              (* pending, in firing order *)

Definition initial : State :=
  {| workspacePool := []; clientConnections := []; heap := [];
     wrappers := 0; cleanedUp := []; now := 0; timers := [] |}.

Definition set_pool (p : JSMap WorkspaceId PoolEntry) (st : State) : State :=
  {| workspacePool := p; clientConnections := clientConnections st;
     heap := heap st; wrappers := wrappers st; cleanedUp := cleanedUp st;
     now := now st; timers := timers st |}.

Definition set_connections (c : JSMap string nat) (st : State) : State :=
  {| workspacePool := workspacePool st; clientConnections := c;
     heap := heap st; wrappers := wrappers st; cleanedUp := cleanedUp st;
     now := now st; timers := timers st |}.

Definition set_heap (h : list ClientData) (st : State) : State :=
  {| workspacePool := workspacePool st; clientConnections := clientConnections st;
     heap := h; wrappers := wrappers st; cleanedUp := cleanedUp st;
     now := now st; timers := timers st |}.

Definition set_timers (t : Z) (q : list (Z * Timer)) (st : State) : State :=
  {| workspacePool := workspacePool st; clientConnections := clientConnections st;
     heap := heap st; wrappers := wrappers st; cleanedUp := cleanedUp st;
     now := t; timers := q |}.

(** The registry object of a client, if it has one. *)
Definition clientDataOf (id : string) (st : State) : option (nat * ClientData) :=
  match map_get id (clientConnections st) with
  | Some r => option_map (pair r) (nth_error (heap st) r)
  | None => None
  end.

(** [clientData.workspaceId = w] on the object at [r]. *)
Definition writeWorkspaceId (r : nat) (w : WorkspaceId) (st : State) : State :=
  match nth_error (heap st) r with
  | Some _ =>
      set_heap (firstn r (heap st) ++ {| workspaceId := w |} :: skipn (S r) (heap st)) st
  | None => st
  end.

(** [clientConnections.set(id, { workspaceId: w, ... })] with a new object. *)
Definition registerClient (id : string) (w : WorkspaceId) (st : State) : State :=
  set_connections (map_set id (List.length (heap st)) (clientConnections st))
    (set_heap (heap st ++ [{| workspaceId := w |}]) st).

(** [getOrCreateWorkspaceConnection(workspaceId, instanceInfo)], for a call
    during which no other request is served: the function awaits
    [client.initialize()] between its [workspacePool.get] and its
    [workspacePool.set], and [Overlapping] below has the two halves apart.
    [initializes] tells whether the new wrapper ends up connected without
    a connection error; otherwise the function raises ([None]). *)
Definition getOrCreateWorkspaceConnection (w : WorkspaceId) (info : string)
    (initializes : bool) (st : State) : option PoolEntry * State :=
  match map_get w (workspacePool st) with
  | Some poolEntry => (Some poolEntry, st)
  | None =>
      let made :=
        {| workspacePool := workspacePool st;
           clientConnections := clientConnections st; heap := heap st;
           wrappers := S (wrappers st); cleanedUp := cleanedUp st;
           now := now st; timers := timers st |} in
      if initializes then
        let poolEntry :=
          {| client := wrappers st; refCount := 0; clients := [];
             instanceInfo := info |} in
        (Some poolEntry, set_pool (map_set w poolEntry (workspacePool st)) made)
      else (None, made)
  end.

(** [addClientToWorkspace(clientId, workspaceId)] *)
Definition addClientToWorkspace (clientId : string) (w : WorkspaceId)
    (st : State) : State :=
  match map_get w (workspacePool st) with
  | Some poolEntry =>
      set_pool
        (map_set w {| client := client poolEntry;
                      refCount := refCount poolEntry + 1;
                      clients := set_add clientId (clients poolEntry);
                      instanceInfo := instanceInfo poolEntry |}
           (workspacePool st)) st
  | None => st
  end.

(** [removeClientFromWorkspace(clientId, workspaceId)] *)
Definition removeClientFromWorkspace (clientId : string) (w : WorkspaceId)
    (st : State) : State :=
  match map_get w (workspacePool st) with
  | Some poolEntry =>
      let poolEntry' :=
        {| client := client poolEntry;
           refCount := refCount poolEntry - 1;
           clients := set_delete clientId (clients poolEntry);
           instanceInfo := instanceInfo poolEntry |} in
      if refCount poolEntry' <=? 0 then
        {| workspacePool := map_delete w (workspacePool st);
           clientConnections := clientConnections st; heap := heap st;
           wrappers := wrappers st;
           cleanedUp := cleanedUp st ++ [client poolEntry'];
           now := now st; timers := timers st |}
      else set_pool (map_set w poolEntry' (workspacePool st)) st
  | None => st
  end.

(** [getWorkspaceClient(workspaceId)] *)
Definition getWorkspaceClient (w : WorkspaceId) (st : State) : option nat :=
  option_map client (map_get w (workspacePool st)).

(** [attach(sessionId, workspaceId)] as the connect routes do it:
    [getOrCreateWorkspaceConnection], then [addClientToWorkspace] unless the
    former raised. *)
Definition attach (clientId : string) (w : WorkspaceId) (info : string)
    (initializes : bool) (st : State) : State :=
  match getOrCreateWorkspaceConnection w info initializes st with
  | (Some _, st') => addClientToWorkspace clientId w st'
  | (None, st') => st'
  end.

(** [detach(sessionId, workspaceId)] *)
Definition detach (w : WorkspaceId) (st : State) (clientId : string) : State :=
  removeClientFromWorkspace clientId w st.

(** A run of attach requests, each with the reachability of the device at
    that moment, and a run of detaches. *)
Definition attachAll (w : WorkspaceId) (info : string) (st : State)
    (requests : list (string * bool)) : State :=
  fold_left (fun s r => attach (fst r) w info (snd r) s) requests st.

Definition detachAll (w : WorkspaceId) (st : State) (ids : list string) : State :=
  fold_left (detach w) ids st.

(** [setTimeout(f, delay)]: the new timer goes behind those due no later. *)
Fixpoint enqueue (due : Z) (f : Timer) (q : list (Z * Timer)) : list (Z * Timer) :=
  match q with
  | [] => [(due, f)]
  | (d, g) :: rest =>
      if d <=? due then (d, g) :: enqueue due f rest
      else (due, f) :: (d, g) :: rest
  end.

Definition setTimeout (f : Timer) (delay : Z) (st : State) : State :=
  set_timers (now st) (enqueue (now st + delay) f (timers st)) st.

(** [io.on('connection')]: a new registry object for the socket. *)
Definition onConnection (socketId : string) (st : State) : State :=
  registerClient socketId None st.

(** [socket.on('disconnect')] *)
Definition onDisconnect (socketId : string) (st : State) : State :=
  let st1 :=
    match clientDataOf socketId st with
    | Some (r, clientData) =>
        if present (workspaceId clientData)
        then setTimeout (DetachIfGone socketId r) 30000 st
        else st
    | None => st
    end in
  setTimeout (ForgetIfPresent socketId) 30000 st1.

(** The body of a timer callback. *)
Definition fire (f : Timer) (st : State) : State :=
  match f with
  | DetachIfGone socketId r =>
      let stillExists := map_has socketId (clientConnections st) in
      if negb stillExists then
        match nth_error (heap st) r with
        | Some clientData =>
            removeClientFromWorkspace socketId (workspaceId clientData) st
        | None => st
        end
      else st
  | ForgetIfPresent socketId =>
      let stillExists := map_has socketId (clientConnections st) in
      if stillExists
      then set_connections (map_delete socketId (clientConnections st)) st
      else st
  end.

(** Let the clock reach [t]: every timer due by then runs, in queue order. *)
Fixpoint runDue (t : Z) (q : list (Z * Timer)) (st : State) : State :=
  match q with
  | [] => set_timers t [] st
  | (due, f) :: rest =>
      if due <=? t
      then runDue t rest (fire f (set_timers due rest st))
      else set_timers t q st
  end.

Definition advanceTo (t : Z) (st : State) : State := runDue t (timers st) st.

(** The steps the connect routes share once the workspace id is known
    ([/api/connect_direct] uses ["default"], [/api/connect/:instanceId] the
    id found by discovery): registry object, implicit detach, pool lookup
    or creation, attach.  Answers the route's [success]. *)
Definition connectShared (clientId : string) (w : WorkspaceId) (info : string)
    (initializes : bool) (st : State) : bool * State :=
  let st1 :=
    match clientDataOf clientId st with
    | Some _ => st
    | None => registerClient clientId None st
    end in
  match clientDataOf clientId st1 with
  | Some (r, clientData) =>
      let st2 :=
        if present (workspaceId clientData)
        then writeWorkspaceId r None
               (removeClientFromWorkspace clientId (workspaceId clientData) st1)
        else st1 in
      match getOrCreateWorkspaceConnection w info initializes st2 with
      | (Some _, st3) =>
          (true, writeWorkspaceId r w (addClientToWorkspace clientId w st3))
      | (None, st3) => (false, st3)
      end
  | None => (false, st1)
  end.

(** [POST /api/connect/:instanceId/:workspaceId]: this route builds its own
    wrapper on every call and pools it only when the workspace has no
    entry yet.  [portReady = false]: the 5 s wait for the OSC port ran out
    before any wrapper was made. *)
Definition connectWorkspace (clientId : string) (w : WorkspaceId) (info : string)
    (portReady initializes : bool) (st : State) : bool * State :=
  let st1 :=
    match clientDataOf clientId st with
    | Some _ => st
    | None => registerClient clientId None st
    end in
  match clientDataOf clientId st1 with
  | Some (r, clientData) =>
      let st2 :=
        if present (workspaceId clientData)
        then writeWorkspaceId r None
               (removeClientFromWorkspace clientId (workspaceId clientData) st1)
        else st1 in
      if negb portReady then (false, st2) else
      let clientWrapper := wrappers st2 in
      let st3 :=
        {| workspacePool := workspacePool st2;
           clientConnections := clientConnections st2; heap := heap st2;
           wrappers := S (wrappers st2); cleanedUp := cleanedUp st2;
           now := now st2; timers := timers st2 |} in
      if initializes then
        let st4 :=
          match map_get w (workspacePool st3) with
          | Some _ => st3
          | None =>
              set_pool (map_set w {| client := clientWrapper; refCount := 0;
                                     clients := []; instanceInfo := info |}
                          (workspacePool st3)) st3
          end in
        (true, writeWorkspaceId r w (addClientToWorkspace clientId w st4))
      else (false, st3)
  | None => (false, st1)
  end.

(** [POST /api/disconnect] *)
Definition apiDisconnect (clientId : string) (st : State) : State :=
  match clientDataOf clientId st with
  | Some (r, clientData) =>
      writeWorkspaceId r None
        (if present (workspaceId clientData)
         then removeClientFromWorkspace clientId (workspaceId clientData) st
         else st)
  | None => st
  end.

(** The workspace a client is attached to: the routes' guard
    [!clientData || !clientData.workspaceId] is [None]. *)
Definition attachedTo (clientId : string) (st : State) : option WorkspaceId :=
  match clientDataOf clientId st with
  | Some (_, clientData) =>
      if present (workspaceId clientData) then Some (workspaceId clientData) else None
  | None => None
  end.

(** The loop test of the restore branch of [GET /api/cues]:
    [connection.client && connection.refs > 0]. *)
Definition restorable (entry : WorkspaceId * PoolEntry) : bool :=
  truthy (entryProp (snd entry) "client") && gt_zero (entryProp (snd entry) "refs").

(** [GET /api/cues].  [fetched] is what [client.getAllCues()] gives when it
    is reached ([None]: it raised).  Answers the [cues] of the response. *)
Definition apiCues (clientId : string) (fetched : option (list JSValue))
    (st : State) : list JSValue * State :=
  let attached := attachedTo clientId in
  let st1 :=
    match attached st with
    | Some _ => st
    | None =>
        match find restorable (workspacePool st) with
        | Some (w, _) => addClientToWorkspace clientId w (registerClient clientId w st)
        | None => st
        end
    end in
  match attached st1 with
  | None => ([], st1)
  | Some w =>
      match getWorkspaceClient w st1 with
      | None => ([], st1)
      | Some _ =>
          match fetched with
          | Some cues => (cues, st1)
          | None => ([], st1)
          end
      end
  end.

End Server.


(* ===================================================================== *)
(** * Sample states                                                       *)
(* ===================================================================== *)

(** A cue and a client whose three caches were filled with it at 3000 ms. *)
Definition runningCue : QLabOSCClient.CueData :=
  {| QLabOSCClient.id := JStr "A"; QLabOSCClient.number := JStr "1";
     QLabOSCClient.name := JStr "Overture"; QLabOSCClient.type := JStr "Audio" |}.

Definition warmClient : QLabOSCClient.t :=
  QLabOSCClient.set_next (Some runningCue) 3000
    (QLabOSCClient.set_active (Some runningCue) 3000
       (QLabOSCClient.set_selected (Some runningCue) 3000 QLabOSCClient.new)).

Definition warmWrapper : QLabClientWrapper.t :=
  QLabClientWrapper.set_client warmClient QLabClientWrapper.new.

(** A device that takes every message and never answers, at 1000 ms. *)
Definition idle : Async.Env :=
  {| Async.clock := 1000; Async.outbox := []; Async.script := [] |}.

(** Cue [B] is selected and is the last of the two cues of the main list. *)
Definition lastCueSelected : Async.Env :=
  {| Async.clock := 5000; Async.outbox := [];
     Async.script :=
       [Async.Replied 20 (JObj [("uniqueID", JStr "B"); ("number", JStr "2")]);
        Async.Replied 25
          (JArr [JObj [("cues", JArr [JObj [("uniqueID", JStr "A")];
                                      JObj [("uniqueID", JStr "B")]])]])] |}.


(** Session [s1] has connected and attached to workspace [ws1]. *)
Definition oneAttached : Server.State :=
  snd (Server.connectShared "s1" (Some "ws1") "qlab" true
         (Server.onConnection "s1" Server.initial)).

(* ===================================================================== *)
(** * Proof tactics                                                       *)
(* ===================================================================== *)

(** Open the monad's plumbing in a goal about a method call. *)
Ltac async_unfold :=
  unfold Async.try_catch, Async.bind, Async.Date_now, Async.this,
    Async.assign, Async.ret;
  cbn [fst snd].



(* ===================================================================== *)
(** * The server as a run of requests                                     *)
(* ===================================================================== *)

Module Routes.
Import Server.
Local Open Scope Z_scope.

(** What reaches the pool and the registry from outside: socket events,
    the connect and disconnect routes, the cue-list route, and the clock
    moving on (which lets due timers run). *)
Inductive Request : Type :=
| SocketConnects (socketId : string)
| SocketDisconnects (socketId : string)
| PostConnect (clientId : string) (w : WorkspaceId) (info : string)
              (initializes : bool)
| PostConnectWorkspace (clientId : string) (w : WorkspaceId) (info : string)
                       (portReady initializes : bool)
| PostDisconnect (clientId : string)
| GetCues (clientId : string) (fetched : option (list JSValue))
| ClockReaches (t : Z).

Definition serve (st : State) (r : Request) : State :=
  match r with
  | SocketConnects socketId => onConnection socketId st
  | SocketDisconnects socketId => onDisconnect socketId st
  | PostConnect clientId w info initializes =>
      snd (connectShared clientId w info initializes st)
  | PostConnectWorkspace clientId w info portReady initializes =>
      snd (connectWorkspace clientId w info portReady initializes st)
  | PostDisconnect clientId => apiDisconnect clientId st
  | GetCues clientId fetched => snd (apiCues clientId fetched st)
  | ClockReaches t => advanceTo t st
  end.

Definition serveAll (st : State) (requests : list Request) : State :=
  fold_left serve requests st.

(** What the pool keeps true between requests: one entry per key, every
    entry counted at least once, every pooled wrapper a distinct one that
    was constructed and has not been cleaned up. *)
Definition poolSound (st : State) : Prop :=
  NoDup (List.map fst (workspacePool st))
  /\ NoDup (List.map (fun entry => client (snd entry)) (workspacePool st))
  /\ (forall w e, In (w, e) (workspacePool st) ->
        1 <= refCount e
        /\ (client e < wrappers st)%nat
        /\ ~ In (client e) (cleanedUp st))
  /\ (forall c, In c (cleanedUp st) -> (c < wrappers st)%nat).

(** Steps that leave the pool, the wrapper count and the cleanup log alone. *)
Definition samePool (st st' : State) : Prop :=
  workspacePool st' = workspacePool st
  /\ wrappers st' = wrappers st
  /\ cleanedUp st' = cleanedUp st.

(** Steps that leave the registry (the id map and its objects) alone. *)
Definition sameRegistry (st st' : State) : Prop :=
  clientConnections st' = clientConnections st /\ heap st' = heap st.

(** Two sessions attach to one workspace and the first leaves again. *)
Definition sampleRun : list Request :=
  [SocketConnects "s1"; PostConnect "s1" (Some "ws1") "qlab" true;
   SocketConnects "s2"; PostConnect "s2" (Some "ws1") "qlab" true;
   PostDisconnect "s1"].

End Routes.

(* ===================================================================== *)
(** * Attaches that overlap                                               *)
(* ===================================================================== *)

(** [getOrCreateWorkspaceConnection] is an [async] function: between its
    [workspacePool.get] and its [workspacePool.set] it awaits
    [client.initialize()], which waits for the device, and other requests
    are served in the meantime.  Here the function is in its two halves,
    and a run is a list of turns of the event loop. *)
Module Overlapping.
Import Server.
Local Open Scope Z_scope.

(** Where a call stands after its first half: with the pool entry it found,
    or awaiting the wrapper it has just made. *)
Inductive Awaiting : Type :=
| Found (poolEntry : PoolEntry)
| Initializing (wrapper : nat).

(** Up to [await client.initialize()]: the lookup and, on a miss,
    [new QLabClientWrapper(workspaceId)]. *)
Definition lookup (w : WorkspaceId) (st : State) : Awaiting * State :=
  match map_get w (workspacePool st) with
  | Some poolEntry => (Found poolEntry, st)
  | None =>
      (Initializing (wrappers st),
       {| workspacePool := workspacePool st;
          clientConnections := clientConnections st; heap := heap st;
          wrappers := S (wrappers st); cleanedUp := cleanedUp st;
          now := now st; timers := timers st |})
  end.

(** From the point where [initialize] has settled: the test of the
    wrapper, then [workspacePool.set], whatever the pool holds by then. *)
Definition resume (w : WorkspaceId) (info : string) (wrapper : nat)
    (initializes : bool) (st : State) : option PoolEntry * State :=
  if initializes then
    let poolEntry :=
      {| client := wrapper; refCount := 0; clients := [];
         instanceInfo := info |} in
    (Some poolEntry, set_pool (map_set w poolEntry (workspacePool st)) st)
  else (None, st).

(** A turn of the event loop: an attach request arrives and runs up to its
    await (or to its end, when the pool has the entry), or the
    [initialize] a request awaits settles and the request runs on, through
    [addClientToWorkspace]. *)
Inductive Turn : Type :=
| Begins (clientId : string)
| Settles (clientId : string) (initializes : bool).

(** The server and the wrappers the suspended requests await, by client. *)
Record Run : Type := mkRun
  { server : State; awaiting : JSMap string nat }.

Definition turn (w : WorkspaceId) (info : string) (s : Run) (t : Turn) : Run :=
  match t with
  | Begins clientId =>
      match lookup w (server s) with
      | (Found _, st) =>
          {| server := addClientToWorkspace clientId w st; awaiting := awaiting s |}
      | (Initializing wrapper, st) =>
          {| server := st; awaiting := map_set clientId wrapper (awaiting s) |}
      end
  | Settles clientId initializes =>
      match map_get clientId (awaiting s) with
      | Some wrapper =>
          {| server :=
               match resume w info wrapper initializes (server s) with
               | (Some _, st) => addClientToWorkspace clientId w st
               | (None, st) => st
               end;
             awaiting := map_delete clientId (awaiting s) |}
      | None => s
      end
  end.

Definition schedule (w : WorkspaceId) (info : string) (st : State)
    (turns : list Turn) : Run :=
  fold_left (turn w info) turns {| server := st; awaiting := [] |}.


(** Two requests that both begin before either settles. *)
Definition overlapped (a b : string) : list Turn :=
  [Begins a; Begins b; Settles a true; Settles b true].

End Overlapping.

(* ===================================================================== *)
(** * The protocol client: workspaces and the cue list                    *)
(* ===================================================================== *)

(** The methods of [QLabOSCClient] that list workspaces and cues.  They are
    entered with the OSC port open: the polling loop that waits for
    [this.oscPort] is passed at once. *)
Module QLabOSCClientLists.
Import Async.
Local Open Scope async_scope.

Definition set_connected (b : bool) (c : QLabOSCClient.t) : QLabOSCClient.t :=
  {| QLabOSCClient.currentWorkspaceId := QLabOSCClient.currentWorkspaceId c;
     QLabOSCClient.connected := b;
     QLabOSCClient.selectedCueCache := QLabOSCClient.selectedCueCache c;
     QLabOSCClient.activeCueCache := QLabOSCClient.activeCueCache c;
     QLabOSCClient.nextCueCache := QLabOSCClient.nextCueCache c;
     QLabOSCClient.cacheTimeout := QLabOSCClient.cacheTimeout c;
     QLabOSCClient.lastSelectedUpdate := QLabOSCClient.lastSelectedUpdate c;
     QLabOSCClient.lastActiveUpdate := QLabOSCClient.lastActiveUpdate c;
     QLabOSCClient.lastNextUpdate := QLabOSCClient.lastNextUpdate c |}.

(** [isRunning()] *)
Definition isRunning : M QLabOSCClient.t bool :=
  try_catch
    (try_catch
       (sendOSCMessage "/version" [] false ;;
        assign (set_connected true) ;;
        ret true)
       (fun _ => assign (set_connected false) ;; ret false))
    (fun _ => assign (set_connected false) ;; ret false).

(** An item of the list [getWorkspaces] answers with. *)
Record Workspace : Type := mkWorkspace
  { name : JSValue; id : JSValue; hasPasscode : JSValue }.

Definition defaultWorkspace : Workspace :=
  {| name := JStr "QLab (Default)"; id := JStr ""; hasPasscode := JBool false |}.

(** [result.map(ws => ({ name: ws.displayName || `QLab Workspace`,
                         id: ws.uniqueID || "",
                         hasPasscode: ws.hasPasscode || false }))] *)
Fixpoint describeWorkspaces (result : list JSValue) : Outcome (list Workspace) :=
  match result with
  | [] => Return []
  | ws :: rest =>
      match prop ws "displayName", prop ws "uniqueID", prop ws "hasPasscode" with
      | Some displayName, Some uniqueID, Some passcode =>
          match describeWorkspaces rest with
          | Return others =>
              Return ({| name := js_or displayName (JStr "QLab Workspace");
                         id := js_or uniqueID (JStr "");
                         hasPasscode := js_or passcode (JBool false) |} :: others)
          | Throw e => Throw e
          end
      | _, _, _ => Throw "TypeError"
      end
  end.

(** [getWorkspaces()] *)
Definition getWorkspaces : M QLabOSCClient.t (list Workspace) :=
  try_catch
    (listed <-
       try_catch
         (result <- sendOSCMessage "/workspaces" [] true ;;
          match result with
          | JArr (first :: rest) =>
              workspaces <- QLabOSCClient.lift (describeWorkspaces (first :: rest)) ;;
              ret (Some workspaces)
          | _ => ret None
          end)
         (fun _ => ret None) ;;
     match listed with
     | Some workspaces => ret workspaces
     | None => ret [defaultWorkspace]
     end)
    (fun _ => ret [defaultWorkspace]).

(** An item of the flat cue list.  [name] is the template
    [`${prefix}${originalName}`], kept as its two parts; the placeholders
    have an empty prefix, no [originalIndex] and a [type]. *)
Record Entry : Type := mkEntry
  { cue_id : JSValue;
    number : JSValue;
    prefix : string;
    originalName : JSValue;
    originalIndex : option nat;
    depth : nat;
    type : option string }.

(** ["--> ".repeat(depth)] *)
Fixpoint arrows (depth : nat) : string :=
  match depth with
  | O => ""
  | S d => "--> " ++ arrows d
  end.

(** The object [processCueList] pushes for the cue at index [i]. *)
Definition entryOf (depth i : nat) (cue : JSValue) : Entry :=
  let label := js_or (js_or (QLabOSCClient.field cue "listName")
                            (QLabOSCClient.field cue "displayName"))
                     (JStr "Unnamed") in
  {| cue_id := QLabOSCClient.field cue "uniqueID";
     number := js_or (QLabOSCClient.field cue "number") (JStr "--");
     prefix := arrows depth;
     originalName := label;
     originalIndex := Some i;
     depth := depth;
     type := None |}.

(** The loop over a string: its items are the one-character strings. *)
Fixpoint characters (depth : nat) (s : string) (i : nat) : list Entry :=
  match s with
  | EmptyString => []
  | String ch rest =>
      entryOf depth i (JStr (String ch "")) :: characters depth rest (S i)
  end.

Definition noCues : Entry :=
  {| cue_id := JStr "none"; number := JStr "--"; prefix := "";
     originalName := JStr "No cues available"; originalIndex := None;
     depth := 0; type := Some "info" |}.

Definition errorCues : Entry :=
  {| cue_id := JStr "error"; number := JStr "--"; prefix := "";
     originalName := JStr "Error loading cues"; originalIndex := None;
     depth := 0; type := Some "error" |}.

Section CueLists.

(** What the loop of [processCueList] makes of a plain object handed to it
    as the list, at a given depth: its [length] and index properties go
    through JavaScript's number conversion, which is left open here.  The
    replies of the device hold arrays. *)
Variable objectAsList : list (string * JSValue) -> nat -> Outcome (list Entry).

(** One turn of the loop of [processCueList(cueList, cues, depth)]: the
    entries pushed for [cue = cueList[i]] and, through the recursive call,
    for what is below it.  [Throw] is the [TypeError] of a [null] or
    [undefined] item; the entries pushed before it are lost with the
    array, which [getAllCues] drops in its [catch]. *)
Fixpoint processCue (depth i : nat) (cue : JSValue) {struct cue}
  : Outcome (list Entry) :=
  match cue with
  | JUndefined | JNull => Throw "TypeError"
  | JObj fields =>
      match
        (fix cuesOf (fs : list (string * JSValue)) : Outcome (list Entry) :=
           match fs with
           | [] => Return []
           | (k, v) :: rest =>
               if (k =? "cues")%string then
                 match v with
                 | JArr items =>
                     (fix each (l : list JSValue) (j : nat) : Outcome (list Entry) :=
                        match l with
                        | [] => Return []
                        | c :: l' =>
                            match processCue (S depth) j c with
                            | Return es =>
                                match each l' (S j) with
                                | Return es' => Return (es ++ es')
                                | Throw e => Throw e
                                end
                            | Throw e => Throw e
                            end
                        end) items O
                 | JStr s => Return (characters (S depth) s O)
                 | JObj lengthy => objectAsList lengthy (S depth)
                 | JUndefined | JNull | JBool _ | JNum _ => Return []
                 end
               else cuesOf rest
           end) fields
      with
      | Return below => Return (entryOf depth i cue :: below)
      | Throw e => Throw e
      end
  | JBool _ | JNum _ | JStr _ | JArr _ => Return [entryOf depth i cue]
  end.

(** The loop over an array, from index [i]. *)
Fixpoint processItems (depth : nat) (items : list JSValue) (i : nat)
  : Outcome (list Entry) :=
  match items with
  | [] => Return []
  | cue :: rest =>
      match processCue depth i cue with
      | Return es =>
          match processItems depth rest (S i) with
          | Return es' => Return (es ++ es')
          | Throw e => Throw e
          end
      | Throw e => Throw e
      end
  end.

(** [processCueList(cueList, cues, depth)], as the entries it adds to
    [cues].  Reading [.length] of [null] or [undefined] raises; a number or
    a boolean has no [length] and the loop is not entered. *)
Definition processCueList (cueList : JSValue) (depth : nat) : Outcome (list Entry) :=
  match cueList with
  | JUndefined | JNull => Throw "TypeError"
  | JBool _ | JNum _ => Return []
  | JStr s => Return (characters depth s O)
  | JArr items => processItems depth items O
  | JObj fields => objectAsList fields depth
  end.

(** [if (cue.cues && cue.cues.length > 0) this.processCueList(cue.cues, cues, depth + 1)] *)
Definition below (depth : nat) (cues : JSValue) : Outcome (list Entry) :=
  if truthy cues then processCueList cues (S depth) else Return [].

(** [result.forEach(cueList => { this.processCueList(cueList.cues, cues, 0) })] *)
Fixpoint forEachCueList (result : list JSValue) : Outcome (list Entry) :=
  match result with
  | [] => Return []
  | cueList :: rest =>
      match prop cueList "cues" with
      | Some cues =>
          match processCueList cues 0 with
          | Return es =>
              match forEachCueList rest with
              | Return es' => Return (es ++ es')
              | Throw e => Throw e
              end
          | Throw e => Throw e
          end
      | None => Throw "TypeError"
      end
  end.

(** [getAllCues()] *)
Definition getAllCues : M QLabOSCClient.t (list Entry) :=
  try_catch
    (c <- this ;;
     result <- sendOSCMessage (QLabOSCClient.scoped c "/cueLists") [] true ;;
     cues <-
       match result with
       | JArr (first :: rest) =>
           if truthy first
              && strict_eq (QLabOSCClient.field first "type") (JStr "Cue List")
           then QLabOSCClient.lift (processCueList result 0)
           else if truthy first
                   && truthy (QLabOSCClient.field first "cues")
                   && isArray (QLabOSCClient.field first "cues")
           then QLabOSCClient.lift (forEachCueList (first :: rest))
           else QLabOSCClient.lift (processCueList result 0)
       | _ =>
           children <- sendOSCMessage (QLabOSCClient.scoped c "/cue_id/1/children") [] true ;;
           match children with
           | JArr _ => QLabOSCClient.lift (processCueList children 0)
           | _ => ret []
           end
       end ;;
     match cues with
     | [] => ret [noCues]
     | _ :: _ => ret cues
     end)
    (fun _ => ret [errorCues]).

End CueLists.

(** A cue-list reply as the device sends it: no item is [null] or
    [undefined], and what a cue has under [cues] is not a plain object. *)
Fixpoint wellFormed (cue : JSValue) : bool :=
  match cue with
  | JUndefined | JNull => false
  | JObj fields =>
      (fix inFields (fs : list (string * JSValue)) : bool :=
         match fs with
         | [] => true
         | (k, v) :: rest =>
             if (k =? "cues")%string then
               match v with
               | JArr items =>
                   (fix all (l : list JSValue) : bool :=
                      match l with
                      | [] => true
                      | c :: l' => wellFormed c && all l'
                      end) items
               | JObj _ => false
               | _ => true
               end
             else inFields rest
         end) fields
  | _ => true
  end.

(** The cues of a tree: the cue itself and those below it. *)
Fixpoint cueCount (cue : JSValue) : nat :=
  match cue with
  | JObj fields =>
      S ((fix inFields (fs : list (string * JSValue)) : nat :=
            match fs with
            | [] => O
            | (k, v) :: rest =>
                if (k =? "cues")%string then
                  match v with
                  | JArr items =>
                      (fix sum (l : list JSValue) : nat :=
                         match l with
                         | [] => O
                         | c :: l' => (cueCount c + sum l')%nat
                         end) items
                  | JStr s => String.length s
                  | _ => O
                  end
                else inFields rest
            end) fields)
  | _ => 1%nat
  end.

(** An entry at depth [d] or deeper whose name is indented by its depth. *)
Definition indented (d : nat) (e : Entry) : Prop :=
  (d <= depth e)%nat /\ prefix e = arrows (depth e) /\ type e = None.

(** The entries of a flat list that are at depth [d]. *)
Definition atDepth (d : nat) (es : list Entry) : list Entry :=
  filter (fun e => (depth e =? d)%nat) es.

(** The entries of the items of an array themselves, numbered from [i]. *)
Definition itemsOf (d i : nat) (items : list JSValue) : list Entry :=
  List.map (fun p => entryOf d (fst p) (snd p))
    (combine (seq i (List.length items)) items).

(** A group with two cues, followed by a single cue. *)
Definition sampleCueList : list JSValue :=
  [JObj [("uniqueID", JStr "G"); ("listName", JStr "Scene 1");
         ("cues", JArr [JObj [("uniqueID", JStr "A"); ("number", JStr "1")];
                        JObj [("uniqueID", JStr "B"); ("number", JStr "2")]])];
   JObj [("uniqueID", JStr "C"); ("number", JStr "3")]].

(** [getCueInfo()]: the eight-item array, or [["error", message]]. *)
Definition getCueInfo : M QLabOSCClient.t JSValue :=
  try_catch
    (selected <- QLabOSCClient.getSelectedCue ;;
     active <- QLabOSCClient.getActiveCue ;;
     ret (JArr [js_or (QLabOSCClient.id selected) (JStr "");
                js_or (QLabOSCClient.number selected) (JStr "");
                js_or (QLabOSCClient.name selected) (JStr "");
                js_or (QLabOSCClient.type selected) (JStr "");
                JStr ""; JStr ""; JStr ""; JStr ""]))
    (fun e => ret (JArr [JStr "error"; JStr e])).

End QLabOSCClientLists.

(* ===================================================================== *)
(** * The client wrapper: cue mirror and cue-list caches                  *)
(* ===================================================================== *)

(** The fields of [QLabClientWrapper] behind [initialize], [updateCueInfo]
    and [getAllCues], around the fields of the command methods ([base]).
    The module-level [globalCueCache] is passed to [getAllCues] and handed
    back by it. *)
Module QLabClientWrapperState.
Import Async.
Local Open Scope async_scope.
Local Open Scope Z_scope.

Record t : Type := mkWrapper
  { base : QLabClientWrapper.t;
    currentSelectedCue : QLabOSCClient.CueData;
    nextCue : QLabOSCClient.CueData;
    workspaceId : string;
    connected : bool;
    connectionError : option string;          (* [null] or a message *)
    cacheTimeout : Z;
    lastCueUpdate : Z;
    cachedCues : list QLabOSCClientLists.Entry;
    lastCuesUpdate : Z }.

(** [{ number: "N/A", name: "Unnamed" }] *)
Definition unnamed : QLabOSCClient.CueData :=
  {| QLabOSCClient.id := JUndefined; QLabOSCClient.number := JStr "N/A";
     QLabOSCClient.name := JStr "Unnamed"; QLabOSCClient.type := JUndefined |}.

(** [constructor(workspaceId = null)], without the call of [initialize] it
    ends with: that call is made again, and awaited, by whoever makes the
    wrapper. *)
Definition new (workspaceId : option string) : t :=
  {| base := QLabClientWrapper.new;
     currentSelectedCue := unnamed;
     nextCue := unnamed;
     workspaceId := match workspaceId with
                    | Some w => if (w =? "")%string then "default" else w
                    | None => "default"
                    end;
     connected := false;
     connectionError := None;
     cacheTimeout := 3000;
     lastCueUpdate := 0;
     cachedCues := [];
     lastCuesUpdate := 0 |}.

Definition set_base (b : QLabClientWrapper.t) (w : t) : t :=
  {| base := b; currentSelectedCue := currentSelectedCue w; nextCue := nextCue w;
     workspaceId := workspaceId w; connected := connected w;
     connectionError := connectionError w; cacheTimeout := cacheTimeout w;
     lastCueUpdate := lastCueUpdate w; cachedCues := cachedCues w;
     lastCuesUpdate := lastCuesUpdate w |}.

Definition set_cues (current next : QLabOSCClient.CueData) (w : t) : t :=
  {| base := base w; currentSelectedCue := current; nextCue := next;
     workspaceId := workspaceId w; connected := connected w;
     connectionError := connectionError w; cacheTimeout := cacheTimeout w;
     lastCueUpdate := lastCueUpdate w; cachedCues := cachedCues w;
     lastCuesUpdate := lastCuesUpdate w |}.

Definition set_lastCueUpdate (now : Z) (w : t) : t :=
  {| base := base w; currentSelectedCue := currentSelectedCue w; nextCue := nextCue w;
     workspaceId := workspaceId w; connected := connected w;
     connectionError := connectionError w; cacheTimeout := cacheTimeout w;
     lastCueUpdate := now; cachedCues := cachedCues w;
     lastCuesUpdate := lastCuesUpdate w |}.

Definition set_connected (b : bool) (w : t) : t :=
  {| base := base w; currentSelectedCue := currentSelectedCue w; nextCue := nextCue w;
     workspaceId := workspaceId w; connected := b;
     connectionError := connectionError w; cacheTimeout := cacheTimeout w;
     lastCueUpdate := lastCueUpdate w; cachedCues := cachedCues w;
     lastCuesUpdate := lastCuesUpdate w |}.

Definition set_connectionError (e : option string) (w : t) : t :=
  {| base := base w; currentSelectedCue := currentSelectedCue w; nextCue := nextCue w;
     workspaceId := workspaceId w; connected := connected w;
     connectionError := e; cacheTimeout := cacheTimeout w;
     lastCueUpdate := lastCueUpdate w; cachedCues := cachedCues w;
     lastCuesUpdate := lastCuesUpdate w |}.

Definition set_cachedCues (cues : list QLabOSCClientLists.Entry) (now : Z) (w : t) : t :=
  {| base := base w; currentSelectedCue := currentSelectedCue w; nextCue := nextCue w;
     workspaceId := workspaceId w; connected := connected w;
     connectionError := connectionError w; cacheTimeout := cacheTimeout w;
     lastCueUpdate := lastCueUpdate w; cachedCues := cues;
     lastCuesUpdate := now |}.

(** [this.client] *)
Definition client (w : t) : QLabOSCClient.t := QLabClientWrapper.client (base w).

Definition set_client (c : QLabOSCClient.t) (w : t) : t :=
  set_base (QLabClientWrapper.set_client c (base w)) w.

(** [this.client.method()] *)
Definition on_client {A} (m : M QLabOSCClient.t A) : M t A :=
  within client set_client m.

(** The cue objects [updateCueInfo] writes. *)
Definition selectedFrom (result : list JSValue) : QLabOSCClient.CueData :=
  {| QLabOSCClient.id := nth 0 result JUndefined;
     QLabOSCClient.number := js_or (nth 1 result JUndefined) (JStr "--");
     QLabOSCClient.name := js_or (nth 2 result JUndefined) (JStr "No selection");
     QLabOSCClient.type := js_or (nth 3 result JUndefined) (JStr "unknown") |}.

Definition nextFrom (result : list JSValue) : QLabOSCClient.CueData :=
  {| QLabOSCClient.id := nth 4 result JUndefined;
     QLabOSCClient.number := js_or (nth 5 result JUndefined) (JStr "--");
     QLabOSCClient.name := js_or (nth 6 result JUndefined) (JStr "No next cue");
     QLabOSCClient.type := js_or (nth 7 result JUndefined) (JStr "unknown") |}.

(** [{ number: "ERR", name: `Error: ${error.message.substring(0, 30)}`, type: "error" }]
    and [{ number: "ERR", name: "Error", type: "error" }] *)
Definition errorSelected (message : string) : QLabOSCClient.CueData :=
  {| QLabOSCClient.id := JUndefined; QLabOSCClient.number := JStr "ERR";
     QLabOSCClient.name := JStr ("Error: " ++ substring 0 30 message);
     QLabOSCClient.type := JStr "error" |}.

Definition errorNext : QLabOSCClient.CueData :=
  {| QLabOSCClient.id := JUndefined; QLabOSCClient.number := JStr "ERR";
     QLabOSCClient.name := JStr "Error"; QLabOSCClient.type := JStr "error" |}.

Section Mirror.

(** [String(v)], the message of [new Error(v)]. *)
Variable String_ : JSValue -> string.

(** [updateCueInfo()] *)
Definition updateCueInfo : M t unit :=
  now <- Date_now ;;
  w <- this ;;
  if now - lastCueUpdate w <? cacheTimeout w then ret tt
  else
    try_catch
      (result <- on_client QLabOSCClientLists.getCueInfo ;;
       match result with
       | JArr items =>
           if (8 <=? List.length items)%nat then
             assign (set_cues (selectedFrom items) (nextFrom items))
           else if strict_eq (nth 0 items JUndefined) (JStr "error") then
             throw (String_ (nth 1 items JUndefined))
           else
             assign (set_cues (QLabOSCClient.placeholder "No selection")
                              (QLabOSCClient.placeholder "No next cue"))
       | _ =>
           assign (set_cues (QLabOSCClient.placeholder "No selection")
                            (QLabOSCClient.placeholder "No next cue"))
       end ;;
       assign (set_lastCueUpdate now))
      (fun message => assign (set_cues (errorSelected message) errorNext)).

(** [this.workspaceId && this.workspaceId !== "applescript"
     && this.workspaceId !== "default"] *)
Definition namesWorkspace (w : string) : bool :=
  negb (w =? "")%string && negb (w =? "applescript")%string
  && negb (w =? "default")%string.

(** [initialize()] *)
Definition initialize : M t unit :=
  try_catch
    (running <- on_client QLabOSCClientLists.isRunning ;;
     if (running : bool) then
       assign (set_connected true) ;;
       assign (set_connectionError None) ;;
       w <- this ;;
       (if namesWorkspace (workspaceId w) then
          on_client (QLabOSCClient.setActiveWorkspace (Some (workspaceId w))) ;;
          ret tt
        else ret tt) ;;
       updateCueInfo
     else assign (set_connectionError (Some "QLab is not running")))
    (fun message => assign (set_connectionError (Some ("Error: " ++ message)%string))).

End Mirror.

(** [getCurrentSelectedCue()], [getNextCue()] *)
Definition getCurrentSelectedCue : M t QLabOSCClient.CueData :=
  w <- this ;; ret (currentSelectedCue w).

Definition getNextCue : M t QLabOSCClient.CueData :=
  w <- this ;; ret (nextCue w).

(** A value of [globalCueCache]. *)
Record Slot : Type := mkSlot
  { cues : list QLabOSCClientLists.Entry; lastUpdate : Z }.

(** [globalCache && now - globalCache.lastUpdate < limit] *)
Definition freshSlot (slot : option Slot) (now limit : Z) : option Slot :=
  match slot with
  | Some s => if now - lastUpdate s <? limit then Some s else None
  | None => None
  end.

Section CueListCache.
Variable objectAsList :
  list (string * JSValue) -> nat -> Outcome (list QLabOSCClientLists.Entry).

(** [getAllCues()], with [globalCueCache] before and after. *)
Definition getAllCues (globalCueCache : JSMap string Slot)
  : M t (list QLabOSCClientLists.Entry * JSMap string Slot) :=
  now <- Date_now ;;
  w <- this ;;
  let cuesCacheTimeout := 10000 in
  match freshSlot (map_get (workspaceId w) globalCueCache) now cuesCacheTimeout with
  | Some globalCache => ret (cues globalCache, globalCueCache)
  | None =>
      if (0 <? List.length (cachedCues w))%nat
         && (now - lastCuesUpdate w <? cuesCacheTimeout)
      then ret (cachedCues w, globalCueCache)
      else
        fetched <- on_client (QLabOSCClientLists.getAllCues objectAsList) ;;
        assign (set_cachedCues fetched now) ;;
        ret (fetched,
             map_set (workspaceId w) {| cues := fetched; lastUpdate := now |}
               globalCueCache)
  end.

End CueListCache.

End QLabClientWrapperState.

(* ===================================================================== *)
(** * The debounced refresh of all sessions                               *)
(* ===================================================================== *)

Module Dispatcher.
Local Open Scope Z_scope.

Definition UPDATE_DEBOUNCE_MS : Z := 500.

(** [updateTimeout] ([None] for [null], else the handle of a timer), the
    timers set and not yet run or cleared, the next handle, the clock, and
    the times at which a refresh cycle was begun; [running] counts the
    cycles begun and not yet ended. *)
Record State : Type := mkState
  { updateTimeout : option nat;
    armed : list (Z * nat);
    handles : nat;
    now : Z;
    cycles : list Z;
    running : nat }.

Definition initial : State :=
  {| updateTimeout := None; armed := []; handles := 0; now := 0;
     cycles := []; running := 0 |}.

(** [setTimeout]: the new timer goes behind those due no later. *)
Fixpoint enqueue (due : Z) (handle : nat) (q : list (Z * nat)) : list (Z * nat) :=
  match q with
  | [] => [(due, handle)]
  | (d, h) :: rest =>
      if d <=? due then (d, h) :: enqueue due handle rest
      else (due, handle) :: (d, h) :: rest
  end.

(** [clearTimeout(handle)]; a timer that has run is no longer there. *)
Definition clearTimeout (handle : nat) (q : list (Z * nat)) : list (Z * nat) :=
  filter (fun timer => negb (snd timer =? handle)%nat) q.

(** [updateAllClientsCueInfo()] *)
Definition updateAllClientsCueInfo (st : State) : State :=
  let q := match updateTimeout st with
           | Some handle => clearTimeout handle (armed st)
           | None => armed st
           end in
  {| updateTimeout := Some (handles st);
     armed := enqueue (now st + UPDATE_DEBOUNCE_MS) (handles st) q;
     handles := S (handles st);
     now := now st;
     cycles := cycles st;
     running := running st |}.

(** The timer callback is entered: a refresh cycle begins. *)
Definition begin (due : Z) (rest : list (Z * nat)) (st : State) : State :=
  {| updateTimeout := updateTimeout st;
     armed := rest;
     handles := handles st;
     now := due;
     cycles := cycles st ++ [due];
     running := S (running st) |}.

(** The callback reaches its last statement, [updateTimeout = null], once
    every session has been refreshed. *)
Definition finish (st : State) : State :=
  match running st with
  | O => st
  | S n =>
      {| updateTimeout := None; armed := armed st; handles := handles st;
         now := now st; cycles := cycles st; running := n |}
  end.

(** Let the clock reach [t]: every timer due by then runs, in queue order. *)
Fixpoint runDue (t : Z) (q : list (Z * nat)) (st : State) : State :=
  match q with
  | [] =>
      {| updateTimeout := updateTimeout st; armed := []; handles := handles st;
         now := t; cycles := cycles st; running := running st |}
  | (due, handle) :: rest =>
      if due <=? t then runDue t rest (begin due rest st)
      else
        {| updateTimeout := updateTimeout st; armed := q; handles := handles st;
           now := t; cycles := cycles st; running := running st |}
  end.

Definition advanceTo (t : Z) (st : State) : State := runDue t (armed st) st.

(** The refresh cycles that reach their last statement, [ended] of them. *)
Fixpoint finishing (ended : nat) (st : State) : State :=
  match ended with
  | O => st
  | S n => finish (finishing n st)
  end.

(** A burst: a call now, then one more call after each of the gaps; in each
    gap the clock moves on, due timers run, and [ended] of the cycles then
    running reach their end. *)
Definition burst (gaps : list (Z * nat)) (st : State) : State :=
  fold_left
    (fun s gap =>
       updateAllClientsCueInfo (finishing (snd gap) (advanceTo (now s + fst gap) s)))
    gaps (updateAllClientsCueInfo st).

(** The time a burst takes. *)
Definition span (gaps : list (Z * nat)) : Z :=
  fold_right Z.add 0 (List.map fst gaps).

End Dispatcher.

(* ===================================================================== *)
(** * Facts about the containers                                          *)
(* ===================================================================== *)

Section ContainerFacts.
Context {K : Type} `{Key K} {V : Type}.
Implicit Types (k : K) (v : V) (m : JSMap K V).

Lemma key_eqb_refl k : key_eqb k k = true.
Proof. destruct (key_eqb_spec k k); congruence. Qed.

Lemma key_eqb_neq k k' : k <> k' -> key_eqb k k' = false.
Proof. intros Hne. destruct (key_eqb_spec k k'); congruence. Qed.

Lemma map_get_set_eq k v m : map_get k (map_set k v m) = Some v.
Proof.
  induction m as [|[k' v'] m IH]; simpl.
  - now rewrite key_eqb_refl.
  - destruct (key_eqb k' k) eqn:E; simpl; rewrite E; auto.
Qed.

Lemma map_get_set_ne k k' v m :
  k <> k' -> map_get k' (map_set k v m) = map_get k' m.
Proof.
  intros Hne. induction m as [|[k0 v0] m IH]; simpl.
  - now rewrite key_eqb_neq.
  - destruct (key_eqb_spec k0 k) as [->|Hk]; simpl.
    + now rewrite (key_eqb_neq k k').
    + destruct (key_eqb k0 k'); auto.
Qed.

Lemma map_get_delete_eq k m : map_get k (map_delete k m) = None.
Proof.
  unfold map_delete. induction m as [|[k' v'] m IH]; simpl; auto.
  destruct (key_eqb k' k) eqn:E; simpl; auto. now rewrite E.
Qed.

Lemma map_get_delete_ne k k' m :
  k <> k' -> map_get k' (map_delete k m) = map_get k' m.
Proof.
  intros Hne. unfold map_delete.
  induction m as [|[k0 v0] m IH]; simpl; auto.
  destruct (key_eqb_spec k0 k) as [->|Hk]; simpl.
  - now rewrite (key_eqb_neq k k').
  - destruct (key_eqb k0 k'); auto.
Qed.

Lemma map_has_delete k m : map_has k (map_delete k m) = false.
Proof. unfold map_has. now rewrite map_get_delete_eq. Qed.

Lemma In_map_delete k k' v m : In (k', v) (map_delete k m) -> In (k', v) m.
Proof. unfold map_delete. intros Hin. now apply filter_In in Hin. Qed.

Lemma In_map_set k v k' v' m :
  In (k', v') (map_set k v m) -> In (k', v') m \/ v' = v.
Proof.
  induction m as [|[k0 v0] m IH]; simpl.
  - intros [E|[]]. right. congruence.
  - destruct (key_eqb k0 k); simpl.
    + intros [E|Hin]; [right; congruence | left; auto].
    + intros [E|Hin]; [left; auto | destruct (IH Hin); auto].
Qed.

Lemma find_never (f : K * V -> bool) m :
  (forall entry, f entry = false) -> find f m = None.
Proof.
  intros Hf. induction m as [|e m IH]; simpl; auto. now rewrite Hf.
Qed.
End ContainerFacts.

(* ===================================================================== *)
(** * The workspace pool                                                  *)
(* ===================================================================== *)

Section PoolFacts.
Import Server.
Local Open Scope Z_scope.

Variable w : WorkspaceId.

(** Attaching to a workspace that has a pool entry constructs nothing and
    only bumps the entry. *)
Lemma attach_existing clientId info initializes st e :
  map_get w (workspacePool st) = Some e ->
  map_get w (workspacePool (attach clientId w info initializes st))
    = Some {| client := client e; refCount := refCount e + 1;
              clients := set_add clientId (clients e);
              instanceInfo := instanceInfo e |}
  /\ wrappers (attach clientId w info initializes st) = wrappers st
  /\ cleanedUp (attach clientId w info initializes st) = cleanedUp st.
Proof.
  intros Hget. unfold attach, getOrCreateWorkspaceConnection.
  rewrite Hget. unfold addClientToWorkspace. rewrite Hget. simpl.
  now rewrite map_get_set_eq.
Qed.

(** The first attach to an absent workspace constructs the wrapper. *)
Lemma attach_first clientId info st :
  map_get w (workspacePool st) = None ->
  map_get w (workspacePool (attach clientId w info true st))
    = Some {| client := wrappers st; refCount := 1;
              clients := [clientId]; instanceInfo := info |}
  /\ wrappers (attach clientId w info true st) = S (wrappers st)
  /\ cleanedUp (attach clientId w info true st) = cleanedUp st.
Proof.
  intros Hget. unfold attach, getOrCreateWorkspaceConnection.
  rewrite Hget. unfold addClientToWorkspace. simpl.
  rewrite map_get_set_eq. simpl. now rewrite map_get_set_eq.
Qed.

Lemma attachAll_existing info requests : forall st e,
  map_get w (workspacePool st) = Some e ->
  map_get w (workspacePool (attachAll w info st requests))
    = Some {| client := client e;
              refCount := refCount e + Z.of_nat (List.length requests);
              clients := fold_left (fun s r => set_add (fst r) s) requests (clients e);
              instanceInfo := instanceInfo e |}
  /\ wrappers (attachAll w info st requests) = wrappers st
  /\ cleanedUp (attachAll w info st requests) = cleanedUp st.
Proof.
  induction requests as [|[c ok] rs IH]; intros st e Hget.
  - simpl. rewrite Z.add_0_r. destruct e; auto.
  - cbn [attachAll fold_left fst snd].
    destruct (attach_existing c info ok st e Hget) as (Hg & Hw & Hc).
    destruct (IH _ _ Hg) as (Hg' & Hw' & Hc').
    fold (attachAll w info (attach c w info ok st) rs).
    rewrite Hg', Hw', Hc'. cbn [client refCount clients instanceInfo].
    repeat split; auto. do 2 f_equal. cbn [List.length]. lia.
Qed.

(** While fewer sessions detach than the count says, the entry and its
    wrapper stay. *)
Lemma detachAll_alive ids : forall st e,
  map_get w (workspacePool st) = Some e ->
  Z.of_nat (List.length ids) < refCount e ->
  exists e',
    map_get w (workspacePool (detachAll w st ids)) = Some e'
    /\ client e' = client e
    /\ refCount e' = refCount e - Z.of_nat (List.length ids)
    /\ cleanedUp (detachAll w st ids) = cleanedUp st.
Proof.
  induction ids as [|c cs IH]; intros st e Hget Hlt.
  - exists e. simpl. rewrite Z.sub_0_r. auto.
  - cbn [List.length] in Hlt.
    assert (Hstep : exists e1,
               map_get w (workspacePool (detach w st c)) = Some e1
               /\ client e1 = client e /\ refCount e1 = refCount e - 1
               /\ cleanedUp (detach w st c) = cleanedUp st).
    { unfold detach, removeClientFromWorkspace. rewrite Hget.
      cbn [refCount client].
      destruct (refCount e - 1 <=? 0) eqn:E; [apply Z.leb_le in E; lia|].
      eexists. split; [simpl; apply map_get_set_eq|]. auto. }
    destruct Hstep as (e1 & Hg1 & Hc1 & Hr1 & Hu1).
    destruct (IH _ _ Hg1) as (e' & Hg & Hc & Hr & Hu); [lia|].
    exists e'. cbn [detachAll fold_left]. fold (detachAll w (detach w st c) cs).
    rewrite Hg, Hc, Hr, Hu, Hc1, Hr1, Hu1. repeat split; auto.
    cbn [List.length]. lia.
Qed.

(** The detach that brings the count to zero removes the entry and runs
    the wrapper's [cleanup]. *)
Lemma detach_last clientId st e :
  map_get w (workspacePool st) = Some e ->
  refCount e <= 1 ->
  map_get w (workspacePool (detach w st clientId)) = None
  /\ cleanedUp (detach w st clientId) = cleanedUp st ++ [client e].
Proof.
  intros Hget Hle. unfold detach, removeClientFromWorkspace. rewrite Hget.
  cbn [refCount client].
  destruct (refCount e - 1 <=? 0) eqn:E; [|apply Z.leb_gt in E; lia].
  simpl. split; auto. apply map_get_delete_eq.
Qed.
End PoolFacts.

Section PoolClaims.
Import Server.
Local Open Scope Z_scope.

(** Pool reference counting for attaches served one after another.  With
    no pool entry for [w], attaching [K = 1 + length rest] sessions (the
    first attach reaches the device) constructs exactly one wrapper, the
    one held by the pool entry; after at most [K - 1] detaches the entry
    still holds that wrapper and no cleanup has run; the detach after
    [K - 1] of them removes the entry and runs the wrapper's cleanup. *)
Theorem pool_refcounting (w : WorkspaceId) (info : string) (st : State)
    (first : string) (rest : list (string * bool))
    (leaving : list string) (last : string) :
  map_get w (workspacePool st) = None ->
  (List.length leaving <= List.length rest)%nat ->
  let attached := attachAll w info st ((first, true) :: rest) in
  let remaining := detachAll w attached leaving in
  wrappers attached = S (wrappers st)
  /\ (exists e, map_get w (workspacePool attached) = Some e
                /\ client e = wrappers st
                /\ refCount e = Z.of_nat (S (List.length rest)))
  /\ (exists e, map_get w (workspacePool remaining) = Some e
                /\ client e = wrappers st)
  /\ cleanedUp remaining = cleanedUp st
  /\ (List.length leaving = List.length rest ->
      map_get w (workspacePool (detach w remaining last)) = None
      /\ cleanedUp (detach w remaining last) = cleanedUp st ++ [wrappers st]).
Proof.
  intros Habsent Hlen attached remaining.
  destruct (attach_first w first info st Habsent) as (Hg1 & Hw1 & Hc1).
  destruct (attachAll_existing w info rest _ _ Hg1) as (Hg & Hw & Hc).
  assert (Hatt : attached = attachAll w info (attach first w info true st) rest)
    by reflexivity.
  cbn [client refCount clients instanceInfo] in Hg.
  rewrite <- Hatt in Hg, Hw, Hc.
  destruct (detachAll_alive w leaving attached _ Hg) as (e' & Hg' & Hc' & Hr' & Hu');
    [cbn [refCount]; lia|].
  fold remaining in Hg', Hu'. cbn [client refCount] in Hc', Hr'.
  split; [congruence|].
  split; [eexists; split; [exact Hg|]; cbn [client refCount]; split; [reflexivity|lia]|].
  split; [exists e'; auto|].
  split; [congruence|].
  intros Heq.
  destruct (detach_last w last remaining e' Hg') as (Hnone & Hclean); [lia|].
  split; [exact Hnone|]. rewrite Hclean, Hu', Hc, Hc1, Hc'. reflexivity.
Qed.

Lemma pool_refcounting_witness :
  map_get (Some "main") (workspacePool initial) = None
  /\ (2 <= 2)%nat
  /\ map_get (Some "main")
       (workspacePool
          (detach (Some "main")
             (detachAll (Some "main")
                (attachAll (Some "main") "qlab" initial
                   [("a", true); ("b", false); ("c", true)]) ["a"; "b"]) "c"))
     = None.
Proof.
  split; [reflexivity|]. split; [lia|].
  apply (pool_refcounting (Some "main") "qlab" initial "a"
           [("b", false); ("c", true)] ["a"; "b"] "c");
    [reflexivity | simpl; lia | reflexivity].
Defined.

End PoolClaims.

(* ===================================================================== *)
(** * The client registry: grace timers and the cue-list route            *)
(* ===================================================================== *)

Section RegistryClaims.
Import Server.
Local Open Scope Z_scope.

Lemma map_has_get {V : Type} (k : string) (m : JSMap string V) (v : V) :
  map_get k m = Some v -> map_has k m = true.
Proof. unfold map_has. now intros ->. Qed.

(** C3. What the two grace timers do for a session that is attached to a
    workspace, disconnects and never comes back: thirty seconds later its
    registry entry is gone, but the pool is exactly as before, so the
    session's reference on the workspace is never given back and no
    cleanup runs. *)
Theorem grace_expiry_keeps_pool_reference (socketId : string) (r : nat)
    (w : WorkspaceId) (st : State) :
  timers st = [] ->
  map_get socketId (clientConnections st) = Some r ->
  nth_error (heap st) r = Some {| workspaceId := w |} ->
  present w = true ->
  let expired := advanceTo (now st + 30000) (onDisconnect socketId st) in
  map_has socketId (clientConnections expired) = false
  /\ workspacePool expired = workspacePool st
  /\ cleanedUp expired = cleanedUp st
  /\ timers expired = [].
Proof.
  intros Hq Hget Hobj Hw expired. subst expired.
  unfold onDisconnect, clientDataOf. rewrite Hget, Hobj. cbn [option_map workspaceId].
  rewrite Hw. unfold setTimeout, advanceTo. cbn [timers now set_timers].
  rewrite Hq. cbn [enqueue].
  repeat (progress (rewrite ?Z.leb_refl, ?(map_has_get _ _ _ Hget);
                    cbn [runDue fire clientConnections set_timers negb])).
  cbn. rewrite map_has_delete. auto.
Qed.

Lemma grace_expiry_keeps_pool_reference_witness :
  timers oneAttached = []
  /\ map_get "s1" (clientConnections oneAttached) = Some 0%nat
  /\ nth_error (heap oneAttached) 0 = Some {| workspaceId := Some "ws1" |}
  /\ present (Some "ws1") = true
  /\ map_has "s1" (clientConnections
                     (advanceTo 30000 (onDisconnect "s1" oneAttached))) = false
  /\ option_map refCount
       (map_get (Some "ws1")
          (workspacePool (advanceTo 30000 (onDisconnect "s1" oneAttached))))
     = Some 1.
Proof.
  do 4 (split; [reflexivity|]).
  pose proof (grace_expiry_keeps_pool_reference "s1" 0 (Some "ws1") oneAttached
                eq_refl eq_refl eq_refl eq_refl) as (Hgone & Hpool & _).
  split; [exact Hgone|]. cbn [now oneAttached] in Hpool.
  change (now oneAttached + 30000) with 30000 in Hpool.
  rewrite Hpool. reflexivity.
Defined.

(** A session whose socket id shows up again during the grace period gets
    a new registry object at once, and the second timer deletes it at
    expiry all the same. *)
Example grace_expiry_forgets_reconnected :
  let back := onConnection "s1" (advanceTo 10000 (onDisconnect "s1" oneAttached)) in
  map_has "s1" (clientConnections back) = true
  /\ map_has "s1" (clientConnections (advanceTo 30000 back)) = false.
Proof. split; reflexivity. Qed.

Lemma entry_never_restorable (entry : WorkspaceId * PoolEntry) :
  restorable entry = false.
Proof. unfold restorable. now rewrite andb_false_r. Qed.

(** C10. [GET /api/cues] from a client without a workspace attachment
    answers an empty cue list and changes nothing, whatever the pool
    holds: the restore loop asks every entry for [refs], which no entry
    has. *)
Theorem apiCues_unattached_is_empty (clientId : string)
    (fetched : option (list JSValue)) (st : State) :
  attachedTo clientId st = None ->
  apiCues clientId fetched st = ([], st).
Proof.
  intros Hfree. unfold apiCues. rewrite Hfree.
  rewrite (find_never restorable (workspacePool st) entry_never_restorable).
  now rewrite Hfree.
Qed.

Lemma apiCues_unattached_is_empty_witness :
  attachedTo "s2" oneAttached = None
  /\ option_map refCount (map_get (Some "ws1") (workspacePool oneAttached)) = Some 1
  /\ apiCues "s2" (Some [JStr "cue"]) oneAttached = ([], oneAttached).
Proof.
  split; [reflexivity|]. split; [reflexivity|].
  apply (apiCues_unattached_is_empty "s2" (Some [JStr "cue"]) oneAttached).
  reflexivity.
Defined.
End RegistryClaims.

(* ===================================================================== *)
(** * Attaches that overlap                                               *)
(* ===================================================================== *)

Section OverlappingAttaches.
Import Server Overlapping.
Local Open Scope Z_scope.




(** C2, at the input where it fails.  Two sessions ask for a workspace that
    is not in the pool, and the second request arrives while the first
    awaits [initialize].  Both lookups miss, so two wrappers are made; the
    entry stored for the first request is replaced by that of the second,
    which counts one session only.  The detach of one of the two sessions
    then removes the entry and cleans up its wrapper while the other
    session is attached; the first wrapper is in no entry and is never
    cleaned up. *)
Theorem overlapping_attaches_split_the_pool (w : WorkspaceId) (info : string)
    (st : State) (a b : string) :
  map_get w (workspacePool st) = None ->
  a <> b ->
  let both := server (schedule w info st (overlapped a b)) in
  wrappers both = S (S (wrappers st))
  /\ map_get w (workspacePool both)
     = Some {| client := S (wrappers st); refCount := 1; clients := [b];
               instanceInfo := info |}
  /\ cleanedUp both = cleanedUp st
  /\ map_get w (workspacePool (detach w both a)) = None
  /\ cleanedUp (detach w both a) = cleanedUp st ++ [S (wrappers st)].
Proof.
  intros Habsent Hab both.
  assert (Hkey : key_eqb a b = false) by now apply key_eqb_neq.
  assert (Hkey' : key_eqb b a = false) by (apply key_eqb_neq; congruence).
  assert (Hboth : exists pool,
            both = {| workspacePool :=
                        map_set w {| client := S (wrappers st); refCount := 1;
                                     clients := [b]; instanceInfo := info |} pool;
                      clientConnections := clientConnections st; heap := heap st;
                      wrappers := S (S (wrappers st)); cleanedUp := cleanedUp st;
                      now := now st; timers := timers st |}).
  { subst both. unfold schedule, overlapped. cbn [fold_left].
    unfold turn at 4. unfold lookup. cbn [server awaiting]. rewrite Habsent.
    unfold turn at 3. unfold lookup. cbn [server awaiting workspacePool wrappers].
    rewrite Habsent. cbn [map_set]. rewrite Hkey.
    unfold turn at 2. cbn [server awaiting map_get]. rewrite key_eqb_refl.
    unfold resume, addClientToWorkspace.
    cbn [workspacePool set_pool]. rewrite map_get_set_eq.
    cbn [client refCount clients instanceInfo workspacePool set_pool].
    unfold turn. cbn [server awaiting map_delete filter fst map_get].
    rewrite key_eqb_refl, Hkey'. cbn [negb filter fst map_get]. rewrite key_eqb_refl.
    unfold resume, addClientToWorkspace.
    cbn [workspacePool set_pool]. rewrite map_get_set_eq.
    cbn [client refCount clients instanceInfo workspacePool set_pool server
         clientConnections heap wrappers cleanedUp now timers].
    eexists. reflexivity. }
  destruct Hboth as (pool & Hboth). rewrite Hboth.
  cbn [wrappers workspacePool cleanedUp].
  split; [reflexivity|]. split; [apply map_get_set_eq|]. split; [reflexivity|].
  unfold detach, removeClientFromWorkspace. cbn [workspacePool].
  rewrite map_get_set_eq. cbn [refCount client clients instanceInfo].
  cbn [workspacePool cleanedUp]. split; [apply map_get_delete_eq | reflexivity].
Qed.

Lemma overlapping_attaches_split_the_pool_witness :
  let both := server (schedule (Some "ws1") "qlab" initial (overlapped "s1" "s2")) in
  wrappers both = 2%nat
  /\ map_get (Some "ws1") (workspacePool both)
     = Some {| client := 1; refCount := 1; clients := ["s2"]; instanceInfo := "qlab" |}
  /\ cleanedUp both = []
  /\ map_get (Some "ws1") (workspacePool (detach (Some "ws1") both "s1")) = None
  /\ cleanedUp (detach (Some "ws1") both "s1") = [1%nat].
Proof.
  apply (overlapping_attaches_split_the_pool (Some "ws1") "qlab" initial "s1" "s2");
    [reflexivity | discriminate].
Defined.


End OverlappingAttaches.

(* ===================================================================== *)
(** * Reply correlation on the shared transport                           *)
(* ===================================================================== *)

Section TransportFacts.
Import Transport.

Lemma update_call_length i f cs :
  List.length (update_call i f cs) = List.length cs.
Proof.
  unfold update_call. destruct (nth_error cs i) as [c|] eqn:E; auto.
  assert (i < List.length cs)%nat by (apply nth_error_Some; congruence).
  rewrite length_app. cbn [List.length]. rewrite length_firstn, length_skipn. lia.
Qed.

Lemma update_call_same i f cs :
  nth_error (update_call i f cs) i = option_map f (nth_error cs i).
Proof.
  unfold update_call. destruct (nth_error cs i) as [c|] eqn:E; cbn [option_map].
  - assert (i < List.length cs)%nat by (apply nth_error_Some; congruence).
    rewrite nth_error_app2; rewrite length_firstn; [|lia].
    replace (i - Nat.min i (List.length cs))%nat with 0%nat by lia. reflexivity.
  - exact E.
Qed.

Lemma update_call_other i j f cs :
  i <> j -> nth_error (update_call i f cs) j = nth_error cs j.
Proof.
  intros Hne. unfold update_call.
  destruct (nth_error cs i) as [c|] eqn:E; auto.
  assert (Hi : (i < List.length cs)%nat) by (apply nth_error_Some; congruence).
  rewrite <- (firstn_skipn i cs) at 3.
  destruct (Nat.lt_ge_cases j i) as [Hlt|Hge].
  - rewrite !nth_error_app1 by (rewrite length_firstn; lia). reflexivity.
  - rewrite !nth_error_app2 by (rewrite length_firstn; lia).
    rewrite length_firstn. replace (Nat.min i (List.length cs)) with i by lia.
    destruct (j - i)%nat as [|d] eqn:Ed; [lia|].
    rewrite nth_error_skipn. cbn [nth_error]. rewrite nth_error_skipn. f_equal. lia.
Qed.

Lemma callbackFn_other i j outcome cs :
  i <> j -> nth_error (callbackFn i outcome cs) j = nth_error cs j.
Proof. intros Hne. unfold callbackFn. now rewrite !update_call_other. Qed.

Lemma callbackFn_length i outcome cs :
  List.length (callbackFn i outcome cs) = List.length cs.
Proof. unfold callbackFn. now rewrite !update_call_length. Qed.

Variable JSON_parse : JSValue -> option JSValue.

Lemma send_keeps_orphan addr arguments expectReply raised this g i :
  orphaned i g ->
  orphaned i (snd (sendOSCMessage addr arguments expectReply raised this g)).
Proof.
  intros (Hmap & Hlt & Hp). unfold sendOSCMessage, orphaned, promiseOf in *.
  assert (Hi : List.length (calls g) <> i) by lia.
  destruct expectReply, raised; cbn [snd globalOSCCallbacks calls];
    rewrite ?update_call_length, ?update_call_other, ?length_app by exact Hi;
    rewrite ?nth_error_app1 by exact Hlt;
    (split; [|split; [cbn [List.length]; lia | exact Hp]]);
    intros k v Hin; try (now apply (Hmap k v));
    apply In_map_set in Hin; destruct Hin as [Hin| ->];
    try (now apply (Hmap k v)); lia.
Qed.

Lemma message_keeps_orphan m g i :
  orphaned i g -> orphaned i (handleGlobalOSCMessage JSON_parse m g).
Proof.
  intros (Hmap & Hlt & Hp). unfold handleGlobalOSCMessage.
  destruct (startsWith (address m) "/reply").
  - destruct (globalOSCCallbacks g) as [|[cbId callback] rest] eqn:E;
      [rewrite <- E in Hmap; repeat split; auto; now rewrite E|].
    assert (Hcb : callback <> i) by (apply (Hmap cbId); now left).
    unfold orphaned, promiseOf in *. cbn [globalOSCCallbacks calls].
    rewrite callbackFn_length, callbackFn_other by exact Hcb.
    repeat split; auto. intros k v Hin. apply In_map_delete in Hin. eauto.
  - destruct (includes (address m) "update"); [|repeat split; auto].
    destruct (_ || _); repeat split; auto.
Qed.

Lemma timeout_keeps_orphan j g i :
  orphaned i g -> orphaned i (timeoutFires j g).
Proof.
  intros (Hmap & Hlt & Hp). unfold timeoutFires.
  destruct (nth_error (calls g) j) as [c|] eqn:Ec; [|repeat split; auto].
  destruct (timerArmed c); [|repeat split; auto].
  unfold orphaned, promiseOf in *.
  destruct (map_has (callbackId c) (globalOSCCallbacks g));
    cbn [globalOSCCallbacks calls]; rewrite ?update_call_length;
    (split; [intros k v Hin; try apply In_map_delete in Hin; eauto|]);
    (split; [exact Hlt|]);
    (destruct (Nat.eq_dec j i) as [->|Hne];
     [|now rewrite ?update_call_other by exact Hne]);
    rewrite ?update_call_same; rewrite Ec in *; cbn [option_map] in *;
    unfold pendingOrTimedOut in *; unfold settle, disarm; cbn [promise];
    destruct Hp as [Hp|Hp]; injection Hp as ->; auto.
Qed.

Lemma step_keeps_orphan s e i :
  orphaned i (global s) -> orphaned i (global (step JSON_parse s e)).
Proof.
  intros Ho. destruct e as [|c addr arguments expectReply raised|m|j];
    cbn [step global]; auto using message_keeps_orphan, timeout_keeps_orphan.
  destruct (nth_error (clients s) c) as [this|]; auto.
  pose proof (send_keeps_orphan addr arguments expectReply raised this (global s) i Ho) as H.
  destruct (sendOSCMessage addr arguments expectReply raised this (global s)) as [[n this'] g'].
  exact H.
Qed.

(** A call whose callback is no longer in the map can be settled by
    nothing but its own timer, whatever happens next. *)
Lemma orphan_stays_orphan later : forall s i,
  orphaned i (global s) -> orphaned i (global (run JSON_parse s later)).
Proof.
  induction later as [|e es IH]; intros s i Ho; [exact Ho|].
  cbn [run fold_left]. apply IH. apply step_keeps_orphan. exact Ho.
Qed.

(** C9. Per-instance counters over the one shared callback map.  Two
    new clients both start counting at zero; the first reply-expecting
    send of each therefore uses key 1, and the second [set] replaces the
    first client's callback in place.  From then on no sequence of sends,
    inbound messages and timer expiries resolves the first call: its
    promise stays pending or is rejected by its own timeout, which does
    reject it when it fires while key 1 is still held. *)
Theorem colliding_callback_ids (a b : string) (argsA argsB : list JSValue) :
  let one := run JSON_parse boot [ENewClient; ENewClient; ESend 0 a argsA true None] in
  let two := step JSON_parse one (ESend 1 b argsB true None) in
  callbackIdCounter newClient = 0%nat
  /\ globalOSCCallbacks (global one) = [(1%nat, 0%nat)]
  /\ globalOSCCallbacks (global two) = [(1%nat, 1%nat)]
  /\ promiseOf (global two) 0 = Some Pending
  /\ (forall later, pendingOrTimedOut (promiseOf (global (run JSON_parse two later)) 0))
  /\ promiseOf (global (run JSON_parse two [ETimeout 0])) 0
     = Some (Rejected "OSC message timeout").
Proof.
  intros one two. repeat (split; [reflexivity|]). split; [|reflexivity].
  intros later. apply (orphan_stays_orphan later two 0%nat).
  split; [|split; [cbn; lia | left; reflexivity]].
  intros k v [E|[]]. injection E as _ <-. discriminate.
Qed.

(** C1, at the input where it fails.  Two clients send one query each and
    two replies come back in the order of the sends.  The first reply is
    handed to the second client's call, the second reply finds no
    callback, and the first client's call is left pending. *)
Theorem fifo_broken_across_clients (a b : string)
    (replyA replyB : list OSCArg) :
  let g := global (run JSON_parse boot
               [ENewClient; ENewClient;
                ESend 0 a [] true None; ESend 1 b [] true None;
                EMessage {| address := "/reply/a"; args := replyA |};
                EMessage {| address := "/reply/b"; args := replyB |}]) in
  promiseOf g 0 = Some Pending
  /\ promiseOf g 1 = Some (replyOutcome JSON_parse replyA)
  /\ globalOSCCallbacks g = [].
Proof.
  cbn. unfold promiseOf, callbackFn, update_call, settle. cbn.
  repeat split.
Qed.
End TransportFacts.

Section SingleClientFifo.
Import Transport.
Variable JSON_parse : JSValue -> option JSValue.

Lemma map_set_fresh {V : Type} (k : nat) (v : V) (m : JSMap nat V) :
  (forall k' v', In (k', v') m -> k' <> k) -> map_set k v m = m ++ [(k, v)].
Proof.
  induction m as [|[k0 v0] m IH]; intros Hfresh; [reflexivity|].
  cbn [map_set app]. rewrite (key_eqb_neq k0 k) by (apply (Hfresh k0 v0); now left).
  rewrite IH; [reflexivity|]. intros k' v' Hin. apply (Hfresh k' v'). now right.
Qed.

Lemma send_query_step addr arguments this g :
  sendOSCMessage addr arguments true None this g
  = (List.length (calls g),
     {| callbackIdCounter := S (callbackIdCounter this) |},
     {| globalOSCCallbacks :=
          map_set (S (callbackIdCounter this)) (List.length (calls g))
            (globalOSCCallbacks g);
        calls := calls g ++ [{| promise := Pending;
                                callbackId := S (callbackIdCounter this);
                                timerArmed := true |}];
        wire := wire g ++ [{| address := addr; args := List.map encodeArg arguments |}];
        errorCount := errorCount g; updateRequests := updateRequests g |}).
Proof. reflexivity. Qed.

Lemma sendAll_queues requests : forall this g n base k,
  callbackIdCounter this = (n + k)%nat ->
  globalOSCCallbacks g = queued n (List.length base) 0 k ->
  calls g = base ++ waiting n k ->
  let after := sendAll requests this g in
  globalOSCCallbacks (snd after) = queued n (List.length base) 0 (k + List.length requests)
  /\ calls (snd after) = base ++ waiting n (k + List.length requests).
Proof.
  induction requests as [|r rs IH]; intros this g n base k Hn Hmap Hcalls.
  - cbn. now rewrite Nat.add_0_r.
  - cbn [sendAll fold_left fst snd List.length].
    rewrite send_query_step.
    set (this' := {| callbackIdCounter := S (callbackIdCounter this) |}).
    match goal with
    | |- context [fold_left _ rs (this', ?x)] => set (g' := x)
    end.
    fold (sendAll rs this' g'). replace (k + S (List.length rs))%nat
      with (S k + List.length rs)%nat by lia.
    apply IH.
    + cbn. lia.
    + subst g'. cbn [globalOSCCallbacks]. rewrite Hmap, Hcalls, Hn.
      rewrite map_set_fresh.
      * unfold queued. rewrite seq_S, map_app, length_app. cbn [List.map].
        unfold waiting. rewrite length_map, length_seq.
        do 3 f_equal; lia.
      * intros k' v' Hin. unfold queued in Hin. apply in_map_iff in Hin.
        destruct Hin as (j & E & Hj). apply in_seq in Hj. injection E as <- _. lia.
    + subst g'. cbn [calls]. rewrite Hcalls, Hn, <- app_assoc. f_equal.
      unfold waiting. rewrite seq_S, map_app. cbn [List.map]. do 4 f_equal. lia.
Qed.

(** A reply leaves alone every call whose callback is not in the map. *)
Lemma message_frame m g i :
  (forall k v, In (k, v) (globalOSCCallbacks g) -> v <> i) ->
  nth_error (calls (handleGlobalOSCMessage JSON_parse m g)) i = nth_error (calls g) i
  /\ (forall k v, In (k, v) (globalOSCCallbacks (handleGlobalOSCMessage JSON_parse m g))
                  -> v <> i).
Proof.
  intros Hmap. unfold handleGlobalOSCMessage.
  destruct (startsWith (address m) "/reply").
  - destruct (globalOSCCallbacks g) as [|[cbId callback] rest] eqn:E;
      [rewrite E; auto|].
    assert (Hcb : callback <> i) by (apply (Hmap cbId); now left).
    cbn [globalOSCCallbacks calls]. rewrite callbackFn_other by exact Hcb.
    split; auto. intros k v Hin. apply In_map_delete in Hin. eauto.
  - destruct (includes (address m) "update"); [|auto].
    destruct (_ || _); auto.
Qed.

Lemma deliver_frame messages : forall g i,
  (forall k v, In (k, v) (globalOSCCallbacks g) -> v <> i) ->
  nth_error (calls (deliver JSON_parse messages g)) i = nth_error (calls g) i.
Proof.
  induction messages as [|m ms IH]; intros g i Hmap; [reflexivity|].
  cbn [deliver fold_left]. fold (deliver JSON_parse ms (handleGlobalOSCMessage JSON_parse m g)).
  destruct (message_frame m g i Hmap) as (Hsame & Hmap').
  now rewrite IH.
Qed.

Lemma queued_head n first a k :
  queued n first a (S k) = ((n + 1 + a)%nat, (first + a)%nat) :: queued n first (S a) k.
Proof. reflexivity. Qed.

Lemma queued_delete_head n first a k :
  map_delete (n + 1 + a)%nat (((n + 1 + a)%nat, (first + a)%nat) :: queued n first (S a) k)
  = queued n first (S a) k.
Proof.
  unfold map_delete. cbn [filter fst].
  rewrite key_eqb_refl. cbn [negb].
  apply forallb_filter_id. apply forallb_forall. intros [k' v'] Hin.
  unfold queued in Hin.
  apply in_map_iff in Hin. destruct Hin as (j & E & Hj). apply in_seq in Hj.
  injection E as <- _. cbn [fst]. rewrite key_eqb_neq; [reflexivity | lia].
Qed.

Lemma deliver_in_order messages : forall g n first a k,
  globalOSCCallbacks g = queued n first a k ->
  (forall j, (a <= j < a + k)%nat ->
     exists c, nth_error (calls g) (first + j) = Some c /\ promise c = Pending) ->
  (List.length messages <= k)%nat ->
  Forall isReply messages ->
  forall j m, nth_error messages j = Some m ->
    promiseOf (deliver JSON_parse messages g) (first + a + j)
    = Some (replyOutcome JSON_parse (args m)).
Proof.
  induction messages as [|m0 ms IH]; intros g n first a k Hmap Hcalls Hlen Hreply j m Hj;
    [destruct j; discriminate|].
  destruct k as [|k]; [cbn in Hlen; lia|].
  inversion Hreply as [|? ? Hm0 Hms]; subst.
  cbn [deliver fold_left]. fold (deliver JSON_parse ms (handleGlobalOSCMessage JSON_parse m0 g)).
  set (g1 := handleGlobalOSCMessage JSON_parse m0 g).
  assert (Hg1 : g1 = {| globalOSCCallbacks := queued n first (S a) k;
                        calls := callbackFn (first + a) (replyOutcome JSON_parse (args m0)) (calls g);
                        wire := wire g; errorCount := errorCount g;
                        updateRequests := updateRequests g |}).
  { subst g1. unfold handleGlobalOSCMessage.
    rewrite Hm0, Hmap, queued_head, queued_delete_head. reflexivity. }
  destruct j as [|j].
  - injection Hj as <-. unfold promiseOf. rewrite Nat.add_0_r.
    rewrite deliver_frame.
    + rewrite Hg1. cbn [calls]. unfold callbackFn. rewrite !update_call_same.
      destruct (Hcalls a ltac:(lia)) as (c & -> & Hp). cbn [option_map].
      unfold settle, disarm. cbn [promise]. now rewrite Hp.
    + rewrite Hg1. cbn [globalOSCCallbacks]. intros k' v' Hin.
      unfold queued in Hin. apply in_map_iff in Hin.
      destruct Hin as (i & E & Hi). apply in_seq in Hi. injection E as _ <-. lia.
  - replace (first + a + S j)%nat with (first + S a + j)%nat by lia.
    apply (IH g1 n first (S a) k); auto.
    + now rewrite Hg1.
    + intros i Hi. rewrite Hg1. cbn [calls].
      rewrite callbackFn_other by lia. apply Hcalls. lia.
    + cbn in Hlen. lia.
Qed.

(** The order the code does keep: when one client sends [N] queries over a
    transport with no callback waiting and [N] replies follow, the [j]-th
    reply settles the [j]-th of those calls. *)
Theorem fifo_single_client (this : Client) (g : Global)
    (requests : list (string * list JSValue)) (messages : list OSCMessage) :
  globalOSCCallbacks g = [] ->
  List.length messages = List.length requests ->
  Forall isReply messages ->
  forall j m, nth_error messages j = Some m ->
    promiseOf (deliver JSON_parse messages (snd (sendAll requests this g)))
      (List.length (calls g) + j)
    = Some (replyOutcome JSON_parse (args m)).
Proof.
  intros Hempty Hlen Hreply j m Hj.
  destruct (sendAll_queues requests this g (callbackIdCounter this) (calls g) 0)
    as (Hmap & Hcalls); [lia | exact Hempty | cbn; now rewrite app_nil_r |].
  cbn [Nat.add] in Hmap, Hcalls.
  replace (List.length (calls g) + j)%nat with (List.length (calls g) + 0 + j)%nat by lia.
  apply (deliver_in_order messages _ (callbackIdCounter this) (List.length (calls g)) 0
           (List.length requests)); auto; [|lia].
  intros i Hi. rewrite Hcalls. rewrite nth_error_app2 by lia.
  replace (List.length (calls g) + i - List.length (calls g))%nat with i by lia.
  unfold waiting. rewrite nth_error_map, nth_error_seq.
  destruct (Nat.ltb_spec i (List.length requests)); [|lia].
  cbn. eauto.
Qed.

End SingleClientFifo.

Section SingleClientFifoExample.
Import Transport.

Lemma fifo_single_client_witness :
  globalOSCCallbacks initial = []
  /\ promiseOf
       (deliver (fun _ => None)
          [{| address := "/reply/a"; args := [] |};
           {| address := "/reply/b"; args := [mkArg "i" (JNum 0)] |}]
          (snd (sendAll [("/a", []); ("/b", [])] newClient initial))) 1
     = Some (Resolved (JArr [JNum 0])).
Proof.
  split; [reflexivity|].
  apply (fifo_single_client (fun _ => None) newClient initial
           [("/a", []); ("/b", [])]
           [{| address := "/reply/a"; args := [] |};
            {| address := "/reply/b"; args := [mkArg "i" (JNum 0)] |}]
           eq_refl eq_refl ltac:(repeat constructor) 1%nat
           {| address := "/reply/b"; args := [mkArg "i" (JNum 0)] |} eq_refl).
Defined.
End SingleClientFifoExample.

(* ===================================================================== *)
(** * The protocol client                                                 *)
(* ===================================================================== *)

Section AsyncFacts.
Import Async.
Context {T : Type}.

Lemma upcoming_tl n env env' :
  script env' = tl (script env) -> upcoming n env' = upcoming (S n) env.
Proof.
  unfold upcoming. intros ->. destruct (script env); [now destruct n|reflexivity].
Qed.

(** A send that is accepted returns, with the message on the wire. *)
Lemma send_accepted addr arguments expectReply env (t : T) :
  accepted expectReply (upcoming 0 env) = true ->
  exists v dt,
    sendOSCMessage addr arguments expectReply (env, t)
    = (Return v,
       ({| clock := clock env + dt;
           outbox := outbox env ++ [{| sent_address := addr; sent_args := arguments;
                                       sent_expectReply := expectReply |}];
           script := tl (script env) |}, t))
    /\ (expectReply = false -> dt = 0%Z).
Proof.
  unfold upcoming, sendOSCMessage. cbn [fst snd].
  destruct (script env) as [|how rest]; cbn [nth tl accepted].
  - destruct expectReply; [discriminate|]. intros _. now eexists _, _.
  - destruct how as [e|dt data|dt|]; cbn [accepted]; try discriminate;
      destruct expectReply; cbn [negb]; try discriminate; intros Hok;
      try (now eexists _, _).
    destruct data; try discriminate; eexists _, _; split; try reflexivity;
      discriminate.
Qed.

(** A send that is refused raises; the object is untouched and at most
    the refused message itself went out. *)
Lemma send_refused addr arguments expectReply env (t : T) :
  accepted expectReply (upcoming 0 env) = false ->
  exists e env',
    sendOSCMessage addr arguments expectReply (env, t) = (Throw e, (env', t))
    /\ script env' = tl (script env)
    /\ (outbox env' = outbox env
        \/ outbox env' = outbox env ++ [{| sent_address := addr; sent_args := arguments;
                                          sent_expectReply := expectReply |}]).
Proof.
  unfold upcoming, sendOSCMessage. cbn [fst snd].
  destruct (script env) as [|how rest]; cbn [nth tl accepted].
  - destruct expectReply; [|discriminate]. intros _. eexists _, _.
    split; [reflexivity|]. split; [reflexivity|]. now right.
  - destruct how as [e|dt data|dt|]; cbn [accepted];
      destruct expectReply; cbn [negb]; try discriminate; intros Hok;
      try (eexists _, _; split; [reflexivity|]; split; [reflexivity|]; auto; fail).
    all: destruct data; try discriminate.
    eexists _, _; split; [reflexivity|]; split; [reflexivity|]; auto.
Qed.
End AsyncFacts.

Section WorkspaceSelection.
Import Async QLabOSCClient.



End WorkspaceSelection.

Section CueQueries.
Import Async QLabOSCClient.
Local Open Scope Z_scope.

(** [getSelectedCue] always answers: every failure ends in its [catch]. *)
Lemma getSelectedCue_returns env c :
  exists sel env1 c1, getSelectedCue (env, c) = (Return sel, (env1, c1)).
Proof.
  unfold getSelectedCue. async_unfold.
  destruct (usable (selectedCueCache c) (clock env) (lastSelectedUpdate c) (cacheTimeout c));
    [now eexists _, _, _|].
  destruct (sendOSCMessage _ _ true (env, c)) as [[result|e] [env1 c1]].
  - destruct (truthy (pickSelected result)).
    + now eexists _, _, _.
    + unfold logStringified, throw, ret.
      destruct result; cbn [fst snd];
        try (now eexists _, _, _);
        destruct (usable _ _ _ 10000); now eexists _, _, _.
  - cbn [fst snd]. destruct (usable _ _ _ 10000); now eexists _, _, _.
Qed.





End CueQueries.

(* ===================================================================== *)
(** * The per-cue-info cache                                              *)
(* ===================================================================== *)

Section StaleFallback.
Import Async QLabOSCClient.
Local Open Scope Z_scope.

(** When the live query fails, [getSelectedCue] answers with the cached cue
    if, by the clock read in the [catch], it is less than ten seconds old,
    and with the "No selection" placeholder otherwise. *)
Lemma getSelectedCue_stale_fallback env c cached :
  selectedCueCache c = Some cached ->
  usable (selectedCueCache c) (clock env) (lastSelectedUpdate c) (cacheTimeout c) = None ->
  accepted true (upcoming 0 env) = false ->
  let result := getSelectedCue (env, c) in
  fst result
  = Return (if clock (fst (snd result)) - lastSelectedUpdate c <? 10000
            then cached else placeholder "No selection")
  /\ snd (snd result) = c.
Proof.
  intros Hc Hstale Hfail.
  unfold getSelectedCue. async_unfold.
  rewrite Hstale.
  destruct (send_refused (scoped c "/cue/selected/valuesForKeys")
              [JStr valuesForKeys] true env c Hfail) as (e & env' & -> & _ & _).
  cbn [fst snd]. rewrite Hc. unfold usable.
  destruct (clock env' - lastSelectedUpdate c <? 10000) eqn:E; cbn; rewrite ?E; auto.
Qed.

(** [getNextCue] does the same when the cue-list request fails, except that
    the age is taken at the clock read on entry and the placeholder reads
    "No next cue". *)
Lemma getNextCue_stale_fallback env c cached sel env1 c1 :
  usable (nextCueCache c) (clock env) (lastNextUpdate c) (cacheTimeout c) = None ->
  getSelectedCue (env, c) = (Return sel, (env1, c1)) ->
  truthy (id sel) = true ->
  accepted true (upcoming 0 env1) = false ->
  nextCueCache c1 = Some cached ->
  fst (getNextCue (env, c))
  = Return (if clock env - lastNextUpdate c1 <? 10000
            then cached else placeholder "No next cue").
Proof.
  intros Hstale Hsel Hid Hfail Hc.
  unfold getNextCue. async_unfold.
  rewrite Hstale, Hsel. cbn [fst snd]. rewrite Hid. cbn [negb fst snd].
  destruct (send_refused (scoped c1 "/cueLists") [] true env1 c1 Hfail)
    as (e & env' & -> & _ & _).
  cbn [fst snd]. rewrite Hc. unfold usable.
  destruct (clock env - lastNextUpdate c1 <? 10000); cbn; auto.
Qed.

(** C5, at the input where it fails.  [getActiveCue] has a cached cue that
    is not fresh enough to be served directly; the live query fails.  The
    answer is the "Not available" placeholder whatever the age of the cached
    cue, which is left in place unused. *)
Theorem getActiveCue_failure_ignores_cache (env : Env) (c : QLabOSCClient.t)
    (cached : CueData) :
  activeCueCache c = Some cached ->
  usable (activeCueCache c) (clock env) (lastActiveUpdate c) (cacheTimeout c) = None ->
  accepted true (upcoming 0 env) = false ->
  fst (getActiveCue (env, c)) = Return (placeholder "Not available")
  /\ snd (snd (getActiveCue (env, c))) = c.
Proof.
  intros Hc Hstale Hfail.
  unfold getActiveCue. async_unfold.
  rewrite Hstale.
  destruct (send_refused (scoped c "/runningCues") [] true env c Hfail)
    as (e & env' & -> & _ & _).
  auto.
Qed.

Lemma getActiveCue_failure_ignores_cache_witness :
  activeCueCache warmClient = Some runningCue
  /\ 5000 - lastActiveUpdate warmClient < 10000
  /\ fst (getActiveCue ({| clock := 5000; outbox := []; script := [ReplyError 40] |},
                        warmClient))
     = Return (placeholder "Not available")
  /\ fst (getSelectedCue ({| clock := 5000; outbox := []; script := [ReplyError 40] |},
                          warmClient))
     = Return runningCue.
Proof.
  split; [reflexivity|]. split; [reflexivity|]. split; [|reflexivity].
  apply (getActiveCue_failure_ignores_cache
           {| clock := 5000; outbox := []; script := [ReplyError 40] |}
           warmClient runningCue); reflexivity.
Defined.
End StaleFallback.

(* ===================================================================== *)
(** * The wrapper's commands                                              *)
(* ===================================================================== *)

Section WrapperCommands.
Import Async QLabClientWrapper.
Local Open Scope Z_scope.
Local Open Scope async_scope.

(** A fire-and-forget send takes no time and leaves the object alone. *)
Lemma send_forget_frame {T : Type} addr arguments env (t : T) :
  clock (fst (snd (sendOSCMessage addr arguments false (env, t)))) = clock env
  /\ snd (snd (sendOSCMessage addr arguments false (env, t))) = t.
Proof.
  unfold sendOSCMessage. cbn [fst snd].
  destruct (script env) as [|[e|dt data|dt|] rest]; cbn; auto using Z.add_0_r.
Qed.

(** A client command sends one fire-and-forget message and touches nothing
    in the client. *)
Lemma command_frame path env c :
  clock (fst (snd (QLabOSCClient.command path (env, c)))) = clock env
  /\ snd (snd (QLabOSCClient.command path (env, c))) = c.
Proof.
  unfold QLabOSCClient.command. async_unfold.
  destruct (send_forget_frame (QLabOSCClient.scoped c path) [] env c) as (Hclock & Hobj).
  destruct (sendOSCMessage _ _ false (env, c)) as [[v|e] [env' c']];
    cbn [fst snd] in *; auto.
Qed.

(** The three commands that never call [invalidateCache] leave the client's
    caches as they were, and take no time. *)
Lemma uninvalidating_frame cmd env w :
  cmd = Panic \/ cmd = Reset \/ (exists cueId, cmd = SkipToCue cueId) ->
  clock (fst (snd (perform cmd (env, w)))) = clock env
  /\ client (snd (snd (perform cmd (env, w)))) = client w.
Proof.
  intros [-> | [-> | [cueId ->]]]; cbn [perform].
  - unfold panic, try_catch, on_client, within. cbn [fst snd].
    destruct (command_frame "/panic" env (client w)) as (Hclock & Hobj).
    unfold QLabOSCClient.panic.
    destruct (QLabOSCClient.command "/panic" (env, client w)) as [[v|e] [env' c']];
      cbn [fst snd] in *; subst; auto.
  - unfold reset, try_catch, bind, on_client, within, assign, ret. cbn [fst snd].
    destruct (command_frame "/reset" env (client w)) as (Hclock & Hobj).
    unfold QLabOSCClient.reset.
    destruct (QLabOSCClient.command "/reset" (env, client w)) as [[[|]|e] [env' c']];
      cbn [fst snd] in *; subst; auto.
  - unfold skipToCue. async_unfold.
    destruct (sameCue (lastSelectedCueId w) cueId
              && (clock env - lastSelectionTime w <? 500)); [auto|].
    destruct (send_forget_frame
                (QLabOSCClient.scoped (client w) ("/select_id/" ++ cueId)) [] env w)
      as (Hclock & Hobj).
    destruct (sendOSCMessage _ _ false (env, w)) as [[v|e] [env' w']];
      cbn [fst snd] in *; subst; auto.
Qed.

(** A query made while the cached cue is fresh is answered from the cache
    and sends nothing. *)
Lemma getSelectedCue_cached env c cached :
  QLabOSCClient.selectedCueCache c = Some cached ->
  clock env - QLabOSCClient.lastSelectedUpdate c < QLabOSCClient.cacheTimeout c ->
  QLabOSCClient.getSelectedCue (env, c) = (Return cached, (env, c)).
Proof.
  intros Hc Hfresh. apply Z.ltb_lt in Hfresh.
  unfold QLabOSCClient.getSelectedCue. async_unfold.
  rewrite Hc. unfold QLabOSCClient.usable. now rewrite Hfresh.
Qed.

(** [play], [stop], [next] and [previous] do clear the three caches, and the
    query after them goes to the device. *)
Lemma invalidating_clears cmd env w :
  cmd = Play \/ cmd = Stop \/ cmd = Next \/ cmd = Previous ->
  let c' := client (snd (snd (perform cmd (env, w)))) in
  QLabOSCClient.selectedCueCache c' = None
  /\ QLabOSCClient.activeCueCache c' = None
  /\ QLabOSCClient.nextCueCache c' = None
  /\ QLabOSCClient.lastSelectedUpdate c' = 0
  /\ QLabOSCClient.lastActiveUpdate c' = 0
  /\ QLabOSCClient.lastNextUpdate c' = 0.
Proof.
  intros Hcmd.
  assert (Hinv : forall path,
    let c' := client (snd (snd (invalidating (QLabOSCClient.command path) (env, w)))) in
    QLabOSCClient.selectedCueCache c' = None
    /\ QLabOSCClient.activeCueCache c' = None
    /\ QLabOSCClient.nextCueCache c' = None
    /\ QLabOSCClient.lastSelectedUpdate c' = 0
    /\ QLabOSCClient.lastActiveUpdate c' = 0
    /\ QLabOSCClient.lastNextUpdate c' = 0).
  { intros path.
    unfold invalidating, QLabOSCClient.invalidateCache, try_catch, bind,
      on_client, within, assign, ret.
    cbn [fst snd client set_client].
    match goal with
    | |- context [QLabOSCClient.command path (env, ?c0)] =>
        destruct (command_frame path env c0) as (_ & Hobj);
        destruct (QLabOSCClient.command path (env, c0)) as [[[|]|e] [env' c1]]
    end; cbn [fst snd] in *; subst; cbn; auto 10. }
  destruct Hcmd as [-> | [-> | [-> | ->]]]; apply Hinv.
Qed.

Lemma getSelectedCue_live env c :
  QLabOSCClient.selectedCueCache c = None ->
  script (fst (snd (QLabOSCClient.getSelectedCue (env, c)))) = tl (script env).
Proof.
  intros Hc.
  unfold QLabOSCClient.getSelectedCue. async_unfold.
  rewrite Hc. cbn [QLabOSCClient.usable].
  assert (Hs : script (fst (snd (sendOSCMessage
                 (QLabOSCClient.scoped c "/cue/selected/valuesForKeys")
                 [JStr QLabOSCClient.valuesForKeys] true (env, c)))) = tl (script env)).
  { unfold sendOSCMessage. cbn [fst snd].
    destruct (script env) as [|[e|dt [| | | | | |]|dt|] rest]; reflexivity. }
  destruct (sendOSCMessage _ _ true (env, c)) as [[result|e] [env1 c1]];
    cbn [fst snd] in *.
  - destruct (truthy (QLabOSCClient.pickSelected result)); [exact Hs|].
    unfold logStringified, throw, ret.
    destruct result; cbn [fst snd]; try exact Hs.
    destruct (QLabOSCClient.usable _ _ _ 10000); exact Hs.
  - destruct (QLabOSCClient.usable _ _ _ 10000); exact Hs.
Qed.

(** C4, at the inputs where it fails.  After [panic], [reset] or
    [skipToCue] the client's caches are what they were before, so a
    selected-cue query made while the cached cue is still fresh is answered
    from the cache and nothing is sent to the device. *)
Theorem command_without_invalidation (cmd : Command) (env : Env) (w : t)
    (cached : QLabOSCClient.CueData) :
  cmd = Panic \/ cmd = Reset \/ (exists cueId, cmd = SkipToCue cueId) ->
  QLabOSCClient.selectedCueCache (client w) = Some cached ->
  clock env - QLabOSCClient.lastSelectedUpdate (client w)
    < QLabOSCClient.cacheTimeout (client w) ->
  let after := snd (perform cmd (env, w)) in
  let query := on_client QLabOSCClient.getSelectedCue after in
  client (snd after) = client w
  /\ fst query = Return cached
  /\ outbox (fst (snd query)) = outbox (fst after).
Proof.
  intros Hcmd Hc Hfresh after query.
  destruct (uninvalidating_frame cmd env w Hcmd) as (Hclock & Hclient).
  fold after in Hclock, Hclient. split; [exact Hclient|].
  subst query. unfold on_client, within.
  rewrite (getSelectedCue_cached (fst after) (client (snd after)) cached);
    [cbn [fst snd]; auto | now rewrite Hclient | now rewrite Hclock, Hclient].
Qed.
End WrapperCommands.

Section SelectionDebounce.
Import Async QLabClientWrapper.
Local Open Scope Z_scope.
Local Open Scope async_scope.

Lemma command_without_invalidation_witness :
  (Panic = Panic \/ Panic = Reset \/ (exists cueId, Panic = SkipToCue cueId))
  /\ QLabOSCClient.selectedCueCache (client warmWrapper) = Some runningCue
  /\ 3400 - QLabOSCClient.lastSelectedUpdate (client warmWrapper)
     < QLabOSCClient.cacheTimeout (client warmWrapper)
  /\ fst (on_client QLabOSCClient.getSelectedCue
            (snd (perform Panic ({| clock := 3400; outbox := []; script := [] |},
                                 warmWrapper))))
     = Return runningCue.
Proof.
  split; [now left|]. split; [reflexivity|]. split; [reflexivity|].
  apply (command_without_invalidation Panic
           {| clock := 3400; outbox := []; script := [] |} warmWrapper runningCue);
    [now left | reflexivity | reflexivity].
Defined.

Lemma app_one_neq {A : Type} (l : list A) (x : A) : l ++ [x] <> l.
Proof.
  intros E. apply (f_equal (@List.length A)) in E.
  rewrite length_app in E. cbn in E. lia.
Qed.

(** What a call that put its message on the wire leaves behind. *)
Lemma skipToCue_sent cueId env w :
  outbox (fst (snd (skipToCue cueId (env, w)))) = outbox env ++ [selectMsg (client w) cueId] ->
  skipToCue cueId (env, w)
  = (Return true,
     ({| clock := clock env + 0;
         outbox := outbox env ++ [selectMsg (client w) cueId];
         script := tl (script env) |},
      set_lastSelection cueId (clock env) w)).
Proof.
  unfold skipToCue. async_unfold.
  destruct (sameCue (lastSelectedCueId w) cueId
            && (clock env - lastSelectionTime w <? 500)).
  - cbn [fst snd]. intros E. symmetry in E. now apply app_one_neq in E.
  - unfold sendOSCMessage. cbn [fst snd].
    destruct (script env) as [|[e|dt data|dt|] rest]; cbn [fst snd outbox tl];
      intros E; try reflexivity.
    symmetry in E. now apply app_one_neq in E.
Qed.

(** A repeat inside the window answers [true] and does nothing else. *)
Lemma skipToCue_swallowed cueId env w :
  sameCue (lastSelectedCueId w) cueId && (clock env - lastSelectionTime w <? 500) = true ->
  skipToCue cueId (env, w) = (Return true, (env, w)).
Proof.
  intros Hrepeat.
  unfold skipToCue. async_unfold.
  now rewrite Hrepeat.
Qed.

(** A call that is neither a repeat inside the window nor refused by the
    port sends its message. *)
Lemma skipToCue_sends cueId env w :
  sameCue (lastSelectedCueId w) cueId && (clock env - lastSelectionTime w <? 500) = false ->
  accepted false (upcoming 0 env) = true ->
  fst (skipToCue cueId (env, w)) = Return true
  /\ outbox (fst (snd (skipToCue cueId (env, w))))
     = outbox env ++ [selectMsg (client w) cueId].
Proof.
  intros Hnew Hok.
  unfold skipToCue. async_unfold.
  rewrite Hnew.
  destruct (send_accepted (QLabOSCClient.scoped (client w) ("/select_id/" ++ cueId))
              [] false env w Hok) as (v & dt & -> & _).
  cbn [fst snd outbox]. auto.
Qed.

Lemma sleep_then {A : Type} dt (m : M t A) env w :
  (sleep dt ;; m) (env, w)
  = m ({| clock := clock env + dt; outbox := outbox env; script := script env |}, w).
Proof. reflexivity. Qed.

(** C8, as the code has it.  The window is counted from the last selection
    that was sent.  Let a first call for [cueId] put its message on the
    wire.  A second call for the same id less than 500 ms later answers
    [true] and sends nothing, so the two calls make exactly one send.  A
    call 500 ms or more later, or a call for another id at any time, sends
    again when the port takes the message. *)
Theorem skipToCue_debounce (cueId other : string) (dt : Z) (env : Env) (w : t) :
  let first := skipToCue cueId (env, w) in
  outbox (fst (snd first)) = outbox env ++ [selectMsg (client w) cueId] ->
  let again := (sleep dt ;; skipToCue cueId) (snd first) in
  let another := (sleep dt ;; skipToCue other) (snd first) in
  (dt < 500 ->
   fst again = Return true
   /\ outbox (fst (snd again)) = outbox env ++ [selectMsg (client w) cueId])
  /\ (500 <= dt -> accepted false (upcoming 1 env) = true ->
      fst again = Return true
      /\ outbox (fst (snd again))
         = outbox env ++ [selectMsg (client w) cueId; selectMsg (client w) cueId])
  /\ (other <> cueId -> accepted false (upcoming 1 env) = true ->
      fst another = Return true
      /\ outbox (fst (snd another))
         = outbox env ++ [selectMsg (client w) cueId; selectMsg (client w) other]).
Proof.
  intros first Hsent again another.
  pose proof (skipToCue_sent cueId env w Hsent) as Hfirst.
  fold first in Hfirst.
  subst again another. rewrite Hfirst. cbn [snd]. rewrite !sleep_then.
  cbn [clock outbox script].
  set (env1 := {| clock := clock env + 0 + dt; outbox := _; script := _ |}).
  set (w1 := set_lastSelection cueId (clock env) w).
  assert (Hup : upcoming 0 env1 = upcoming 1 env) by (now apply upcoming_tl).
  assert (Hsame : sameCue (lastSelectedCueId w1) cueId = true)
    by (cbn; apply String.eqb_refl).
  split; [|split].
  - intros Hdt.
    rewrite (skipToCue_swallowed cueId env1 w1)
      by (apply andb_true_intro; split; [exact Hsame | apply Z.ltb_lt; cbn; lia]).
    cbn. auto.
  - intros Hdt Hok. rewrite <- Hup in Hok.
    destruct (skipToCue_sends cueId env1 w1) as (Hr & Ho); auto.
    + apply andb_false_intro2. apply Z.ltb_ge. cbn. lia.
    + rewrite Hr, Ho. cbn. now rewrite <- app_assoc.
  - intros Hother Hok. rewrite <- Hup in Hok.
    destruct (skipToCue_sends other env1 w1) as (Hr & Ho); auto.
    + apply andb_false_intro1. cbn. apply String.eqb_neq. congruence.
    + rewrite Hr, Ho. cbn. now rewrite <- app_assoc.
Qed.

Lemma skipToCue_debounce_witness :
  outbox (fst (snd (skipToCue "42" (idle, new)))) = [selectMsg (client new) "42"]
  /\ 300 < 500
  /\ List.length
       (outbox (fst (snd ((skipToCue "42" ;; sleep 300 ;; skipToCue "42") (idle, new)))))
     = 1%nat.
Proof.
  split; [reflexivity|]. split; [lia|].
  pose proof (skipToCue_debounce "42" "43" 300 idle new eq_refl) as (Hagain & _).
  destruct (Hagain ltac:(lia)) as (_ & Hout).
  change ((skipToCue "42" ;; sleep 300 ;; skipToCue "42") (idle, new))
    with ((sleep 300 ;; skipToCue "42") (snd (skipToCue "42" (idle, new)))).
  rewrite Hout. reflexivity.
Defined.

(** C8 as stated fails: three calls for the same cue 300 ms apart.  The
    second is swallowed; the third, 300 ms after the second, is sent. *)
Lemma skipToCue_third_call_resent :
  let two := (skipToCue "42" ;; sleep 300 ;; skipToCue "42") (idle, new) in
  let three := (sleep 300 ;; skipToCue "42") (snd two) in
  outbox (fst (snd two)) = [selectMsg (client new) "42"]
  /\ fst three = Return true
  /\ outbox (fst (snd three))
     = [selectMsg (client new) "42"; selectMsg (client new) "42"].
Proof. repeat split. Qed.
End SelectionDebounce.

(* ===================================================================== *)
(** * What the pool keeps true over any run of requests                   *)
(* ===================================================================== *)

Section MoreContainerFacts.
Context {K : Type} `{Key K} {V : Type}.
Implicit Types (k : K) (v : V) (m : JSMap K V).

Lemma map_get_In k v m : map_get k m = Some v -> In (k, v) m.
Proof.
  induction m as [|[k0 v0] m IH]; cbn [map_get]; [discriminate|].
  destruct (key_eqb_spec k0 k) as [->|Hne].
  - intros E. injection E as ->. now left.
  - intros E. right. auto.
Qed.

Lemma map_get_None_keys k m : map_get k m = None -> ~ In k (List.map fst m).
Proof.
  induction m as [|[k0 v0] m IH]; cbn [map_get List.map fst]; [tauto|].
  destruct (key_eqb_spec k0 k) as [->|Hne]; [discriminate|].
  intros E [E'|Hin]; [congruence | now apply IH].
Qed.

Lemma map_set_absent k v m : map_get k m = None -> map_set k v m = m ++ [(k, v)].
Proof.
  induction m as [|[k0 v0] m IH]; cbn [map_get map_set app]; [reflexivity|].
  destruct (key_eqb k0 k); [discriminate|]. intros E. now rewrite IH.
Qed.

Lemma map_set_set k v v' m : map_set k v' (map_set k v m) = map_set k v' m.
Proof.
  induction m as [|[k0 v0] m IH]; cbn [map_set].
  - now rewrite key_eqb_refl.
  - destruct (key_eqb k0 k) eqn:E; cbn [map_set]; rewrite E; [reflexivity|].
    now rewrite IH.
Qed.

Lemma In_map_set_inv k v k' v' m :
  In (k', v') (map_set k v m) -> (k', v') = (k, v) \/ In (k', v') m.
Proof.
  induction m as [|[k0 v0] m IH]; cbn [map_set].
  - intros [E|[]]. now left.
  - destruct (key_eqb_spec k0 k) as [->|Hne].
    + intros [E|Hin]; [now left | right; now right].
    + intros [E|Hin]; [right; now left|].
      destruct (IH Hin); [now left | right; now right].
Qed.

Lemma map_set_keys_present k v v' m :
  map_get k m = Some v -> List.map fst (map_set k v' m) = List.map fst m.
Proof.
  induction m as [|[k0 v0] m IH]; cbn [map_get map_set]; [discriminate|].
  destruct (key_eqb k0 k); [reflexivity|].
  intros E. cbn [List.map fst]. now rewrite IH.
Qed.

Lemma map_set_image_present {A : Type} (f : V -> A) k v v' m :
  map_get k m = Some v -> f v' = f v ->
  List.map (fun entry => f (snd entry)) (map_set k v' m)
  = List.map (fun entry => f (snd entry)) m.
Proof.
  intros Hget Hf. revert Hget.
  induction m as [|[k0 v0] m IH]; cbn [map_get map_set]; [discriminate|].
  destruct (key_eqb k0 k).
  - intros E. injection E as ->. cbn [List.map snd]. now rewrite Hf.
  - intros E. cbn [List.map snd]. now rewrite IH.
Qed.

Lemma In_map_delete_inv k k' v' m :
  In (k', v') (map_delete k m) -> In (k', v') m /\ k' <> k.
Proof.
  unfold map_delete. intros Hin. apply filter_In in Hin.
  destruct Hin as (Hin & Hk). split; [exact Hin|].
  cbn [fst] in Hk. intros ->. now rewrite key_eqb_refl in Hk.
Qed.

Lemma NoDup_map_filter {A B : Type} (f : A -> B) (p : A -> bool) (l : list A) :
  NoDup (List.map f l) -> NoDup (List.map f (filter p l)).
Proof.
  induction l as [|x l IH]; cbn [List.map filter]; [auto|].
  intros Hnd. inversion Hnd as [|? ? Hx Hl]; subst.
  destruct (p x); [|auto]. cbn [List.map]. constructor; [|auto].
  intros Hin. apply Hx. apply in_map_iff in Hin. destruct Hin as (y & E & Hy).
  apply filter_In in Hy. apply in_map_iff. exists y. tauto.
Qed.

Lemma NoDup_snoc {A : Type} (l : list A) (x : A) :
  NoDup l -> ~ In x l -> NoDup (l ++ [x]).
Proof.
  intros Hnd Hx. apply NoDup_app; [exact Hnd | repeat constructor; auto |].
  intros y Hy [<-|[]]. auto.
Qed.

Lemma NoDup_map_same {A B : Type} (f : A -> B) (l : list A) x y :
  NoDup (List.map f l) -> In x l -> In y l -> f x = f y -> x = y.
Proof.
  induction l as [|z l IH]; cbn [List.map]; [intros _ []|].
  intros Hnd. inversion Hnd as [|? ? Hz Hl]; subst.
  intros [->|Hx] [->|Hy] E; auto.
  - exfalso. apply Hz. rewrite E. now apply in_map.
  - exfalso. apply Hz. rewrite <- E. now apply in_map.
Qed.
End MoreContainerFacts.

Section PoolSoundness.
Import Server Routes.
Local Open Scope Z_scope.

Lemma samePool_sound st st' : samePool st st' -> poolSound st -> poolSound st'.
Proof. intros (Hp & Hw & Hc). unfold poolSound. now rewrite Hp, Hw, Hc. Qed.

Lemma samePool_refl st : samePool st st.
Proof. repeat split. Qed.

Lemma writeWorkspaceId_samePool r w st : samePool st (writeWorkspaceId r w st).
Proof. unfold writeWorkspaceId. destruct (nth_error (heap st) r); repeat split. Qed.

Lemma registerClient_samePool id w st : samePool st (registerClient id w st).
Proof. repeat split. Qed.

Lemma setTimeout_samePool f delay st : samePool st (setTimeout f delay st).
Proof. repeat split. Qed.

(** Replacing the entry of [w] by one with the same wrapper and a positive
    count. *)
Lemma replace_sound w e e' st :
  map_get w (workspacePool st) = Some e ->
  client e' = client e -> 1 <= refCount e' ->
  poolSound st -> poolSound (set_pool (map_set w e' (workspacePool st)) st).
Proof.
  intros Hget Hclient Hcount (Hkeys & Hclients & Hentries & Hclean).
  pose proof (Hentries _ _ (map_get_In _ _ _ Hget)) as (_ & Hmade & Hlive).
  unfold poolSound. cbn [workspacePool wrappers cleanedUp set_pool].
  rewrite (map_set_keys_present w e e' _ Hget).
  rewrite (map_set_image_present client w e e' _ Hget Hclient).
  split; [exact Hkeys|]. split; [exact Hclients|]. split; [|exact Hclean].
  intros w0 e0 Hin. apply In_map_set_inv in Hin as [E|Hin]; [|now apply (Hentries w0)].
  injection E as _ ->. rewrite Hclient. auto.
Qed.

Lemma add_sound clientId w st :
  poolSound st -> poolSound (addClientToWorkspace clientId w st).
Proof.
  intros Hs. unfold addClientToWorkspace.
  destruct (map_get w (workspacePool st)) as [e|] eqn:Hget; [|exact Hs].
  apply (replace_sound w e); auto. cbn [refCount].
  destruct Hs as (_ & _ & Hentries & _).
  destruct (Hentries _ _ (map_get_In _ _ _ Hget)) as (Hcount & _). lia.
Qed.

Lemma remove_sound clientId w st :
  poolSound st -> poolSound (removeClientFromWorkspace clientId w st).
Proof.
  intros Hs. unfold removeClientFromWorkspace.
  destruct (map_get w (workspacePool st)) as [e|] eqn:Hget; [|exact Hs].
  pose proof (map_get_In _ _ _ Hget) as Hin.
  cbn [refCount client].
  destruct (refCount e - 1 <=? 0) eqn:Hlast.
  - destruct Hs as (Hkeys & Hclients & Hentries & Hclean).
    unfold poolSound. cbn [workspacePool wrappers cleanedUp].
    split; [apply NoDup_map_filter; exact Hkeys|].
    split; [apply (NoDup_map_filter (fun entry => client (snd entry))); exact Hclients|].
    split.
    + intros w' e' Hin'. apply In_map_delete_inv in Hin' as (Hin' & Hne).
      destruct (Hentries _ _ Hin') as (Hcount & Hmade & Hlive).
      repeat split; auto. intros Hdead. apply in_app_or in Hdead as [Hdead|[E|[]]]; [auto|].
      apply Hne.
      assert (Esame : (w, e) = (w', e'))
        by (apply (NoDup_map_same (fun entry => client (snd entry)) _ _ _ Hclients Hin Hin');
            exact E).
      now injection Esame.
    + intros c Hdead. apply in_app_or in Hdead as [Hdead|[<-|[]]]; [auto|].
      now apply (Hentries _ _ Hin).
  - apply Z.leb_gt in Hlast. apply (replace_sound w e); auto. cbn [refCount]. lia.
Qed.

Lemma more_wrappers_sound st :
  poolSound st ->
  poolSound {| workspacePool := workspacePool st;
               clientConnections := clientConnections st; heap := heap st;
               wrappers := S (wrappers st); cleanedUp := cleanedUp st;
               now := now st; timers := timers st |}.
Proof.
  intros (Hkeys & Hclients & Hentries & Hclean).
  unfold poolSound. cbn [workspacePool wrappers cleanedUp].
  split; [exact Hkeys|]. split; [exact Hclients|]. split.
  - intros w e Hin. destruct (Hentries _ _ Hin) as (? & ? & ?).
    split; [|split]; auto; lia.
  - intros c Hdead. apply Hclean in Hdead. lia.
Qed.

(** A new entry for an absent key, attached once, with a new wrapper. *)
Lemma create_sound clientId w info st :
  map_get w (workspacePool st) = None ->
  poolSound st ->
  poolSound
    (addClientToWorkspace clientId w
       (set_pool (map_set w {| client := wrappers st; refCount := 0; clients := [];
                               instanceInfo := info |} (workspacePool st))
          {| workspacePool := workspacePool st;
             clientConnections := clientConnections st; heap := heap st;
             wrappers := S (wrappers st); cleanedUp := cleanedUp st;
             now := now st; timers := timers st |})).
Proof.
  intros Hget (Hkeys & Hclients & Hentries & Hclean).
  unfold addClientToWorkspace. cbn [workspacePool set_pool].
  rewrite map_get_set_eq. cbn [client refCount clients instanceInfo].
  rewrite map_set_set, (map_set_absent _ _ _ Hget).
  unfold poolSound. cbn [workspacePool wrappers cleanedUp set_pool].
  rewrite !map_app. cbn [List.map fst snd client].
  split; [apply NoDup_snoc|]. 3: split; [apply NoDup_snoc|]. 5: split.
  - exact Hkeys.
  - now apply map_get_None_keys.
  - exact Hclients.
  - intros Hin. apply in_map_iff in Hin.
    destruct Hin as ([w' e'] & E & Hin). cbn [snd] in E.
    destruct (Hentries _ _ Hin) as (_ & Hmade & _). lia.
  - intros w' e' Hin. apply in_app_or in Hin as [Hin|[E|[]]].
    + destruct (Hentries _ _ Hin) as (? & ? & ?). split; [|split]; auto; lia.
    + injection E as _ <-. cbn [refCount client]. split; [lia | split; [lia|]].
      intros Hdead. apply Hclean in Hdead. lia.
  - intros c Hdead. apply Hclean in Hdead. lia.
Qed.
End PoolSoundness.

Section RoutesKeepPoolSound.
Import Server Routes.
Local Open Scope Z_scope.

Lemma attach_sound clientId w info initializes st :
  poolSound st -> poolSound (attach clientId w info initializes st).
Proof.
  intros Hs. unfold attach, getOrCreateWorkspaceConnection.
  destruct (map_get w (workspacePool st)) as [e|] eqn:Hget.
  - now apply add_sound.
  - destruct initializes.
    + now apply create_sound.
    + now apply more_wrappers_sound.
Qed.

Lemma implicit_detach_sound clientId r (d : ClientData) st :
  poolSound st ->
  poolSound (if present (workspaceId d)
             then writeWorkspaceId r None
                    (removeClientFromWorkspace clientId (workspaceId d) st)
             else st).
Proof.
  intros Hs. destruct (present (workspaceId d)); [|exact Hs].
  eapply samePool_sound; [apply writeWorkspaceId_samePool|]. now apply remove_sound.
Qed.

Lemma connectShared_sound clientId w info initializes st :
  poolSound st -> poolSound (snd (connectShared clientId w info initializes st)).
Proof.
  intros Hs. unfold connectShared.
  set (st1 := match clientDataOf clientId st with
              | Some _ => st
              | None => registerClient clientId None st
              end).
  assert (Hs1 : poolSound st1)
    by (subst st1; destruct (clientDataOf clientId st); [exact Hs|];
        eapply samePool_sound; [apply registerClient_samePool | exact Hs]).
  destruct (clientDataOf clientId st1) as [[r d]|]; [|exact Hs1].
  pose proof (implicit_detach_sound clientId r d st1 Hs1) as Hs2.
  set (st2 := if present (workspaceId d) then _ else st1) in *.
  pose proof (attach_sound clientId w info initializes st2 Hs2) as Hs3.
  unfold attach in Hs3.
  destruct (getOrCreateWorkspaceConnection w info initializes st2) as [[e|] st3];
    cbn [snd]; [|exact Hs3].
  eapply samePool_sound; [apply writeWorkspaceId_samePool | exact Hs3].
Qed.

Lemma connectWorkspace_sound clientId w info portReady initializes st :
  poolSound st ->
  poolSound (snd (connectWorkspace clientId w info portReady initializes st)).
Proof.
  intros Hs. unfold connectWorkspace.
  set (st1 := match clientDataOf clientId st with
              | Some _ => st
              | None => registerClient clientId None st
              end).
  assert (Hs1 : poolSound st1)
    by (subst st1; destruct (clientDataOf clientId st); [exact Hs|];
        eapply samePool_sound; [apply registerClient_samePool | exact Hs]).
  destruct (clientDataOf clientId st1) as [[r d]|]; [|exact Hs1].
  pose proof (implicit_detach_sound clientId r d st1 Hs1) as Hs2.
  set (st2 := if present (workspaceId d) then _ else st1) in *.
  destruct portReady; cbn [negb]; [|exact Hs2].
  destruct initializes; cbn [snd]; [|now apply more_wrappers_sound].
  eapply samePool_sound; [apply writeWorkspaceId_samePool|].
  cbn [workspacePool].
  destruct (map_get w (workspacePool st2)) as [e|] eqn:Hget.
  - apply add_sound. now apply more_wrappers_sound.
  - now apply create_sound.
Qed.

Lemma apiDisconnect_sound clientId st :
  poolSound st -> poolSound (apiDisconnect clientId st).
Proof.
  intros Hs. unfold apiDisconnect.
  destruct (clientDataOf clientId st) as [[r d]|]; [|exact Hs].
  eapply samePool_sound; [apply writeWorkspaceId_samePool|].
  destruct (present (workspaceId d)); [now apply remove_sound | exact Hs].
Qed.

(** [GET /api/cues] never changes the state: its restore branch cannot
    run. *)
Lemma apiCues_state clientId fetched st : snd (apiCues clientId fetched st) = st.
Proof.
  unfold apiCues.
  rewrite (find_never restorable (workspacePool st) entry_never_restorable).
  destruct (attachedTo clientId st) as [w|] eqn:Ha; rewrite ?Ha; [|reflexivity].
  destruct (getWorkspaceClient w st); [destruct fetched|]; reflexivity.
Qed.

Lemma fire_sound f st : poolSound st -> poolSound (fire f st).
Proof.
  intros Hs. destruct f as [socketId r|socketId]; cbn [fire].
  - destruct (map_has socketId (clientConnections st)); cbn [negb]; [exact Hs|].
    destruct (nth_error (heap st) r); [now apply remove_sound | exact Hs].
  - destruct (map_has socketId (clientConnections st)); [|exact Hs].
    eapply samePool_sound; [|exact Hs]. repeat split.
Qed.

Lemma runDue_sound t q : forall st, poolSound st -> poolSound (runDue t q st).
Proof.
  induction q as [|[due f] q IH]; intros st Hs; cbn [runDue].
  - eapply samePool_sound; [|exact Hs]. repeat split.
  - destruct (due <=? t).
    + apply IH. apply fire_sound. eapply samePool_sound; [|exact Hs]. repeat split.
    + eapply samePool_sound; [|exact Hs]. repeat split.
Qed.

Lemma serve_sound st r : poolSound st -> poolSound (serve st r).
Proof.
  intros Hs. destruct r; cbn [serve].
  - eapply samePool_sound; [apply registerClient_samePool | exact Hs].
  - unfold onDisconnect.
    eapply samePool_sound; [apply setTimeout_samePool|].
    destruct (clientDataOf socketId st) as [[r d]|]; [|exact Hs].
    destruct (present (workspaceId d)); [|exact Hs].
    eapply samePool_sound; [apply setTimeout_samePool | exact Hs].
  - now apply connectShared_sound.
  - now apply connectWorkspace_sound.
  - now apply apiDisconnect_sound.
  - now rewrite apiCues_state.
  - now apply runDue_sound.
Qed.

Lemma initial_sound : poolSound initial.
Proof. repeat split; try constructor; intros; contradiction. Qed.

Lemma serveAll_sound requests : forall st,
  poolSound st -> poolSound (serveAll st requests).
Proof.
  induction requests as [|r rs IH]; intros st Hs; [exact Hs|].
  cbn [serveAll fold_left]. apply IH. now apply serve_sound.
Qed.

(** Whatever requests the server has handled, a workspace that is in the
    pool is counted at least once: an entry is either absent or active. *)
Theorem pooled_entry_is_counted (requests : list Request) (w : WorkspaceId)
    (e : PoolEntry) :
  map_get w (workspacePool (serveAll initial requests)) = Some e ->
  1 <= refCount e.
Proof.
  intros Hget.
  destruct (serveAll_sound requests initial initial_sound) as (_ & _ & Hentries & _).
  now apply (Hentries w e (map_get_In _ _ _ Hget)).
Qed.

(** Whatever requests the server has handled, the wrapper handed out for a
    workspace is one that was constructed and whose cleanup has not run, and
    no other workspace shares it. *)
Theorem pooled_client_is_live (requests : list Request) (w : WorkspaceId) (c : nat) :
  getWorkspaceClient w (serveAll initial requests) = Some c ->
  ~ In c (cleanedUp (serveAll initial requests))
  /\ (c < wrappers (serveAll initial requests))%nat
  /\ (forall w', getWorkspaceClient w' (serveAll initial requests) = Some c -> w' = w).
Proof.
  unfold getWorkspaceClient. intros Hget.
  destruct (map_get w (workspacePool (serveAll initial requests))) as [e|] eqn:He;
    [|discriminate].
  injection Hget as <-.
  destruct (serveAll_sound requests initial initial_sound)
    as (_ & Hclients & Hentries & _).
  pose proof (map_get_In _ _ _ He) as Hin.
  destruct (Hentries w e Hin) as (_ & Hmade & Hlive).
  repeat split; auto.
  intros w' Hget'.
  destruct (map_get w' (workspacePool (serveAll initial requests))) as [e'|] eqn:He';
    [|discriminate].
  injection Hget' as E. pose proof (map_get_In _ _ _ He') as Hin'.
  assert (Esame : (w', e') = (w, e))
    by (apply (NoDup_map_same (fun entry => client (snd entry)) _ _ _ Hclients Hin' Hin);
        exact E).
  now injection Esame.
Qed.
End RoutesKeepPoolSound.

Section RoutesExamples.
Import Server Routes.
Local Open Scope Z_scope.

Lemma pooled_entry_is_counted_witness :
  map_get (Some "ws1") (workspacePool (serveAll initial sampleRun))
  = Some {| client := 0; refCount := 1; clients := ["s2"]; instanceInfo := "qlab" |}
  /\ 1 <= 1.
Proof.
  split; [reflexivity|].
  apply (pooled_entry_is_counted sampleRun (Some "ws1")
           {| client := 0; refCount := 1; clients := ["s2"]; instanceInfo := "qlab" |}).
  reflexivity.
Defined.

Lemma pooled_client_is_live_witness :
  getWorkspaceClient (Some "ws1") (serveAll initial sampleRun) = Some 0%nat
  /\ ~ In 0%nat (cleanedUp (serveAll initial sampleRun)).
Proof.
  split; [reflexivity|].
  apply (pooled_client_is_live sampleRun (Some "ws1") 0%nat). reflexivity.
Defined.
End RoutesExamples.

Section AttachmentFacts.
Import Server Routes.
Local Open Scope Z_scope.

Lemma sameRegistry_clientDataOf st st' id :
  sameRegistry st st' -> clientDataOf id st' = clientDataOf id st.
Proof. intros (Hc & Hh). unfold clientDataOf. now rewrite Hc, Hh. Qed.

Lemma sameRegistry_trans st st' st'' :
  sameRegistry st st' -> sameRegistry st' st'' -> sameRegistry st st''.
Proof. intros (? & ?) (? & ?). split; congruence. Qed.

Lemma remove_sameRegistry clientId w st :
  sameRegistry st (removeClientFromWorkspace clientId w st).
Proof.
  unfold removeClientFromWorkspace.
  destruct (map_get w (workspacePool st)); [|now split].
  destruct (_ <=? 0); now split.
Qed.

Lemma add_sameRegistry clientId w st :
  sameRegistry st (addClientToWorkspace clientId w st).
Proof.
  unfold addClientToWorkspace. destruct (map_get w (workspacePool st)); now split.
Qed.

Lemma getOrCreate_sameRegistry w info initializes st :
  sameRegistry st (snd (getOrCreateWorkspaceConnection w info initializes st)).
Proof.
  unfold getOrCreateWorkspaceConnection.
  destruct (map_get w (workspacePool st)); [now split|].
  destruct initializes; now split.
Qed.

Lemma splice_same {A : Type} (l : list A) r x :
  nth_error l r = Some x -> firstn r l ++ x :: skipn (S r) l = l.
Proof.
  revert r. induction l as [|y l IH]; intros [|r]; cbn; try discriminate.
  - intros E. now injection E as ->.
  - intros E. now rewrite IH.
Qed.

Lemma splice_nth {A : Type} (l : list A) r x y :
  nth_error l r = Some x -> nth_error (firstn r l ++ y :: skipn (S r) l) r = Some y.
Proof.
  revert r. induction l as [|z l IH]; intros [|r]; cbn; try discriminate; auto.
Qed.

(** Writing the workspace id of the object a client id points to. *)
Lemma clientDataOf_write id r d w st :
  clientDataOf id st = Some (r, d) ->
  clientDataOf id (writeWorkspaceId r w st) = Some (r, {| workspaceId := w |}).
Proof.
  unfold clientDataOf, writeWorkspaceId.
  destruct (map_get id (clientConnections st)) as [r'|] eqn:Hid; [|discriminate].
  destruct (nth_error (heap st) r') as [d'|] eqn:Hobj; [|discriminate].
  cbn [option_map]. intros E. injection E as -> ->. rewrite Hobj.
  cbn [clientConnections heap set_heap]. rewrite Hid.
  now rewrite (splice_nth _ _ _ _ Hobj).
Qed.

Lemma clientDataOf_register id w st :
  clientDataOf id (registerClient id w st)
  = Some (List.length (heap st), {| workspaceId := w |}).
Proof.
  unfold clientDataOf, registerClient.
  cbn [clientConnections set_connections heap set_heap].
  rewrite map_get_set_eq, nth_error_app2 by lia. now rewrite Nat.sub_diag.
Qed.

Lemma writeWorkspaceId_pool r w st :
  workspacePool (writeWorkspaceId r w st) = workspacePool st.
Proof. apply writeWorkspaceId_samePool. Qed.

Lemma clientDataOf_attached id r d w st :
  clientDataOf id st = Some (r, d) ->
  attachedTo id (writeWorkspaceId r w st) = if present w then Some w else None.
Proof.
  intros Hcd. unfold attachedTo. now rewrite (clientDataOf_write id r d w st Hcd).
Qed.

Lemma set_has_add (c : string) (s : JSSet string) : set_has c (set_add c s) = true.
Proof.
  unfold set_add. destruct (set_has c s) eqn:E; [exact E|].
  induction s as [|x s IH]; cbn [app set_has].
  - now rewrite key_eqb_refl.
  - cbn [set_has] in E. apply orb_false_iff in E as (Ex & Es).
    rewrite Ex. cbn [orb]. auto.
Qed.

Lemma connectShared_effect (clientId : string) (w : WorkspaceId)
    (info : string) (initializes : bool) (st : State) :
  let result := connectShared clientId w info initializes st in
  attachedTo clientId (snd result)
  = (if fst result && present w then Some w else None)
  /\ (fst result = true ->
      exists e, map_get w (workspacePool (snd result)) = Some e
                /\ set_has clientId (clients e) = true)
  /\ (fst result = false -> map_get w (workspacePool (snd result)) = None).
Proof.
  intros result. subst result. unfold connectShared.
  set (st1 := match clientDataOf clientId st with
              | Some _ => st
              | None => registerClient clientId None st
              end).
  assert (Hreg : exists r d, clientDataOf clientId st1 = Some (r, d)).
  { subst st1. destruct (clientDataOf clientId st) as [[r d]|] eqn:E; [eauto|].
    rewrite clientDataOf_register. eauto. }
  destruct Hreg as (r & d & Hcd). rewrite Hcd.
  set (st2 := if present (workspaceId d) then _ else st1).
  assert (Hcd2 : exists d2, clientDataOf clientId st2 = Some (r, d2)
                            /\ present (workspaceId d2) = false).
  { subst st2. destruct (present (workspaceId d)) eqn:Hp; [|eauto].
    exists {| workspaceId := None |}. split; [|reflexivity].
    apply (clientDataOf_write clientId r d).
    rewrite (sameRegistry_clientDataOf st1); [exact Hcd | apply remove_sameRegistry]. }
  destruct Hcd2 as (d2 & Hcd2 & Hfree).
  pose proof (getOrCreate_sameRegistry w info initializes st2) as Hsame.
  unfold getOrCreateWorkspaceConnection in *.
  destruct (map_get w (workspacePool st2)) as [e|] eqn:Hget; cbn [snd fst] in *.
  - cbn [andb]. split; [|split; [|discriminate]].
    + rewrite (clientDataOf_attached clientId r d2 w); [reflexivity|].
      rewrite (sameRegistry_clientDataOf st2); [exact Hcd2 | apply add_sameRegistry].
    + intros _. rewrite writeWorkspaceId_pool.
      unfold addClientToWorkspace. rewrite Hget. cbn [workspacePool set_pool].
      rewrite map_get_set_eq. eexists. split; [reflexivity|]. apply set_has_add.
  - destruct initializes; cbn [snd fst andb] in *.
    + split; [|split; [|discriminate]].
      * rewrite (clientDataOf_attached clientId r d2 w); [reflexivity|].
        rewrite (sameRegistry_clientDataOf st2); [exact Hcd2|].
        eapply sameRegistry_trans; [exact Hsame | apply add_sameRegistry].
      * intros _. rewrite writeWorkspaceId_pool.
        unfold addClientToWorkspace. cbn [workspacePool set_pool].
        rewrite map_get_set_eq. cbn [workspacePool set_pool].
        rewrite map_get_set_eq. eexists. split; [reflexivity|]. apply set_has_add.
    + split; [|split; [discriminate|]].
      * unfold attachedTo. rewrite (sameRegistry_clientDataOf st2) by exact Hsame.
        now rewrite Hcd2, Hfree.
      * intros _. exact Hget.
Qed.

Lemma connectShared_succeeds clientId w info st :
  fst (connectShared clientId w info true st) = true.
Proof.
  unfold connectShared.
  set (st1 := match clientDataOf clientId st with
              | Some _ => st
              | None => registerClient clientId None st
              end).
  assert (Hreg : exists r d, clientDataOf clientId st1 = Some (r, d)).
  { subst st1. destruct (clientDataOf clientId st) as [[r d]|] eqn:E; [eauto|].
    rewrite clientDataOf_register. eauto. }
  destruct Hreg as (r & d & ->). unfold getOrCreateWorkspaceConnection.
  destruct (map_get w _); reflexivity.
Qed.

(** After the shared connect steps the client is attached to exactly the
    requested workspace when the connect succeeds and to no workspace when
    it fails, whatever it was attached to before: a failed switch drops the
    old attachment too.  On success the client is a member of the pool
    entry; on failure the workspace has no entry. *)
Theorem connectShared_attachment (clientId w : string)
    (info : string) (initializes : bool) (st : State) :
  w <> "" ->
  let result := connectShared clientId (Some w) info initializes st in
  attachedTo clientId (snd result) = (if fst result then Some (Some w) else None)
  /\ (fst result = true ->
      exists e, map_get (Some w) (workspacePool (snd result)) = Some e
                /\ set_has clientId (clients e) = true)
  /\ (fst result = false -> map_get (Some w) (workspacePool (snd result)) = None).
Proof.
  intros Hw result.
  destruct (connectShared_effect clientId (Some w) info initializes st)
    as (Hatt & Hyes & Hno).
  fold result in Hatt, Hyes, Hno. split; [|auto].
  rewrite Hatt. cbn [present]. apply String.eqb_neq in Hw. rewrite Hw.
  now destruct (fst result).
Qed.

Lemma connectShared_attachment_witness :
  "ws2" <> ""
  /\ attachedTo "s2" (serveAll initial sampleRun) = Some (Some "ws1")
  /\ fst (connectShared "s2" (Some "ws2") "qlab" false (serveAll initial sampleRun)) = false
  /\ attachedTo "s2"
       (snd (connectShared "s2" (Some "ws2") "qlab" false (serveAll initial sampleRun)))
     = None.
Proof.
  split; [discriminate|]. split; [reflexivity|]. split; [reflexivity|].
  destruct (connectShared_attachment "s2" "ws2" "qlab" false
              (serveAll initial sampleRun)) as (Hatt & _); [discriminate|].
  exact Hatt.
Defined.

(** A connect that succeeds with a workspace id that is [null] or empty (the
    id the instance route derives from the default workspace) counts the
    client in the pool entry but leaves it attached to nothing, so the
    routes treat it as not connected and a later disconnect gives the
    reference back to nobody. *)
Theorem connectShared_without_id (clientId : string) (w : WorkspaceId)
    (info : string) (st : State) :
  present w = false ->
  let result := connectShared clientId w info true st in
  fst result = true
  /\ attachedTo clientId (snd result) = None
  /\ (exists e, map_get w (workspacePool (snd result)) = Some e
                /\ set_has clientId (clients e) = true)
  /\ workspacePool (apiDisconnect clientId (snd result)) = workspacePool (snd result).
Proof.
  intros Hw result.
  destruct (connectShared_effect clientId w info true st) as (Hatt & Hyes & Hno).
  fold result in Hatt, Hyes, Hno.
  assert (Hok : fst result = true) by apply connectShared_succeeds.
  rewrite Hw, andb_false_r in Hatt.
  repeat split; auto.
  unfold apiDisconnect. unfold attachedTo in Hatt.
  destruct (clientDataOf clientId (snd result)) as [[r d]|]; [|reflexivity].
  destruct (present (workspaceId d)); [discriminate|].
  apply writeWorkspaceId_pool.
Qed.

Lemma connectShared_without_id_witness :
  present None = false
  /\ fst (connectShared "s1" None "qlab" true (onConnection "s1" initial)) = true
  /\ attachedTo "s1" (snd (connectShared "s1" None "qlab" true (onConnection "s1" initial)))
     = None.
Proof.
  split; [reflexivity|].
  destruct (connectShared_without_id "s1" None "qlab" (onConnection "s1" initial) eq_refl)
    as (Hok & Hatt & _).
  split; [exact Hok | exact Hatt].
Defined.

Lemma writeWorkspaceId_same r w st :
  nth_error (heap st) r = Some {| workspaceId := w |} -> writeWorkspaceId r w st = st.
Proof.
  intros Hobj. unfold writeWorkspaceId. rewrite Hobj.
  rewrite (splice_same _ _ _ Hobj). now destruct st.
Qed.

(** [POST /api/disconnect] leaves the client attached to nothing, and a
    second disconnect changes nothing more: the reference it held is given
    back once. *)
Theorem apiDisconnect_once (clientId : string) (st : State) :
  attachedTo clientId (apiDisconnect clientId st) = None
  /\ apiDisconnect clientId (apiDisconnect clientId st) = apiDisconnect clientId st.
Proof.
  unfold apiDisconnect at 1 3 4.
  destruct (clientDataOf clientId st) as [[r d]|] eqn:Hcd.
  - set (st' := if present (workspaceId d) then _ else st).
    assert (Hcd' : clientDataOf clientId st' = Some (r, d)).
    { subst st'. destruct (present (workspaceId d)); [|exact Hcd].
      rewrite (sameRegistry_clientDataOf st); [exact Hcd | apply remove_sameRegistry]. }
    pose proof (clientDataOf_write clientId r d None st' Hcd') as Hafter.
    split; [unfold attachedTo; now rewrite Hafter|].
    unfold apiDisconnect. rewrite Hafter. cbn [workspaceId present].
    apply writeWorkspaceId_same.
    unfold clientDataOf in Hafter.
    destruct (map_get clientId (clientConnections (writeWorkspaceId r None st')));
      [|discriminate].
    destruct (nth_error (heap (writeWorkspaceId r None st')) n) eqn:Hobj; [|discriminate].
    cbn [option_map] in Hafter. injection Hafter as -> ->. exact Hobj.
  - split; [unfold attachedTo; now rewrite Hcd|].
    unfold apiDisconnect. now rewrite Hcd.
Qed.
End AttachmentFacts.

Section GraceTimers.
Import Server Routes.
Local Open Scope Z_scope.

Lemma map_has_set {V : Type} (k : string) (v : V) (m : JSMap string V) :
  map_has k (map_set k v m) = true.
Proof. unfold map_has. now rewrite map_get_set_eq. Qed.

(** The grace timers are not called off by a reconnect.  When a socket id
    disconnects and shows up again before the thirty seconds are over, it has
    a registry entry again at once, and the second timer of the old
    disconnect still deletes that entry when it comes due. *)
Theorem grace_timer_outlives_reconnect (socketId : string) (t : Z) (st : State) :
  timers st = [] ->
  t < now st + 30000 ->
  let back := onConnection socketId (advanceTo t (onDisconnect socketId st)) in
  map_has socketId (clientConnections back) = true
  /\ map_has socketId (clientConnections (advanceTo (now st + 30000) back)) = false
  /\ workspacePool (advanceTo (now st + 30000) back) = workspacePool st.
Proof.
  intros Hq Ht back. subst back.
  assert (Hlate : (now st + 30000 <=? t) = false) by (apply Z.leb_gt; lia).
  unfold onDisconnect.
  destruct (clientDataOf socketId st) as [[r d]|];
    [destruct (present (workspaceId d))|];
    unfold setTimeout, advanceTo, onConnection, registerClient;
    cbn [timers now set_timers set_connections set_heap clientConnections heap];
    rewrite Hq; cbn [enqueue]; rewrite ?Z.leb_refl; cbn [runDue];
    rewrite Hlate;
    cbn [timers now set_timers set_connections set_heap clientConnections heap runDue];
    repeat (progress (rewrite ?Z.leb_refl, ?map_has_set;
                      cbn [runDue fire clientConnections set_timers set_connections
                           negb workspacePool]));
    rewrite map_has_delete; auto.
Qed.

Lemma grace_timer_outlives_reconnect_witness :
  timers oneAttached = []
  /\ 10000 < now oneAttached + 30000
  /\ map_has "s1"
       (clientConnections
          (advanceTo 30000
             (onConnection "s1" (advanceTo 10000 (onDisconnect "s1" oneAttached)))))
     = false.
Proof.
  split; [reflexivity|]. split; [reflexivity|].
  apply (grace_timer_outlives_reconnect "s1" 10000 oneAttached); reflexivity.
Defined.
End GraceTimers.

Section TimeoutThenReplies.
Import Transport.
Variable JSON_parse : JSValue -> option JSValue.

Lemma queued_has_head n first a k :
  map_has (n + 1 + a)%nat (queued n first a (S k)) = true.
Proof. rewrite queued_head. unfold map_has. cbn [map_get]. now rewrite key_eqb_refl. Qed.

(** A timeout moves the queue up.  One client sends a burst of queries over
    a transport with no callback waiting, and the timer of the first fires
    before any reply.  That call is rejected with the timeout error and its
    callback is gone, so the replies that arrive from then on settle the
    second call, the third, and so on: an answer to the first query that
    comes late is taken for the answer to the second. *)
Theorem timeout_shifts_replies (this : Client) (g : Global)
    (requests : list (string * list JSValue)) (messages : list OSCMessage) :
  globalOSCCallbacks g = [] ->
  (List.length messages < List.length requests)%nat ->
  Forall isReply messages ->
  let first := List.length (calls g) in
  let timedOut := timeoutFires first (snd (sendAll requests this g)) in
  let final := deliver JSON_parse messages timedOut in
  promiseOf final first = Some (Rejected "OSC message timeout")
  /\ errorCount timedOut = S (errorCount (snd (sendAll requests this g)))
  /\ forall j m, nth_error messages j = Some m ->
       promiseOf final (first + 1 + j) = Some (replyOutcome JSON_parse (args m)).
Proof.
  intros Hempty Hlen Hreply first timedOut final.
  destruct (sendAll_queues requests this g (callbackIdCounter this) (calls g) 0)
    as (Hmap & Hcalls); [lia | exact Hempty | cbn; now rewrite app_nil_r |].
  cbn [Nat.add] in Hmap, Hcalls. fold first in Hmap.
  destruct (List.length requests) as [|k] eqn:Hn; [lia|].
  set (sent := snd (sendAll requests this g)) in *.
  assert (Hwaiting : forall i, (i < S k)%nat ->
            nth_error (calls sent) (first + i)
            = Some {| promise := Pending;
                      callbackId := (callbackIdCounter this + 1 + i)%nat;
                      timerArmed := true |}).
  { intros i Hi. rewrite Hcalls, nth_error_app2 by (subst first; lia).
    replace (first + i - List.length (calls g))%nat with i by (subst first; lia).
    unfold waiting. rewrite nth_error_map, nth_error_seq.
    destruct (Nat.ltb_spec i (S k)); [reflexivity | lia]. }
  assert (Htimed : timedOut
            = {| globalOSCCallbacks := queued (callbackIdCounter this) first 1 k;
                 calls := update_call first (settle (Rejected "OSC message timeout"))
                            (update_call first disarm (calls sent));
                 wire := wire sent; errorCount := S (errorCount sent);
                 updateRequests := updateRequests sent |}).
  { subst timedOut. unfold timeoutFires.
    pose proof (Hwaiting 0%nat ltac:(lia)) as H0. rewrite Nat.add_0_r in H0.
    rewrite H0. cbn [timerArmed callbackId]. rewrite Hmap.
    rewrite queued_has_head, queued_head, queued_delete_head. reflexivity. }
  assert (Hfirst : nth_error (calls timedOut) first
                   = Some {| promise := Rejected "OSC message timeout";
                             callbackId := (callbackIdCounter this + 1 + 0)%nat;
                             timerArmed := false |}).
  { rewrite Htimed. cbn [calls]. rewrite !update_call_same.
    pose proof (Hwaiting 0%nat ltac:(lia)) as H0. rewrite Nat.add_0_r in H0.
    now rewrite H0. }
  split; [|split].
  - subst final. unfold promiseOf. rewrite deliver_frame.
    + now rewrite Hfirst.
    + rewrite Htimed. cbn [globalOSCCallbacks]. intros k' v' Hin.
      unfold queued in Hin. apply in_map_iff in Hin.
      destruct Hin as (i & E & Hi). apply in_seq in Hi. injection E as _ <-. lia.
  - now rewrite Htimed.
  - intros j m Hj. subst final.
    apply (deliver_in_order JSON_parse messages timedOut (callbackIdCounter this)
             first 1 k); auto.
    + now rewrite Htimed.
    + intros i Hi. rewrite Htimed. cbn [calls].
      rewrite !update_call_other by lia. rewrite Hwaiting by lia. eauto.
    + lia.
Qed.
End TimeoutThenReplies.

Section TimeoutThenRepliesExample.
Import Transport.

Lemma timeout_shifts_replies_witness :
  globalOSCCallbacks initial = []
  /\ promiseOf
       (deliver (fun _ => None) [{| address := "/reply/a"; args := [] |}]
          (timeoutFires 0 (snd (sendAll [("/a", []); ("/b", [])] newClient initial)))) 1
     = Some (Resolved (JArr [])).
Proof.
  split; [reflexivity|].
  destruct (timeout_shifts_replies (fun _ => None) newClient initial
              [("/a", []); ("/b", [])] [{| address := "/reply/a"; args := [] |}]
              eq_refl ltac:(cbn; lia) ltac:(repeat constructor)) as (_ & _ & Hshift).
  exact (Hshift 0%nat {| address := "/reply/a"; args := [] |} eq_refl).
Defined.
End TimeoutThenRepliesExample.

(* ===================================================================== *)
(** * More on the protocol client                                         *)
(* ===================================================================== *)

Section ClientNeverRaises.
Import Async QLabOSCClient.
Local Open Scope Z_scope.

Lemma try_catch_returns {T A : Type} (body : M T A) (handler : string -> M T A) :
  (forall e s, exists v s', handler e s = (Return v, s')) ->
  forall s, exists v s', try_catch body handler s = (Return v, s').
Proof.
  intros Hh s. unfold try_catch.
  destruct (body s) as [[v|e] s']; [eauto | apply Hh].
Qed.

Lemma getActiveCue_returns env c :
  exists v env1 c1, getActiveCue (env, c) = (Return v, (env1, c1)).
Proof.
  assert (H : exists v s, getActiveCue (env, c) = (Return v, s)).
  { apply try_catch_returns. intros e s. unfold ret. eauto. }
  destruct H as (v & [env1 c1] & H). eauto.
Qed.

Lemma setActiveWorkspace_returns workspaceId env c :
  exists b env1 c1, setActiveWorkspace workspaceId (env, c) = (Return b, (env1, c1)).
Proof.
  assert (H : exists b s, setActiveWorkspace workspaceId (env, c) = (Return b, s)).
  { apply try_catch_returns. intros e s. unfold ret. eauto. }
  destruct H as (b & [env1 c1] & H). eauto.
Qed.

(** No query or command of the client lets an exception out: whatever the
    device answers, or fails to answer, each of them returns a value. *)
Theorem client_never_raises (env : Env) (c : QLabOSCClient.t) :
  (exists v s, getSelectedCue (env, c) = (Return v, s))
  /\ (exists v s, getActiveCue (env, c) = (Return v, s))
  /\ (exists v s, getNextCue (env, c) = (Return v, s))
  /\ (forall w, exists b s, setActiveWorkspace w (env, c) = (Return b, s))
  /\ (forall path, exists b s, command path (env, c) = (Return b, s)).
Proof.
  split; [|split; [|split; [|split]]].
  - apply try_catch_returns. intros e [env' c']. async_unfold.
    destruct (usable _ _ _ 10000); eauto.
  - apply try_catch_returns. intros e s. unfold ret. eauto.
  - unfold getNextCue. unfold bind at 1. unfold Date_now at 1. cbn [fst].
    apply try_catch_returns. intros e [env' c']. async_unfold.
    destruct (usable _ _ _ 10000); eauto.
  - intros w. apply try_catch_returns. intros e s. unfold ret. eauto.
  - intros path. apply try_catch_returns. intros e s. unfold ret. eauto.
Qed.

(** A command is one fire-and-forget message on the workspace-scoped
    address.  It answers [true] exactly when the port takes the message,
    without waiting for the device: the clock does not move and the client
    is left as it was. *)
Theorem command_sends_once (path : string) (env : Env) (c : QLabOSCClient.t) :
  let taken := accepted false (upcoming 0 env) in
  let result := command path (env, c) in
  fst result = Return taken
  /\ outbox (fst (snd result))
     = outbox env ++ (if taken
                      then [{| sent_address := scoped c path; sent_args := [];
                               sent_expectReply := false |}]
                      else [])
  /\ clock (fst (snd result)) = clock env
  /\ snd (snd result) = c.
Proof.
  unfold command. async_unfold. unfold sendOSCMessage, upcoming. cbn [fst snd].
  destruct (script env) as [|[e|dt data|dt|] rest]; cbn [nth accepted negb fst snd outbox clock];
    rewrite ?Z.add_0_r, ?app_nil_r; try (repeat split; reflexivity).
  destruct data; repeat split; reflexivity.
Qed.
End ClientNeverRaises.

Section CacheLifetime.
Import Async QLabOSCClient.
Local Open Scope Z_scope.
Local Open Scope async_scope.

(** A query that finds no fresh cached cue goes to the device: it uses up
    one settlement of the script. *)
Lemma getSelectedCue_fetches env c :
  usable (selectedCueCache c) (clock env) (lastSelectedUpdate c) (cacheTimeout c) = None ->
  script (fst (snd (getSelectedCue (env, c)))) = tl (script env).
Proof.
  intros Hstale.
  unfold getSelectedCue. async_unfold. rewrite Hstale.
  assert (Hs : script (fst (snd (sendOSCMessage
                 (scoped c "/cue/selected/valuesForKeys")
                 [JStr valuesForKeys] true (env, c)))) = tl (script env)).
  { unfold sendOSCMessage. cbn [fst snd].
    destruct (script env) as [|[e|dt [| | | | | |]|dt|] rest]; reflexivity. }
  destruct (sendOSCMessage _ _ true (env, c)) as [[result|e] [env1 c1]];
    cbn [fst snd] in *.
  - destruct (truthy (pickSelected result)); [exact Hs|].
    unfold logStringified, throw, ret.
    destruct result; cbn [fst snd]; try exact Hs.
    destruct (usable _ _ _ 10000); exact Hs.
  - destruct (usable _ _ _ 10000); exact Hs.
Qed.

(** What an answered selected-cue query leaves behind. *)
Lemma getSelectedCue_answered env c dt1 data rest :
  usable (selectedCueCache c) (clock env) (lastSelectedUpdate c) (cacheTimeout c) = None ->
  script env = Replied dt1 data :: rest ->
  data <> JNull -> data <> JUndefined ->
  let v := if truthy (pickSelected data) then describeSelected (pickSelected data)
           else placeholder "No selection" in
  getSelectedCue (env, c)
  = (Return v,
     ({| clock := clock env + dt1;
         outbox := outbox env
                   ++ [{| sent_address := scoped c "/cue/selected/valuesForKeys";
                          sent_args := [JStr valuesForKeys];
                          sent_expectReply := true |}];
         script := rest |},
      set_selected (Some v) (clock env) c)).
Proof.
  intros Hstale Hscript Hnull Hundef v. subst v.
  unfold getSelectedCue. async_unfold. rewrite Hstale.
  unfold sendOSCMessage. cbn [fst snd]. rewrite Hscript. cbn [tl].
  destruct data; try congruence; cbn [fst snd];
    match goal with
    | |- context [truthy (pickSelected ?d)] =>
        destruct (truthy (pickSelected d)); reflexivity
    end.
Qed.

(** The one-second lifetime of a cached selected cue runs from the moment
    the query that fetched it was made, the time the device took to answer
    included.  A second query made before that moment plus [cacheTimeout]
    gets the same answer and sends nothing; one made at that time or later
    goes to the device again. *)
Theorem getSelectedCue_lifetime (env : Env) (c : QLabOSCClient.t)
    (dt1 dt : Z) (data : JSValue) (rest : list Settlement) :
  usable (selectedCueCache c) (clock env) (lastSelectedUpdate c) (cacheTimeout c) = None ->
  script env = Replied dt1 data :: rest ->
  data <> JNull -> data <> JUndefined ->
  let first := getSelectedCue (env, c) in
  let second := (sleep dt ;; getSelectedCue) (snd first) in
  lastSelectedUpdate (snd (snd first)) = clock env
  /\ (dt1 + dt < cacheTimeout c ->
      fst second = fst first
      /\ outbox (fst (snd second)) = outbox (fst (snd first))
      /\ snd (snd second) = snd (snd first))
  /\ (cacheTimeout c <= dt1 + dt ->
      script (fst (snd second)) = tl rest).
Proof.
  intros Hstale Hscript Hnull Hundef first second.
  pose proof (getSelectedCue_answered env c dt1 data rest Hstale Hscript Hnull Hundef)
    as Hfirst.
  cbv zeta in Hfirst. fold first in Hfirst.
  subst second. rewrite Hfirst. cbn [fst snd].
  split; [reflexivity|].
  unfold bind, sleep. cbn [fst snd clock outbox script].
  split.
  - intros Hfresh.
    rewrite getSelectedCue_cached with (cached :=
      if truthy (pickSelected data) then describeSelected (pickSelected data)
      else placeholder "No selection").
    + cbn [fst snd outbox]. auto.
    + reflexivity.
    + cbn [clock lastSelectedUpdate set_selected cacheTimeout]. lia.
  - intros Hold.
    rewrite getSelectedCue_fetches; [reflexivity|].
    cbn [clock selectedCueCache lastSelectedUpdate set_selected cacheTimeout usable].
    replace (clock env + dt1 + dt - clock env <? cacheTimeout c) with false; [reflexivity|].
    symmetry. apply Z.ltb_ge. lia.
Qed.

Lemma getSelectedCue_lifetime_witness :
  let first := getSelectedCue (lastCueSelected, new) in
  let second := (sleep 900 ;; getSelectedCue) (snd first) in
  lastSelectedUpdate (snd (snd first)) = 5000
  /\ (20 + 900 < 1000 ->
      fst second = fst first
      /\ outbox (fst (snd second)) = outbox (fst (snd first))
      /\ snd (snd second) = snd (snd first))
  /\ (1000 <= 20 + 900 -> script (fst (snd second)) = tl (tl (script lastCueSelected))).
Proof.
  apply (getSelectedCue_lifetime lastCueSelected new 20 900
           (JObj [("uniqueID", JStr "B"); ("number", JStr "2")])
           [Replied 25
              (JArr [JObj [("cues", JArr [JObj [("uniqueID", JStr "A")];
                                          JObj [("uniqueID", JStr "B")]])]])]);
    [reflexivity | reflexivity | discriminate | discriminate].
Defined.
End CacheLifetime.

(* ===================================================================== *)
(** * The fallback, invalidation and pool lemmas at concrete inputs       *)
(* ===================================================================== *)

Section LemmaInstances.
Import Async.
Local Open Scope Z_scope.

(** The selected cue cached at 3000 ms answers a query at 5000 ms whose
    reply carries a non-ok status. *)
Lemma getSelectedCue_stale_fallback_witness :
  fst (QLabOSCClient.getSelectedCue
         ({| clock := 5000; outbox := []; script := [ReplyError 40] |}, warmClient))
  = Return runningCue.
Proof.
  exact (proj1 (getSelectedCue_stale_fallback
                  {| clock := 5000; outbox := []; script := [ReplyError 40] |}
                  warmClient runningCue eq_refl eq_refl eq_refl)).
Defined.

(** The selected-cue query is answered and the cue-list request times out:
    the next cue cached at 3000 ms is the answer at 5000 ms. *)
Lemma getNextCue_stale_fallback_witness :
  fst (QLabOSCClient.getNextCue
         ({| clock := 5000; outbox := [];
             script := [Replied 20 (JObj [("uniqueID", JStr "B")]); TimedOut] |},
          warmClient))
  = Return runningCue.
Proof.
  exact (getNextCue_stale_fallback
           {| clock := 5000; outbox := [];
              script := [Replied 20 (JObj [("uniqueID", JStr "B")]); TimedOut] |}
           warmClient runningCue _ _ _ eq_refl eq_refl eq_refl eq_refl eq_refl).
Defined.

(** [play] on a wrapper whose client has its three caches filled. *)
Lemma invalidating_clears_witness :
  let c' := QLabClientWrapper.client
              (snd (snd (QLabClientWrapper.perform QLabClientWrapper.Play
                           (idle, warmWrapper)))) in
  QLabOSCClient.selectedCueCache c' = None
  /\ QLabOSCClient.activeCueCache c' = None
  /\ QLabOSCClient.nextCueCache c' = None
  /\ QLabOSCClient.lastSelectedUpdate c' = 0
  /\ QLabOSCClient.lastActiveUpdate c' = 0
  /\ QLabOSCClient.lastNextUpdate c' = 0.
Proof.
  apply (invalidating_clears QLabClientWrapper.Play idle warmWrapper).
  left. reflexivity.
Defined.

End LemmaInstances.

(* ===================================================================== *)
(** * Workspaces and the flat cue list                                    *)
(* ===================================================================== *)

Section SendFacts.
Import Async.

(** Awaiting a message changes nothing in the object of the method. *)
Lemma send_keeps_object {T : Type} addr arguments expectReply (s : Env * T) :
  snd (snd (sendOSCMessage addr arguments expectReply s)) = snd s.
Proof.
  unfold sendOSCMessage.
  destruct (script (fst s)) as [|[e|dt [| | | | | |]|dt|] rest];
    destruct expectReply; reflexivity.
Qed.

(** A query that is not answered raises. *)
Lemma query_refused {T : Type} addr arguments (env : Env) (t : T) :
  accepted true (upcoming 0 env) = false ->
  exists e env', sendOSCMessage addr arguments true (env, t) = (Throw e, (env', t)).
Proof.
  unfold accepted, upcoming, sendOSCMessage. cbn [fst snd].
  destruct (script env) as [|[e|dt [| | | | | |]|dt|] rest]; cbn [nth negb];
    intros Hno; try discriminate; eauto.
Qed.

(** An answered query returns the data of the reply. *)
Lemma query_answered {T : Type} addr arguments (env : Env) (t : T) dt data rest :
  script env = Replied dt data :: rest ->
  data <> JNull ->
  sendOSCMessage addr arguments true (env, t)
  = (Return data,
     ({| clock := (clock env + dt)%Z;
         outbox := outbox env ++ [{| sent_address := addr; sent_args := arguments;
                                     sent_expectReply := true |}];
         script := rest |}, t)).
Proof.
  intros Hs Hd. unfold sendOSCMessage. cbn [fst snd]. rewrite Hs. cbn [tl].
  destruct data; congruence.
Qed.
End SendFacts.

Section Workspaces.
Import Async QLabOSCClientLists.

Lemma describeWorkspaces_length result workspaces :
  describeWorkspaces result = Return workspaces ->
  List.length workspaces = List.length result.
Proof.
  revert workspaces. induction result as [|ws rest IH]; intros workspaces.
  - cbn. intros [= <-]. reflexivity.
  - cbn [describeWorkspaces].
    destruct (prop ws "displayName"), (prop ws "uniqueID"), (prop ws "hasPasscode");
      try discriminate.
    destruct (describeWorkspaces rest) as [others|e]; [|discriminate].
    intros [= <-]. cbn [List.length]. f_equal. now apply IH.
Qed.

Lemma describeWorkspaces_returns result :
  Forall (fun ws => ws <> JUndefined /\ ws <> JNull) result ->
  exists workspaces, describeWorkspaces result = Return workspaces.
Proof.
  induction 1 as [|ws rest [Hu Hn] _ IH]; [now eexists|].
  destruct IH as (others & IH). cbn [describeWorkspaces]. rewrite IH.
  destruct ws; try congruence; cbn [prop]; now eexists.
Qed.

(** [getWorkspaces] never raises and never answers an empty list, and it
    leaves the client as it was.  When the query is not answered, or is
    answered with anything but a non-empty array, the list is the single
    default workspace with the empty id; a non-empty array of objects
    whose items are neither [null] nor [undefined] gives one workspace per
    item. *)
Theorem getWorkspaces_answers (env : Env) (c : QLabOSCClient.t) :
  exists workspaces env',
    getWorkspaces (env, c) = (Return workspaces, (env', c))
    /\ workspaces <> []
    /\ (accepted true (upcoming 0 env) = false -> workspaces = [defaultWorkspace])
    /\ (forall dt data,
          upcoming 0 env = Replied dt data ->
          match data with
          | JArr (first :: rest) =>
              Forall (fun ws => ws <> JUndefined /\ ws <> JNull) (first :: rest) ->
              describeWorkspaces (first :: rest) = Return workspaces
          | _ => workspaces = [defaultWorkspace]
          end).
Proof.
  unfold getWorkspaces. async_unfold.
  pose proof (send_keeps_object (T := QLabOSCClient.t) "/workspaces" [] true (env, c))
    as Hobj.
  assert (Hdata : forall dt data, upcoming 0 env = Replied dt data -> data <> JNull ->
            fst (sendOSCMessage (T := QLabOSCClient.t) "/workspaces" [] true (env, c))
            = Return data).
  { intros dt data Hup Hd. unfold upcoming in Hup.
    destruct (script env) as [|h rest] eqn:Hs; cbn [nth] in Hup; [discriminate|].
    subst h. now rewrite (query_answered _ _ _ _ _ _ _ Hs Hd). }
  assert (Hrefused : forall e,
            fst (sendOSCMessage (T := QLabOSCClient.t) "/workspaces" [] true (env, c))
            = Throw e ->
            forall dt data, upcoming 0 env = Replied dt data -> data = JNull).
  { intros e He dt data Hup. destruct data; try reflexivity;
      rewrite (Hdata _ _ Hup) in He; discriminate. }
  assert (Haccepted : forall result,
            fst (sendOSCMessage (T := QLabOSCClient.t) "/workspaces" [] true (env, c))
            = Return result ->
            accepted true (upcoming 0 env) = true
            /\ forall dt data, upcoming 0 env = Replied dt data -> data = result).
  { intros result Hres.
    destruct (accepted true (upcoming 0 env)) eqn:Hacc.
    - split; [reflexivity|]. intros dt data Hup.
      assert (Hd : data <> JNull).
      { intros ->. rewrite Hup in Hacc. discriminate. }
      rewrite (Hdata _ _ Hup Hd) in Hres. congruence.
    - destruct (query_refused (T := QLabOSCClient.t) "/workspaces" [] env c Hacc)
        as (e & env' & He). rewrite He in Hres. discriminate. }
  destruct (sendOSCMessage "/workspaces" [] true (env, c)) as [[result|e] [env1 c1]];
    cbn [fst snd] in *; subst c1.
  - destruct (Haccepted result eq_refl) as (Hacc & Hsame).
    destruct result as [| | | | |[|first rest]|];
      try (exists [defaultWorkspace], env1;
           split; [reflexivity|]; split; [discriminate|]; split; [reflexivity|];
           intros dt data Hup; rewrite (Hsame _ _ Hup); reflexivity).
    unfold QLabOSCClient.lift. cbn [fst snd].
    destruct (describeWorkspaces (first :: rest)) as [workspaces|e] eqn:Hd; cbn [fst snd].
    + exists workspaces, env1. split; [reflexivity|]. split.
      { intros ->. apply describeWorkspaces_length in Hd. discriminate. }
      split; [rewrite Hacc; discriminate|].
      intros dt data Hup. rewrite (Hsame _ _ Hup). intros _. exact Hd.
    + exists [defaultWorkspace], env1. split; [reflexivity|]. split; [discriminate|].
      split; [reflexivity|].
      intros dt data Hup. rewrite (Hsame _ _ Hup). intros Hall.
      destruct (describeWorkspaces_returns _ Hall) as (ws & Hws). congruence.
  - exists [defaultWorkspace], env1. split; [reflexivity|]. split; [discriminate|].
    split; [reflexivity|].
    intros dt data Hup. rewrite (Hrefused e eq_refl _ _ Hup). reflexivity.
Qed.
End Workspaces.

Section Flattening.
Import Async QLabOSCClientLists.
Variable objectAsList : list (string * JSValue) -> nat -> Outcome (list Entry).

(** The turn of the loop for an object, by what it has under [cues]. *)
Lemma processCue_object depth i fields :
  processCue objectAsList depth i (JObj fields)
  = match below objectAsList depth (assoc "cues" fields) with
    | Return under => Return (entryOf depth i (JObj fields) :: under)
    | Throw e => Throw e
    end.
Proof.
  cbn [processCue].
  match goal with
  | |- match ?f fields with _ => _ end = _ =>
      assert (Hin : f fields = below objectAsList depth (assoc "cues" fields))
  end; [|now rewrite Hin].
  induction fields as [|[k v] rest IH]; [reflexivity|].
  cbn [assoc]. destruct (k =? "cues")%string; [|exact IH].
  unfold below, processCueList.
  destruct v as [| |b|n|s|items|lengthy]; cbn [truthy]; try reflexivity.
  - destruct b; reflexivity.
  - destruct (n =? 0)%Z; reflexivity.
  - destruct s; reflexivity.
  - generalize O. induction items as [|c l IHl]; intros j; [reflexivity|].
    cbn [processItems]. rewrite IHl. reflexivity.
Qed.

Lemma wellFormed_object fields :
  wellFormed (JObj fields)
  = match assoc "cues" fields with
    | JArr items => forallb wellFormed items
    | JObj _ => false
    | _ => true
    end.
Proof.
  cbn [wellFormed].
  induction fields as [|[k v] rest IH]; [reflexivity|].
  cbn [assoc]. destruct (k =? "cues")%string; [|exact IH].
  destruct v; reflexivity.
Qed.

Lemma cueCount_object fields :
  cueCount (JObj fields)
  = S match assoc "cues" fields with
      | JArr items => list_sum (List.map cueCount items)
      | JStr s => String.length s
      | _ => O
      end.
Proof.
  cbn [cueCount]. f_equal.
  induction fields as [|[k v] rest IH]; [reflexivity|].
  cbn [assoc]. destruct (k =? "cues")%string; [|exact IH].
  destruct v as [| |b|n|s|items|lengthy]; try reflexivity.
  induction items as [|c l IHl]; [reflexivity|].
  cbn [List.map list_sum]. now rewrite IHl.
Qed.

(** Induction over a value and the values inside it. *)
Lemma JSValue_nested_ind (P : JSValue -> Prop) :
  P JUndefined -> P JNull -> (forall b, P (JBool b)) -> (forall n, P (JNum n)) ->
  (forall s, P (JStr s)) ->
  (forall items, (forall x, In x items -> P x) -> P (JArr items)) ->
  (forall fields, (forall k v, In (k, v) fields -> P v) -> P (JObj fields)) ->
  forall v, P v.
Proof.
  intros Hu Hn Hb Hz Hs Ha Ho.
  fix IH 1. intros [| |b|n|s|items|fields].
  - exact Hu.
  - exact Hn.
  - apply Hb.
  - apply Hz.
  - apply Hs.
  - apply Ha. induction items as [|c l IHl]; intros x [].
    + subst x. apply IH.
    + now apply IHl.
  - apply Ho. induction fields as [|[k0 v0] l IHl]; intros k v [].
    + replace v with v0 by congruence. apply IH.
    + now apply (IHl k).
Qed.

Lemma assoc_In name fields :
  assoc name fields = JUndefined \/ exists k, In (k, assoc name fields) fields.
Proof.
  induction fields as [|[k v] rest IH]; [now left|].
  cbn [assoc]. destruct (k =? name)%string.
  - right. exists k. now left.
  - destruct IH as [IH|(k' & IH)]; [now left|]. right. exists k'. now right.
Qed.

Lemma indented_weaken d e : indented (S d) e -> indented d e.
Proof. unfold indented. intros (Hd & Hp & Ht). repeat split; auto. lia. Qed.

Lemma indented_entryOf d i cue : indented d (entryOf d i cue).
Proof. unfold indented, entryOf. cbn. auto. Qed.

Lemma atDepth_deeper d es : Forall (indented (S d)) es -> atDepth d es = [].
Proof.
  induction 1 as [|e es (Hd & _) _ IH]; [reflexivity|].
  unfold atDepth in *. cbn [filter].
  replace (depth e =? d)%nat with false; [exact IH|].
  symmetry. apply Nat.eqb_neq. lia.
Qed.

Lemma characters_flat d s i :
  List.length (characters d s i) = String.length s
  /\ Forall (indented d) (characters d s i).
Proof.
  revert i. induction s as [|ch rest IH]; intros i; cbn [characters String.length].
  - split; [reflexivity | constructor].
  - destruct (IH (S i)) as (Hl & Hf). split.
    + cbn [List.length]. now rewrite Hl.
    + constructor; [apply indented_entryOf | exact Hf].
Qed.

(** A well-formed cue gives its own entry followed by the entries of what is
    below it, one level deeper; a well-formed array gives the entries of its
    items in order. *)
Lemma flatten_value v :
  (forall d i, wellFormed v = true ->
     exists under,
       processCue objectAsList d i v = Return (entryOf d i v :: under)
       /\ S (List.length under) = cueCount v
       /\ Forall (indented (S d)) under)
  /\ (forall items, v = JArr items -> forall d i,
        forallb wellFormed items = true ->
        exists es,
          processItems objectAsList d items i = Return es
          /\ List.length es = list_sum (List.map cueCount items)
          /\ Forall (indented d) es
          /\ atDepth d es = itemsOf d i items).
Proof.
  induction v as [| |b|n|s|items IH|fields IH] using JSValue_nested_ind;
    (split; [intros d i Hwf | intros items' Heq; try discriminate]);
    try discriminate;
    try (exists []; repeat split; constructor).
  - (* the items of an array *)
    injection Heq as <-.
    induction items as [|c l IHl]; intros d i Hall.
    + exists []. repeat split; constructor.
    + cbn [forallb] in Hall. apply andb_prop in Hall as (Hc & Hl).
      destruct (IH c (or_introl eq_refl)) as (Hcue & _).
      destruct (Hcue d i Hc) as (under & Hrun & Hcount & Hdeep).
      destruct (IHl (fun x Hx => IH x (or_intror Hx)) d (S i) Hl)
        as (es & Hrest & Hlen & Hind & Htop).
      exists ((entryOf d i c :: under) ++ es).
      cbn [processItems]. rewrite Hrun, Hrest.
      split; [reflexivity|]. split; [|split].
      * cbn [List.map List.length app]. rewrite length_app.
        unfold list_sum in *. cbn [fold_right]. lia.
      * apply Forall_app. split; [|exact Hind].
        constructor; [apply indented_entryOf|].
        eapply Forall_impl; [|exact Hdeep]. intros e. apply indented_weaken.
      * unfold atDepth in *. rewrite filter_app. cbn [filter].
        unfold entryOf at 1. cbn [depth]. rewrite Nat.eqb_refl.
        fold (atDepth d under). rewrite (atDepth_deeper _ _ Hdeep).
        cbn [app]. rewrite Htop. reflexivity.
  - (* an object *)
    rewrite wellFormed_object in Hwf.
    rewrite processCue_object, cueCount_object. unfold below, processCueList.
    destruct (assoc_In "cues" fields) as [Hnone|(k & Hin)].
    + rewrite Hnone. cbn [truthy]. exists []. repeat split; constructor.
    + destruct (assoc "cues" fields) as [| |b|n|s|items|lengthy] eqn:Hcues;
        try discriminate; cbn [truthy];
        try (exists []; repeat split; constructor).
      * destruct b; exists []; repeat split; constructor.
      * destruct (n =? 0)%Z; exists []; repeat split; constructor.
      * destruct (characters_flat (S d) s O) as (Hl & Hf).
        exists (characters (S d) s O). split; [|split].
        -- destruct s; reflexivity.
        -- now rewrite Hl.
        -- exact Hf.
      * destruct (IH k _ Hin) as (_ & Hlist).
        destruct (Hlist items eq_refl (S d) O Hwf) as (es & Hrun & Hlen & Hind & _).
        exists es. rewrite Hrun. repeat split; auto.
Qed.

(** Flattening a well-formed cue list returns, and keeps every cue: the flat
    list has one entry per cue of the tree, each at the depth of its cue or
    deeper and indented by its own depth, and the entries at the depth of
    the list itself are its items, in order, with their index. *)
Theorem processCueList_flattens (items : list JSValue) (d : nat) :
  forallb wellFormed items = true ->
  exists es,
    processCueList objectAsList (JArr items) d = Return es
    /\ List.length es = list_sum (List.map cueCount items)
    /\ Forall (indented d) es
    /\ atDepth d es = itemsOf d 0 items.
Proof.
  intros Hall.
  destruct (flatten_value (JArr items)) as (_ & Hlist).
  exact (Hlist items eq_refl d O Hall).
Qed.

(** An item that is [null] or [undefined] makes the loop raise, wherever it
    is in the array. *)
Lemma processItems_null d items i x :
  In x items -> x = JNull \/ x = JUndefined ->
  exists e, processItems objectAsList d items i = Throw e.
Proof.
  intros Hin Hx. revert i. induction items as [|c l IH]; intros i; [destruct Hin|].
  cbn [processItems].
  destruct (processCue objectAsList d i c) as [es|e] eqn:Hc; [|now eexists].
  destruct Hin as [->|Hin].
  - destruct Hx as [->| ->]; discriminate.
  - destruct (IH Hin (S i)) as (e & ->). now eexists.
Qed.

Lemma forEachCueList_null items x :
  In x items -> x = JNull \/ x = JUndefined ->
  exists e, forEachCueList objectAsList items = Throw e.
Proof.
  intros Hin Hx. induction items as [|c l IH]; [destruct Hin|].
  cbn [forEachCueList].
  destruct Hin as [->|Hin].
  - destruct Hx as [->| ->]; now eexists.
  - destruct (prop c "cues") as [cues|]; [|now eexists].
    destruct (processCueList objectAsList cues 0) as [es|e]; [|now eexists].
    destruct (IH Hin) as (e & ->). now eexists.
Qed.
End Flattening.

Section FlatteningExamples.
Import Async QLabOSCClientLists.

Lemma processCueList_flattens_witness :
  forallb wellFormed sampleCueList = true
  /\ exists es,
       processCueList (fun _ _ => Return []) (JArr sampleCueList) 0 = Return es
       /\ List.length es = 4%nat
       /\ Forall (indented 0) es
       /\ atDepth 0 es = itemsOf 0 0 sampleCueList.
Proof.
  split; [reflexivity|].
  apply (processCueList_flattens (fun _ _ => Return []) sampleCueList 0).
  reflexivity.
Defined.
End FlatteningExamples.

Section AllCues.
Import Async QLabOSCClientLists.
Variable objectAsList : list (string * JSValue) -> nat -> Outcome (list Entry).

(** Every path through [getAllCues] ends in a list with an entry. *)
Lemma getAllCues_returns (env : Env) (c : QLabOSCClient.t) :
  exists es env',
    getAllCues objectAsList (env, c) = (Return es, (env', c))
    /\ es <> []
    /\ (accepted true (upcoming 0 env) = false ->
        es = [errorCues] /\ List.length (outbox env') <= S (List.length (outbox env))).
Proof.
  unfold getAllCues. async_unfold.
  destruct (accepted true (upcoming 0 env)) eqn:Hacc.
  - pose proof (send_keeps_object (T := QLabOSCClient.t)
                  (QLabOSCClient.scoped c "/cueLists") [] true (env, c)) as Hobj.
    destruct (sendOSCMessage _ [] true (env, c)) as [[result|e] [env1 c1]];
      cbn [fst snd] in *; subst c1;
      [|exists [errorCues], env1; split; [reflexivity|]; split; discriminate].
    destruct result as [| |b|n|s|[|first rest]|fields];
      try (destruct (truthy first
                     && strict_eq (QLabOSCClient.field first "type") (JStr "Cue List"));
           [|destruct (truthy first && truthy (QLabOSCClient.field first "cues")
                       && isArray (QLabOSCClient.field first "cues"))]).
    all: try (pose proof (send_keeps_object (T := QLabOSCClient.t)
                    (QLabOSCClient.scoped c "/cue_id/1/children") [] true (env1, c)) as Hobj;
              destruct (sendOSCMessage _ [] true (env1, c)) as [[[| | | | | |]|e] [env2 c2]];
              cbn [fst snd] in *; subst c2).
    all: unfold QLabOSCClient.lift;
      try match goal with
          | |- context [processCueList ?f ?v ?d] =>
              destruct (processCueList f v d) as [[|x xs]|e']
          | |- context [forEachCueList ?f ?l] =>
              destruct (forEachCueList f l) as [[|x xs]|e']
          end;
      eexists _, _; (split; [reflexivity|]); split; discriminate.
  - destruct (query_refused (T := QLabOSCClient.t)
                (QLabOSCClient.scoped c "/cueLists") [] env c Hacc) as (e & env' & Hsend).
    rewrite Hsend. cbn [fst snd].
    exists [errorCues], env'. split; [reflexivity|]. split; [discriminate|].
    intros _. split; [reflexivity|].
    assert (Hout : List.length (outbox (fst (snd (sendOSCMessage (T := QLabOSCClient.t)
                     (QLabOSCClient.scoped c "/cueLists") [] true (env, c)))))
                   <= S (List.length (outbox env))).
    { unfold sendOSCMessage. cbn [fst snd].
      destruct (script env) as [|[e0|dt [| | | | | |]|dt|] rest0]; cbn [fst snd outbox];
        rewrite ?length_app; cbn [List.length]; lia. }
    rewrite Hsend in Hout. exact Hout.
Qed.

(** [getAllCues] never raises, never answers an empty list and leaves the
    client as it was: with no cue found the list is the "No cues available"
    entry, and when the cue-list query is not answered it is the "Error
    loading cues" entry, without the second address being tried. *)
Theorem getAllCues_answers (env : Env) (c : QLabOSCClient.t) :
  exists es env',
    getAllCues objectAsList (env, c) = (Return es, (env', c))
    /\ es <> []
    /\ (accepted true (upcoming 0 env) = false ->
        es = [errorCues] /\ List.length (outbox env') <= S (List.length (outbox env)))
    /\ (forall dt1 dt2 rest,
          script env = Replied dt1 (JArr []) :: Replied dt2 (JArr []) :: rest ->
          es = [noCues]).
Proof.
  destruct (getAllCues_returns env c) as (es & env' & Hrun & Hne & Hfail).
  exists es, env'. split; [exact Hrun|]. split; [exact Hne|]. split; [exact Hfail|].
  intros dt1 dt2 rest Hscript.
  unfold getAllCues in Hrun. revert Hrun. async_unfold.
  rewrite (query_answered _ _ _ _ _ _ _ Hscript) by discriminate.
  rewrite (query_answered (T := QLabOSCClient.t) (QLabOSCClient.scoped c "/cue_id/1/children")
             [] {| clock := (clock env + dt1)%Z;
                   outbox := outbox env
                             ++ [{| sent_address := QLabOSCClient.scoped c "/cueLists";
                                    sent_args := []; sent_expectReply := true |}];
                   script := Replied dt2 (JArr []) :: rest |} c dt2 (JArr []) rest eq_refl)
    by discriminate.
  cbn. intros [= <- _]. reflexivity.
Qed.

(** One item of the reply that is [null] loses the whole list: the answer
    is the "Error loading cues" entry alone, whatever the other items
    hold. *)
Theorem getAllCues_null_item (env : Env) (c : QLabOSCClient.t)
    (dt : Z) (items : list JSValue) (rest : list Settlement) (x : JSValue) :
  script env = Replied dt (JArr items) :: rest ->
  In x items -> x = JNull \/ x = JUndefined ->
  fst (getAllCues objectAsList (env, c)) = Return [errorCues].
Proof.
  intros Hscript Hin Hx.
  unfold getAllCues. async_unfold.
  rewrite (query_answered _ _ _ _ _ _ _ Hscript) by discriminate.
  destruct items as [|first others]; [destruct Hin|].
  destruct (processItems_null objectAsList 0 (first :: others) 0 x Hin Hx) as (e1 & H1).
  destruct (forEachCueList_null objectAsList (first :: others) x Hin Hx) as (e2 & H2).
  unfold QLabOSCClient.lift, processCueList.
  destruct (truthy first && strict_eq (QLabOSCClient.field first "type") (JStr "Cue List"));
    [rewrite H1; reflexivity|].
  destruct (truthy first && truthy (QLabOSCClient.field first "cues")
            && isArray (QLabOSCClient.field first "cues"));
    [rewrite H2 | rewrite H1]; reflexivity.
Qed.
End AllCues.

Section AllCuesExamples.
Import Async QLabOSCClientLists.
Local Open Scope Z_scope.

Lemma getAllCues_null_item_witness :
  fst (getAllCues (fun _ _ => Return [])
         ({| clock := 1000; outbox := [];
             script := [Replied 30 (JArr [JObj [("uniqueID", JStr "A")]; JNull])] |},
          QLabOSCClient.new))
  = Return [errorCues].
Proof.
  apply (getAllCues_null_item (fun _ _ => Return [])
           {| clock := 1000; outbox := [];
              script := [Replied 30 (JArr [JObj [("uniqueID", JStr "A")]; JNull])] |}
           QLabOSCClient.new 30 [JObj [("uniqueID", JStr "A")]; JNull] [] JNull);
    [reflexivity | right; left; reflexivity | left; reflexivity].
Defined.
End AllCuesExamples.

(* ===================================================================== *)
(** * The wrapper's cue mirror                                            *)
(* ===================================================================== *)

Section CueMirror.
Import Async QLabClientWrapperState.
Local Open Scope Z_scope.
Local Open Scope async_scope.
Variable String_ : JSValue -> string.

(** [getCueInfo] always answers the eight-item array, made from the answer
    of [getSelectedCue]; the error pair is never built. *)
Lemma getCueInfo_returns env c :
  exists sel env1 c1 env2 c2,
    QLabOSCClient.getSelectedCue (env, c) = (Return sel, (env1, c1))
    /\ QLabOSCClientLists.getCueInfo (env, c)
       = (Return (JArr [js_or (QLabOSCClient.id sel) (JStr "");
                        js_or (QLabOSCClient.number sel) (JStr "");
                        js_or (QLabOSCClient.name sel) (JStr "");
                        js_or (QLabOSCClient.type sel) (JStr "");
                        JStr ""; JStr ""; JStr ""; JStr ""]),
          (env2, c2)).
Proof.
  destruct (getSelectedCue_returns env c) as (sel & env1 & c1 & Hsel).
  destruct (getActiveCue_returns env1 c1) as (act & env2 & c2 & Hact).
  exists sel, env1, c1, env2, c2. split; [exact Hsel|].
  unfold QLabOSCClientLists.getCueInfo, try_catch, bind.
  rewrite Hsel, Hact. reflexivity.
Qed.

(** What a refresh that is not held back does. *)
Lemma updateCueInfo_runs env w :
  cacheTimeout w <= clock env - lastCueUpdate w ->
  exists sel env1 c1 env2 c2,
    QLabOSCClient.getSelectedCue (env, client w) = (Return sel, (env1, c1))
    /\ updateCueInfo String_ (env, w)
       = (Return tt,
          (env2,
           set_lastCueUpdate (clock env)
             (set_cues
                {| QLabOSCClient.id := js_or (QLabOSCClient.id sel) (JStr "");
                   QLabOSCClient.number :=
                     js_or (js_or (QLabOSCClient.number sel) (JStr "")) (JStr "--");
                   QLabOSCClient.name :=
                     js_or (js_or (QLabOSCClient.name sel) (JStr "")) (JStr "No selection");
                   QLabOSCClient.type :=
                     js_or (js_or (QLabOSCClient.type sel) (JStr "")) (JStr "unknown") |}
                {| QLabOSCClient.id := JStr ""; QLabOSCClient.number := JStr "--";
                   QLabOSCClient.name := JStr "No next cue";
                   QLabOSCClient.type := JStr "unknown" |}
                (set_client c2 w)))).
Proof.
  intros Hdue.
  destruct (getCueInfo_returns env (client w)) as (sel & env1 & c1 & env2 & c2 & Hsel & Hinfo).
  exists sel, env1, c1, env2, c2. split; [exact Hsel|].
  unfold updateCueInfo. async_unfold.
  replace (clock env - lastCueUpdate w <? cacheTimeout w) with false
    by (symmetry; apply Z.ltb_ge; lia).
  unfold on_client, within. cbn [fst snd]. rewrite Hinfo. reflexivity.
Qed.

(** A refresh made less than [cacheTimeout] after the last one does
    nothing. *)
Lemma updateCueInfo_held env w :
  clock env - lastCueUpdate w < cacheTimeout w ->
  updateCueInfo String_ (env, w) = (Return tt, (env, w)).
Proof.
  intros Hheld. unfold updateCueInfo. async_unfold.
  replace (clock env - lastCueUpdate w <? cacheTimeout w) with true
    by (symmetry; apply Z.ltb_lt; lia).
  reflexivity.
Qed.

(** [updateCueInfo] never raises and touches neither the connection flags
    nor the workspace id. *)
Lemma updateCueInfo_keeps env w :
  exists env' w',
    updateCueInfo String_ (env, w) = (Return tt, (env', w'))
    /\ connected w' = connected w
    /\ connectionError w' = connectionError w
    /\ workspaceId w' = workspaceId w.
Proof.
  destruct (Z_lt_le_dec (clock env - lastCueUpdate w) (cacheTimeout w)) as [Hheld|Hdue].
  - rewrite (updateCueInfo_held env w Hheld). now eexists _, _.
  - destruct (updateCueInfo_runs env w Hdue) as (sel & env1 & c1 & env2 & c2 & _ & ->).
    now eexists _, _.
Qed.


(** Two refreshes: when the second starts less than [cacheTimeout] after
    the first one started, it sends nothing and leaves the mirror as the
    first one made it. *)
Theorem updateCueInfo_throttle (env : Env) (w : t) (dt : Z) :
  cacheTimeout w <= clock env - lastCueUpdate w ->
  let first := updateCueInfo String_ (env, w) in
  clock (fst (snd first)) + dt - clock env < cacheTimeout w ->
  let second := (sleep dt ;; updateCueInfo String_) (snd first) in
  fst second = Return tt
  /\ snd (snd second) = snd (snd first)
  /\ outbox (fst (snd second)) = outbox (fst (snd first)).
Proof.
  intros Hdue first. subst first.
  destruct (updateCueInfo_runs env w Hdue) as (sel & env1 & c1 & env2 & c2 & _ & ->).
  cbn [fst snd]. intros Hsoon.
  unfold bind, sleep. cbn [fst snd].
  rewrite updateCueInfo_held; [auto|].
  cbn. lia.
Qed.
End CueMirror.

Section CueMirrorExamples.
Import Async QLabClientWrapperState.
Local Open Scope Z_scope.
Local Open Scope async_scope.


Lemma updateCueInfo_throttle_witness :
  let first := updateCueInfo (fun _ => "") (lastCueSelected, new None) in
  let second := (sleep 1000 ;; updateCueInfo (fun _ => "")) (snd first) in
  clock (fst (snd first)) = 5045
  /\ fst second = Return tt
  /\ snd (snd second) = snd (snd first)
  /\ outbox (fst (snd second)) = outbox (fst (snd first)).
Proof.
  split; [reflexivity|].
  apply (updateCueInfo_throttle (fun _ => "") lastCueSelected (new None) 1000).
  - vm_compute. discriminate.
  - vm_compute. reflexivity.
Defined.
End CueMirrorExamples.

Section Initialize.
Import Async QLabClientWrapperState.
Local Open Scope Z_scope.
Local Open Scope async_scope.
Variable String_ : JSValue -> string.

(** [isRunning] answers whether the port took the version message. *)
Lemma isRunning_outcome env c :
  exists env',
    QLabOSCClientLists.isRunning (env, c)
    = (Return (accepted false (upcoming 0 env)),
       (env', QLabOSCClientLists.set_connected (accepted false (upcoming 0 env)) c))
    /\ script env' = tl (script env).
Proof.
  unfold QLabOSCClientLists.isRunning. async_unfold.
  unfold sendOSCMessage, upcoming. cbn [fst snd].
  destruct (script env) as [|[e|dt data|dt|] rest]; cbn [nth accepted negb tl];
    try (eexists; split; reflexivity).
  destruct data; eexists; split; reflexivity.
Qed.

(** [initialize] never raises.  The wrapper ends up connected, with no
    connection error, exactly when the port takes the version message: a
    workspace that refuses the connect, or a device that answers no query
    at all, makes no difference.  Otherwise the error is "QLab is not
    running" and nothing more is sent. *)
Theorem initialize_outcome (env : Env) (w : t) :
  let result := initialize String_ (env, w) in
  let w' := snd (snd result) in
  fst result = Return tt
  /\ workspaceId w' = workspaceId w
  /\ (if accepted false (upcoming 0 env)
      then connected w' = true /\ connectionError w' = None
      else connected w' = connected w
           /\ connectionError w' = Some "QLab is not running"
           /\ outbox (fst (snd result)) = outbox env).
Proof.
  intros result w'.
  assert (H : exists env0 w0,
            initialize String_ (env, w) = (Return tt, (env0, w0))
            /\ workspaceId w0 = workspaceId w
            /\ (if accepted false (upcoming 0 env)
                then connected w0 = true /\ connectionError w0 = None
                else connected w0 = connected w
                     /\ connectionError w0 = Some "QLab is not running"
                     /\ outbox env0 = outbox env)).
  { unfold initialize. unfold try_catch at 1. unfold bind at 1.
    unfold on_client at 1. unfold within. cbn [fst snd].
    destruct (isRunning_outcome env (client w)) as (env1 & Hrun & _).
    assert (Hout : accepted false (upcoming 0 env) = false -> outbox env1 = outbox env).
    { intros Hno.
      assert (H : outbox (fst (snd (QLabOSCClientLists.isRunning (env, client w))))
                  = outbox env).
      { revert Hno. unfold QLabOSCClientLists.isRunning. async_unfold.
        unfold sendOSCMessage, upcoming, accepted. cbn [fst snd].
        destruct (script env) as [|[e|dt data|dt|] rest]; cbn [nth negb];
          try discriminate; try reflexivity.
        destruct data; discriminate. }
      now rewrite Hrun in H. }
    rewrite Hrun. destruct (accepted false (upcoming 0 env)).
    - unfold bind at 1. unfold assign at 1. cbn [fst snd].
      unfold bind at 1. unfold assign at 1. cbn [fst snd].
      unfold bind at 1. unfold this at 1. cbn [fst snd].
      match goal with
      | |- context [bind ?m _ (env1, ?w1)] =>
          assert (Hws : exists env2 w2,
                    m (env1, w1) = (Return tt, (env2, w2))
                    /\ connected w2 = true /\ connectionError w2 = None
                    /\ workspaceId w2 = workspaceId w)
      end.
      { cbn [workspaceId set_connectionError set_connected set_client set_base].
        destruct (namesWorkspace (workspaceId w)); [|now eexists _, _].
        unfold bind, on_client, within. cbn [fst snd].
        match goal with
        | |- context [QLabOSCClient.setActiveWorkspace ?x (?e, ?c)] =>
            destruct (setActiveWorkspace_returns x e c) as (b & env2 & c2 & ->)
        end.
        now eexists _, _. }
      destruct Hws as (env2 & w2 & Hws & Hc & He & Hid).
      unfold bind at 1. rewrite Hws.
      destruct (updateCueInfo_keeps String_ env2 w2) as (env3 & w3 & -> & Hc3 & He3 & Hid3).
      exists env3, w3. repeat split; congruence.
    - cbn [fst snd]. unfold assign. cbn [fst snd].
      eexists _, _. split; [reflexivity|].
      cbn [connected connectionError workspaceId set_connectionError set_client set_base].
      auto. }
  destruct H as (env0 & w0 & Hrun & Hid & Hconn).
  subst w' result. rewrite Hrun. cbn [fst snd]. auto.
Qed.
End Initialize.

(* ===================================================================== *)
(** * The cue-list caches of the wrapper                                  *)
(* ===================================================================== *)

Section SharedCueList.
Import Async QLabClientWrapperState.
Local Open Scope Z_scope.
Local Open Scope async_scope.
Variable objectAsList :
  list (string * JSValue) -> nat -> Outcome (list QLabOSCClientLists.Entry).

(** A cue list fetched by one wrapper is stored under its workspace id in
    the cache all wrappers share, stamped with the clock at the start of the
    fetch.  Any wrapper with the same workspace id that asks less than ten
    seconds after that moment gets the same list and sends nothing; the
    "Error loading cues" entry of a failed fetch is handed out in the same
    way. *)
Theorem getAllCues_shared (env : Env) (w1 w2 : t) (cache : JSMap string Slot) (dt : Z) :
  workspaceId w2 = workspaceId w1 ->
  freshSlot (map_get (workspaceId w1) cache) (clock env) 10000 = None ->
  cachedCues w1 = [] \/ 10000 <= clock env - lastCuesUpdate w1 ->
  let first := getAllCues objectAsList cache (env, w1) in
  exists es cache1,
    fst first = Return (es, cache1)
    /\ es <> []
    /\ map_get (workspaceId w1) cache1 = Some {| cues := es; lastUpdate := clock env |}
    /\ (accepted true (upcoming 0 env) = false -> es = [QLabOSCClientLists.errorCues])
    /\ (clock (fst (snd first)) + dt - clock env < 10000 ->
        let second := (sleep dt ;; getAllCues objectAsList cache1) (fst (snd first), w2) in
        fst second = Return (es, cache1)
        /\ snd (snd second) = w2
        /\ outbox (fst (snd second)) = outbox (fst (snd first))).
Proof.
  intros Hid Hglobal Hlocal first. subst first.
  destruct (getAllCues_returns objectAsList env (client w1))
    as (es & env1 & Hrun & Hne & Hfail).
  exists es, (map_set (workspaceId w1) {| cues := es; lastUpdate := clock env |} cache).
  assert (Hfirst : getAllCues objectAsList cache (env, w1)
                   = (Return (es, map_set (workspaceId w1)
                                    {| cues := es; lastUpdate := clock env |} cache),
                      (env1, set_cachedCues es (clock env) (set_client (client w1) w1)))).
  { unfold getAllCues. async_unfold. rewrite Hglobal.
    replace ((0 <? List.length (cachedCues w1))%nat
             && (clock env - lastCuesUpdate w1 <? 10000)) with false.
    - unfold on_client, within. cbn [fst snd]. rewrite Hrun. reflexivity.
    - symmetry. destruct Hlocal as [-> | Hold]; [reflexivity|].
      apply andb_false_iff. right. apply Z.ltb_ge. lia. }
  rewrite Hfirst. cbn [fst snd].
  split; [reflexivity|]. split; [exact Hne|].
  split; [apply map_get_set_eq|].
  split; [intros Hno; now destruct (Hfail Hno)|].
  intros Hsoon. unfold bind at 1 2 3. unfold sleep. cbn [fst snd].
  unfold getAllCues. async_unfold. cbn [clock]. rewrite Hid, map_get_set_eq.
  unfold freshSlot. cbn [lastUpdate cues].
  replace (clock env1 + dt - clock env <? 10000) with true
    by (symmetry; apply Z.ltb_lt; exact Hsoon).
  cbn [fst snd outbox]. auto.
Qed.
End SharedCueList.

Section SharedCueListExamples.
Import Async QLabClientWrapperState.
Local Open Scope Z_scope.
Local Open Scope async_scope.

(** The device answers the cue-list query with an error status after
    40 ms: the error entry fetched for one session is what a second wrapper
    of the same workspace gets four seconds later. *)
Lemma getAllCues_shared_witness :
  let env := {| clock := 1000; outbox := []; script := [ReplyError 40] |} in
  exists es cache1,
    fst (getAllCues (fun _ _ => Return []) [] (env, new (Some "ws1")))
    = Return (es, cache1)
    /\ es = [QLabOSCClientLists.errorCues]
    /\ fst ((sleep 4000 ;; getAllCues (fun _ _ => Return []) cache1)
              (fst (snd (getAllCues (fun _ _ => Return []) [] (env, new (Some "ws1")))),
               new (Some "ws1")))
       = Return (es, cache1).
Proof.
  intros env.
  destruct (getAllCues_shared (fun _ _ => Return []) env
              (new (Some "ws1")) (new (Some "ws1")) [] 4000
              eq_refl eq_refl (or_introl eq_refl))
    as (es & cache1 & Hfirst & _ & _ & Herr & Hsecond).
  exists es, cache1. split; [exact Hfirst|]. split; [apply Herr; reflexivity|].
  apply Hsecond. vm_compute. reflexivity.
Defined.
End SharedCueListExamples.

(* ===================================================================== *)
(** * The debounced refresh                                               *)
(* ===================================================================== *)

Section Debounce.
Import Dispatcher.
Local Open Scope Z_scope.

Lemma clearTimeout_single due handle : clearTimeout handle [(due, handle)] = [].
Proof. unfold clearTimeout. cbn. now rewrite Nat.eqb_refl. Qed.

(** One call with no timer waiting sets the only timer. *)
Lemma call_when_quiet st :
  armed st = [] ->
  let st' := updateAllClientsCueInfo st in
  armed st' = [(now st + 500, handles st)]
  /\ updateTimeout st' = Some (handles st)
  /\ now st' = now st /\ cycles st' = cycles st /\ running st' = running st.
Proof.
  intros Hq. unfold updateAllClientsCueInfo, UPDATE_DEBOUNCE_MS. cbn.
  rewrite Hq. destruct (updateTimeout st); cbn; auto.
Qed.

(** With no cycle running, none reaches its end. *)
Lemma finishing_idle ended st :
  ended = O \/ running st = O -> finishing ended st = st.
Proof.
  intros [-> | Hidle]; [reflexivity|].
  induction ended as [|n IH]; [reflexivity|].
  cbn [finishing]. rewrite IH. unfold finish. now rewrite Hidle.
Qed.

(** During a burst in which no cycle ends, the one timer waiting is that of
    the latest call. *)
Lemma burst_invariant gaps st :
  Forall (fun gap => 0 <= fst gap < 500
                     /\ (snd gap = O \/ running st = O)) gaps ->
  (exists h, armed st = [(now st + 500, h)] /\ updateTimeout st = Some h) ->
  let st' := fold_left
               (fun s gap =>
                  updateAllClientsCueInfo
                    (finishing (snd gap) (advanceTo (now s + fst gap) s)))
               gaps st in
  (exists h, armed st' = [(now st' + 500, h)] /\ updateTimeout st' = Some h)
  /\ cycles st' = cycles st
  /\ running st' = running st
  /\ now st' = now st + span gaps.
Proof.
  intros Hgaps. revert st Hgaps.
  induction gaps as [|gap gaps IH]; intros st Hgaps Hinv.
  - cbn. split; [exact Hinv|]. repeat split; lia.
  - inversion Hgaps as [|? ? (Hgap & Hquiet) Hrest]; subst.
    cbn [fold_left]. unfold span. cbn [List.map fold_right]. fold (span gaps).
    set (st1 := updateAllClientsCueInfo
                  (finishing (snd gap) (advanceTo (now st + fst gap) st))).
    assert (H1 : (exists h, armed st1 = [(now st1 + 500, h)] /\ updateTimeout st1 = Some h)
                 /\ cycles st1 = cycles st /\ running st1 = running st
                 /\ now st1 = now st + fst gap).
    { destruct Hinv as (h & Harmed & Hto). subst st1.
      assert (Hadv : advanceTo (now st + fst gap) st
                     = {| updateTimeout := updateTimeout st; armed := armed st;
                          handles := handles st; now := now st + fst gap;
                          cycles := cycles st; running := running st |}).
      { unfold advanceTo. rewrite Harmed. cbn [runDue].
        replace (now st + 500 <=? now st + fst gap) with false
          by (symmetry; apply Z.leb_gt; lia).
        reflexivity. }
      rewrite Hadv, finishing_idle by exact Hquiet.
      unfold updateAllClientsCueInfo, UPDATE_DEBOUNCE_MS.
      cbn [updateTimeout armed handles now cycles running].
      rewrite Hto, Harmed, clearTimeout_single. cbn [enqueue].
      split; [now eexists|]. auto. }
    destruct H1 as (Hinv1 & Hc1 & Hr1 & Hn1).
    destruct (IH st1) as (Hinv' & Hc' & Hr' & Hn'); [|exact Hinv1|].
    { eapply Forall_impl; [|exact Hrest]. cbn beta.
      intros g (Hg & Hq). rewrite Hr1. auto. }
    split; [exact Hinv'|]. repeat split; try congruence. lia.
Qed.

(** Calls that follow one another by less than 500 ms, with no refresh
    cycle reaching its end in between (none is running, or none of those
    running ends), start no refresh while they last and exactly one
    afterwards, 500 ms after the last of them. *)
Theorem debounce_coalesces (gaps : list (Z * nat)) (st : State) :
  armed st = [] ->
  running st = O \/ Forall (fun gap => snd gap = O) gaps ->
  Forall (fun gap => 0 <= fst gap < 500) gaps ->
  let st' := burst gaps st in
  let last := now st + span gaps in
  now st' = last
  /\ cycles st' = cycles st
  /\ cycles (advanceTo (last + 500) st') = cycles st ++ [last + 500]
  /\ armed (advanceTo (last + 500) st') = [].
Proof.
  intros Hq Hquiet Hgaps st' last.
  destruct (call_when_quiet st Hq) as (Ha & Hto & Hn & Hc & Hr).
  destruct (burst_invariant gaps (updateAllClientsCueInfo st)) as (Hinv & Hc' & _ & Hn').
  { rewrite Hr. apply Forall_forall. intros gap Hin. split.
    - now apply (proj1 (Forall_forall _ _) Hgaps).
    - destruct Hquiet as [Hidle | Hnone]; [now right|].
      left. now apply (proj1 (Forall_forall _ _) Hnone). }
  { exists (handles st). split; [exact Ha | exact Hto]. }
  fold (burst gaps st) in Hinv, Hc', Hn'. fold st' in Hinv, Hc', Hn'.
  destruct Hinv as (h & Harmed & _).
  assert (Hlast : now st' = last) by (subst last; lia).
  split; [exact Hlast|]. split; [congruence|].
  unfold advanceTo. rewrite Harmed, Hlast. cbn [runDue].
  rewrite Z.leb_refl. cbn [runDue begin cycles armed]. split; [congruence | reflexivity].
Qed.

Lemma debounce_coalesces_witness :
  cycles (burst [(100, 0%nat); (300, 2%nat); (499, 0%nat)] initial) = []
  /\ cycles (advanceTo (0 + span [(100, 0%nat); (300, 2%nat); (499, 0%nat)] + 500)
               (burst [(100, 0%nat); (300, 2%nat); (499, 0%nat)] initial))
     = [1399].
Proof.
  destruct (debounce_coalesces [(100, 0%nat); (300, 2%nat); (499, 0%nat)] initial eq_refl)
    as (_ & Hquiet & Hone & _).
  - left. reflexivity.
  - repeat constructor; cbn; lia.
  - split; [exact Hquiet | exact Hone].
Defined.

(** A call made while a refresh cycle is running sets a timer whose handle
    the cycle forgets when it ends ([updateTimeout = null]).  The next call
    cannot clear that timer, so two calls less than 500 ms apart start two
    refreshes. *)
Theorem debounce_forgets_handle (gap : Z) (st : State) :
  armed st = [] ->
  0 <= gap < 500 ->
  let during := updateAllClientsCueInfo (advanceTo (now st + 500) (updateAllClientsCueInfo st)) in
  let after := updateAllClientsCueInfo (advanceTo (now during + gap) (finish during)) in
  List.length (armed after) = 2%nat
  /\ cycles (advanceTo (now after + 500) after)
     = cycles st ++ [now st + 500; now st + 1000; now st + 1000 + gap].
Proof.
  intros Hq Hgap during after. subst after during.
  destruct st as [timeout q h t c r]. cbn [armed] in Hq. subst q.
  unfold updateAllClientsCueInfo, advanceTo, finish, UPDATE_DEBOUNCE_MS.
  cbn [armed now handles cycles running updateTimeout].
  replace (match timeout with
           | Some handle => clearTimeout handle []
           | None => []
           end) with (@nil (Z * nat)) by (destruct timeout; reflexivity).
  cbn [enqueue runDue]. rewrite Z.leb_refl.
  cbn [runDue begin armed now handles cycles running updateTimeout clearTimeout filter
       enqueue].
  replace (t + 500 + 500 <=? t + 500 + gap) with false
    by (symmetry; apply Z.leb_gt; lia).
  cbn [armed now handles cycles running updateTimeout enqueue].
  replace (t + 500 + 500 <=? t + 500 + gap + 500) with true
    by (symmetry; apply Z.leb_le; lia).
  cbn [enqueue List.length runDue]. split; [reflexivity|].
  replace (t + 500 + 500 <=? t + 500 + gap + 500) with true
    by (symmetry; apply Z.leb_le; lia).
  cbn [runDue begin armed now handles cycles running updateTimeout].
  rewrite Z.leb_refl.
  cbn [runDue begin armed now handles cycles running updateTimeout].
  rewrite <- !app_assoc. cbn [app].
  replace (t + 500 + 500) with (t + 1000) by lia.
  replace (t + 500 + gap + 500) with (t + 1000 + gap) by lia.
  reflexivity.
Qed.

Lemma debounce_forgets_handle_witness :
  let during := updateAllClientsCueInfo (advanceTo 500 (updateAllClientsCueInfo initial)) in
  let after := updateAllClientsCueInfo (advanceTo (500 + 100) (finish during)) in
  List.length (armed after) = 2%nat
  /\ cycles (advanceTo (now after + 500) after) = [500; 1000; 1100].
Proof.
  apply (debounce_forgets_handle 100 initial); [reflexivity | lia].
Defined.
End Debounce.

(* ===================================================================== *)
(** * Update notifications on the shared port                             *)
(* ===================================================================== *)

Section Notifications.
Import Transport.
Variable JSON_parse : JSValue -> option JSValue.

Lemma prefix_refl s : String.prefix s s = true.
Proof.
  induction s as [|ch s IH]; cbn; [reflexivity|].
  destruct (ascii_dec ch ch); [exact IH | congruence].
Qed.

(** [s.endsWith(p)] implies [s.includes(p)]. *)
Lemma endsWith_includes s p : endsWith s p = true -> includes s p = true.
Proof.
  induction s as [|ch s IH]; cbn [endsWith includes].
  - rewrite orb_false_r. intros Heq. apply String.eqb_eq in Heq. subst p. reflexivity.
  - intros Hend. apply orb_true_iff in Hend as [Heq|Hend].
    + apply String.eqb_eq in Heq. subst p. now rewrite prefix_refl.
    + rewrite (IH Hend). apply orb_true_r.
Qed.

(** What one message that is no reply does. *)
Lemma notification_step m g :
  startsWith (address m) "/reply" = false ->
  let g' := handleGlobalOSCMessage JSON_parse m g in
  globalOSCCallbacks g' = globalOSCCallbacks g
  /\ calls g' = calls g /\ wire g' = wire g /\ errorCount g' = errorCount g
  /\ updateRequests g <= updateRequests g' <= S (updateRequests g)
  /\ (endsWith (address m) "update" = true -> updateRequests g' = S (updateRequests g)).
Proof.
  intros Hnot. unfold handleGlobalOSCMessage. rewrite Hnot.
  destruct (includes (address m) "update") eqn:Hinc.
  - destruct (includes (address m) "playbackPosition" || includes (address m) "cueList"
              || includes (address m) "cue_id" || endsWith (address m) "update") eqn:Hany;
      cbn; repeat split; auto.
    intros Hend. rewrite Hend, !orb_true_r in Hany. discriminate.
  - cbn. repeat split; auto.
    intros Hend. apply endsWith_includes in Hend. congruence.
Qed.

(** Messages that are no replies leave the waiting callbacks and every
    promise as they are, whatever their addresses; each asks for at most
    one refresh, and each whose address ends in "update" for exactly
    one. *)
Theorem notifications_leave_calls (messages : list OSCMessage) (g : Global) :
  Forall (fun m => startsWith (address m) "/reply" = false) messages ->
  let g' := deliver JSON_parse messages g in
  globalOSCCallbacks g' = globalOSCCallbacks g
  /\ calls g' = calls g /\ wire g' = wire g /\ errorCount g' = errorCount g
  /\ updateRequests g <= updateRequests g' <= updateRequests g + List.length messages
  /\ (Forall (fun m => endsWith (address m) "update" = true) messages ->
      updateRequests g' = updateRequests g + List.length messages).
Proof.
  intros Hall. revert g. induction Hall as [|m ms Hm _ IH]; intros g.
  - cbn. repeat split; auto; lia.
  - cbn [deliver fold_left List.length].
    fold (deliver JSON_parse ms (handleGlobalOSCMessage JSON_parse m g)).
    destruct (notification_step m g Hm) as (H1 & H2 & H3 & H4 & H5 & H6).
    destruct (IH (handleGlobalOSCMessage JSON_parse m g)) as (I1 & I2 & I3 & I4 & I5 & I6).
    cbv zeta. repeat split; try congruence; try lia.
    intros Hends. inversion Hends as [|? ? Hend Hrest]; subst.
    rewrite (I6 Hrest), (H6 Hend). lia.
Qed.
End Notifications.

Section NotificationsExamples.
Import Transport.

Lemma notifications_leave_calls_witness :
  let messages :=
    [{| address := "/update/workspace/ws1/cueList/1/playbackPosition"; args := [] |};
     {| address := "/update/workspace/ws1/disconnect"; args := [] |}] in
  calls (deliver (fun _ => None) messages initial) = []
  /\ updateRequests (deliver (fun _ => None) messages initial) = 1%nat.
Proof.
  intros messages.
  destruct (notifications_leave_calls (fun _ => None) messages initial)
    as (_ & Hcalls & _ & _ & _ & _).
  - repeat constructor.
  - split; [exact Hcalls | reflexivity].
Defined.
End NotificationsExamples.
